(** * MEC-assisted PoW blockchain simulator: entities, games and block handling

    A shallow embedding of the simulator's entity classes
    ([entities/miner.py], [entities/coalition.py], [entities/ecp.py]), of the
    formula module ([simulation/utils.py]) and of the block handler of
    [simulation/engine.py], followed by the properties proved about them.

    Conventions of the embedding:
    - Python floats are exact rationals ([Q]); [==] is rational equality, so
      every result below is a statement about the arithmetic the code writes
      down, not about IEEE rounding.
    - Python objects live in a store ([World]): a miner holds references to
      its coalitions and a coalition holds references to its members, as in
      the source, and methods read and update the store.
    - [Miner.__eq__], [Coalition.__eq__] and [Transaction.__eq__] compare
      identifiers; [x in list] and [list.remove] are modelled with them.
    - Calls to [random.random()] take the drawn number as an argument. *)

From Stdlib Require Import QArith Qminmax Qabs Lqa Lia List Sorted.
From stdpp Require Import gmap list.

Open Scope Q_scope.

(** ** Python runtime surface *)

Inductive exn : Type := ValueError | IndexError | AttributeError.

Inductive result (A : Type) : Type :=
| Ok (a : A)
| Raise (e : exn).
Arguments Ok {A} a.
Arguments Raise {A} e.

#[global] Instance result_bind : MBind result := fun A B k r =>
  match r with
  | Ok a => k a
  | Raise e => Raise e
  end.

(** [a < b] on floats, as a boolean. *)
Definition Qlt_bool (a b : Q) : bool := negb (Qle_bool b a).

(** [int(x)]: truncation toward zero. *)
Definition int_of_Q (x : Q) : Z := Z.quot (Qnum x) (Z.pos (Qden x)).

(** [sum(xs)] and the [acc += x] loops. *)
Definition Qsum (xs : list Q) : Q := fold_left Qplus xs 0.

(** [l.remove(x)]: drops the first element equal to [x]; [ValueError] when
    there is none. *)
Fixpoint list_remove {A : Type} (is_x : A -> bool) (l : list A) : result (list A) :=
  match l with
  | [] => Raise ValueError
  | y :: t =>
      if is_x y then Ok t
      else t' ← list_remove is_x t; Ok (y :: t')
  end.

(** ** Configuration ([simulation/config.py]) *)

Definition BLOCK_REWARD_B : Q := 1000.
Definition TRANSACTIONS_PER_BLOCK_I : nat := 10.
Definition STAKE_AMOUNT : Q := 5 # 10.
Definition CONTEXT_SWITCH_OVERHEAD : Q := 16 # 1000.
Definition ECP_MAX_CAPACITY_L : Q := 10000000000.
Definition ECP_OPERATING_COST_C : Q := 5 # 10.
Definition ECP_INITIAL_PRICE : Q := 200.
Definition ECP_PRICE_MIN : Q := 0.
Definition ECP_PRICE_MAX : Q := 450.
Definition STACKELBERG_LEARNING_RATE : Q := 1 # 100.
Definition STACKELBERG_MAX_ITERATIONS : nat := 100.
Definition STACKELBERG_CONVERGENCE_THRESHOLD : Q := 1 # 100.
Definition STACKELBERG_STEP_DECAY : Q := 95 # 100.
Definition SMART_CONTRACT_ENABLED : bool := true.
Definition TRUST_OVERHEAD_FACTOR : Q := 7 # 100.
Definition THEFT_PROBABILITY : Q := 1 # 100.
Definition THEFT_AMOUNT : Q := 20 # 100.
Definition DEFINITION_4_ENABLED : bool := true.

(** ** Data model *)

(** References to [Miner] and [Coalition] objects. *)
Definition mref : Type := nat.
Definition cref : Type := nat.

Record Transaction : Type := {
  tx_id : Z;
  fee : Q
}.

(** A [set] of transactions is hashed and compared by [tx_id]: it holds at
    most one transaction per identifier, so it is a finite map from the
    identifier to the fee of the stored transaction. *)

Record Miner : Type := {
  miner_id : Z;
  total_hashrate : Q;
  transaction_collection_rate : Z;
  coalitions : list cref;
  coalition_ids : list Z;
  allocation : gmap Z Q;
  transactions : gmap Z Q;
  stake_deposited : Q;
  total_earnings : Q;
  earnings_history : list Q;
  m_current_utility : Q;
  m_utility_history : list Q
}.

Record Coalition : Type := {
  coalition_id : Z;
  head_miner : option mref;
  members : list mref;
  transaction_pool : list Transaction;
  blocks_found : Z;
  total_rewards : Q;
  rewards_history : list Q;
  ecp_compute_purchased : Q;
  ecp_cost_paid : Q;
  expected_rewards : Q;
  c_current_utility : Q;
  c_utility_history : list Q
}.

(** The object store. *)
Record World : Type := {
  miner_at : mref -> Miner;
  coalition_at : cref -> Coalition
}.

Definition set_miner (w : World) (m : mref) (x : Miner) : World :=
  {| miner_at := fun r => if Nat.eqb r m then x else miner_at w r;
     coalition_at := coalition_at w |}.

Definition set_coalition (w : World) (c : cref) (x : Coalition) : World :=
  {| miner_at := miner_at w;
     coalition_at := fun r => if Nat.eqb r c then x else coalition_at w r |}.

(** [Miner.__init__] *)
Definition new_Miner (id : Z) (hashrate : Q) : Miner :=
  {| miner_id := id;
     total_hashrate := hashrate;
     transaction_collection_rate := int_of_Q (hashrate / 1000000);
     coalitions := [];
     coalition_ids := [];
     allocation := ∅;
     transactions := ∅;
     stake_deposited := STAKE_AMOUNT;
     total_earnings := 0;
     earnings_history := [];
     m_current_utility := 0;
     m_utility_history := [] |}.

(** [Coalition.__init__] *)
Definition new_Coalition (id : Z) (head : option mref) : Coalition :=
  {| coalition_id := id;
     head_miner := head;
     members := match head with Some h => [h] | None => [] end;
     transaction_pool := [];
     blocks_found := 0;
     total_rewards := 0;
     rewards_history := [];
     ecp_compute_purchased := 0;
     ecp_cost_paid := 0;
     expected_rewards := BLOCK_REWARD_B;
     c_current_utility := 0;
     c_utility_history := [] |}.

(** Field updates of a miner. *)
Definition miner_set_membership (mi : Miner) (cs : list cref) (ids : list Z) : Miner :=
  {| miner_id := miner_id mi;
     total_hashrate := total_hashrate mi;
     transaction_collection_rate := transaction_collection_rate mi;
     coalitions := cs;
     coalition_ids := ids;
     allocation := allocation mi;
     transactions := transactions mi;
     stake_deposited := stake_deposited mi;
     total_earnings := total_earnings mi;
     earnings_history := earnings_history mi;
     m_current_utility := m_current_utility mi;
     m_utility_history := m_utility_history mi |}.

Definition miner_set_allocation (mi : Miner) (a : gmap Z Q) : Miner :=
  {| miner_id := miner_id mi;
     total_hashrate := total_hashrate mi;
     transaction_collection_rate := transaction_collection_rate mi;
     coalitions := coalitions mi;
     coalition_ids := coalition_ids mi;
     allocation := a;
     transactions := transactions mi;
     stake_deposited := stake_deposited mi;
     total_earnings := total_earnings mi;
     earnings_history := earnings_history mi;
     m_current_utility := m_current_utility mi;
     m_utility_history := m_utility_history mi |}.

Definition miner_set_transactions (mi : Miner) (s : gmap Z Q) : Miner :=
  {| miner_id := miner_id mi;
     total_hashrate := total_hashrate mi;
     transaction_collection_rate := transaction_collection_rate mi;
     coalitions := coalitions mi;
     coalition_ids := coalition_ids mi;
     allocation := allocation mi;
     transactions := s;
     stake_deposited := stake_deposited mi;
     total_earnings := total_earnings mi;
     earnings_history := earnings_history mi;
     m_current_utility := m_current_utility mi;
     m_utility_history := m_utility_history mi |}.

Definition miner_set_earnings (mi : Miner) (total : Q) (hist : list Q) : Miner :=
  {| miner_id := miner_id mi;
     total_hashrate := total_hashrate mi;
     transaction_collection_rate := transaction_collection_rate mi;
     coalitions := coalitions mi;
     coalition_ids := coalition_ids mi;
     allocation := allocation mi;
     transactions := transactions mi;
     stake_deposited := stake_deposited mi;
     total_earnings := total;
     earnings_history := hist;
     m_current_utility := m_current_utility mi;
     m_utility_history := m_utility_history mi |}.

Definition miner_set_utility (mi : Miner) (u : Q) (hist : list Q) : Miner :=
  {| miner_id := miner_id mi;
     total_hashrate := total_hashrate mi;
     transaction_collection_rate := transaction_collection_rate mi;
     coalitions := coalitions mi;
     coalition_ids := coalition_ids mi;
     allocation := allocation mi;
     transactions := transactions mi;
     stake_deposited := stake_deposited mi;
     total_earnings := total_earnings mi;
     earnings_history := earnings_history mi;
     m_current_utility := u;
     m_utility_history := hist |}.

(** Field updates of a coalition. *)
Definition coalition_set_members (co : Coalition) (head : option mref) (ms : list mref) : Coalition :=
  {| coalition_id := coalition_id co;
     head_miner := head;
     members := ms;
     transaction_pool := transaction_pool co;
     blocks_found := blocks_found co;
     total_rewards := total_rewards co;
     rewards_history := rewards_history co;
     ecp_compute_purchased := ecp_compute_purchased co;
     ecp_cost_paid := ecp_cost_paid co;
     expected_rewards := expected_rewards co;
     c_current_utility := c_current_utility co;
     c_utility_history := c_utility_history co |}.

Definition coalition_set_pool (co : Coalition) (pool : list Transaction) : Coalition :=
  {| coalition_id := coalition_id co;
     head_miner := head_miner co;
     members := members co;
     transaction_pool := pool;
     blocks_found := blocks_found co;
     total_rewards := total_rewards co;
     rewards_history := rewards_history co;
     ecp_compute_purchased := ecp_compute_purchased co;
     ecp_cost_paid := ecp_cost_paid co;
     expected_rewards := expected_rewards co;
     c_current_utility := c_current_utility co;
     c_utility_history := c_utility_history co |}.

Definition coalition_set_blocks_found (co : Coalition) (n : Z) : Coalition :=
  {| coalition_id := coalition_id co;
     head_miner := head_miner co;
     members := members co;
     transaction_pool := transaction_pool co;
     blocks_found := n;
     total_rewards := total_rewards co;
     rewards_history := rewards_history co;
     ecp_compute_purchased := ecp_compute_purchased co;
     ecp_cost_paid := ecp_cost_paid co;
     expected_rewards := expected_rewards co;
     c_current_utility := c_current_utility co;
     c_utility_history := c_utility_history co |}.

Definition coalition_set_compute (co : Coalition) (l : Q) : Coalition :=
  {| coalition_id := coalition_id co;
     head_miner := head_miner co;
     members := members co;
     transaction_pool := transaction_pool co;
     blocks_found := blocks_found co;
     total_rewards := total_rewards co;
     rewards_history := rewards_history co;
     ecp_compute_purchased := l;
     ecp_cost_paid := ecp_cost_paid co;
     expected_rewards := expected_rewards co;
     c_current_utility := c_current_utility co;
     c_utility_history := c_utility_history co |}.

(** The totals recorded at the end of [distribute_rewards]. *)
Definition coalition_record_block (co : Coalition) (block_reward ecp_cost utility : Q) : Coalition :=
  {| coalition_id := coalition_id co;
     head_miner := head_miner co;
     members := members co;
     transaction_pool := transaction_pool co;
     blocks_found := blocks_found co;
     total_rewards := total_rewards co + block_reward;
     rewards_history := rewards_history co ++ [block_reward];
     ecp_compute_purchased := ecp_compute_purchased co;
     ecp_cost_paid := ecp_cost_paid co + ecp_cost;
     expected_rewards := expected_rewards co;
     c_current_utility := utility;
     c_utility_history := c_utility_history co ++ [utility] |}.

(** ** Equality and membership of objects *)

(** [Miner.__eq__] *)
Definition miner_eq (w : World) (a b : mref) : bool :=
  (miner_id (miner_at w a) =? miner_id (miner_at w b))%Z.

(** [Coalition.__eq__] *)
Definition coalition_eq (w : World) (a b : cref) : bool :=
  (coalition_id (coalition_at w a) =? coalition_id (coalition_at w b))%Z.

(** [miner in l] *)
Definition miner_in (w : World) (m : mref) (l : list mref) : bool :=
  existsb (miner_eq w m) l.

(** [coalition in l] *)
Definition coalition_in (w : World) (c : cref) (l : list cref) : bool :=
  existsb (coalition_eq w c) l.

(** ** Work and hashrate ([Miner], [Coalition]) *)

(** [Miner.get_allocation] *)
Definition get_allocation (w : World) (m : mref) (c : cref) : Q :=
  default 0 (allocation (miner_at w m) !! coalition_id (coalition_at w c)).

(** [Miner.get_work_contribution] *)
Definition get_work_contribution (w : World) (m : mref) (c : cref) : Q :=
  let self := miner_at w m in
  if negb (coalition_in w c (coalitions self)) then 0
  else
    let allocated_hashrate := total_hashrate self * get_allocation w m c in
    let num_coalitions := length (coalitions self) in
    if (num_coalitions <=? 1)%nat then allocated_hashrate
    else
      let num_switches := num_coalitions in
      let total_overhead := inject_Z (Z.of_nat num_switches) * CONTEXT_SWITCH_OVERHEAD in
      let effective := allocated_hashrate * (1 - total_overhead) in
      Qmax 0 effective.

(** [Miner.get_potential_work_contribution] *)
Definition get_potential_work_contribution (w : World) (m : mref) (c : cref) : Q :=
  let self := miner_at w m in
  let num_coalitions := (length (coalitions self) + 1)%nat in
  let alloc := 1 / inject_Z (Z.of_nat num_coalitions) in
  let allocated_hashrate := total_hashrate self * alloc in
  if (num_coalitions <=? 1)%nat then allocated_hashrate
  else
    let num_switches := num_coalitions in
    let total_overhead := inject_Z (Z.of_nat num_switches) * CONTEXT_SWITCH_OVERHEAD in
    let effective := allocated_hashrate * (1 - total_overhead) in
    Qmax 0 effective.

(** [Coalition.get_total_work] *)
Definition get_total_work (w : World) (c : cref) : Q :=
  fold_left (fun total_work member => total_work + get_work_contribution w member c)
    (members (coalition_at w c)) 0.

(** [Coalition.get_effective_hashrate] *)
Definition get_effective_hashrate (w : World) (c : cref) : Q :=
  let member_hashrate := get_total_work w c in
  member_hashrate + ecp_compute_purchased (coalition_at w c).

(** [Coalition.get_size] *)
Definition get_size (w : World) (c : cref) : nat :=
  length (members (coalition_at w c)).

(** [Coalition.get_expected_member_utility]; the division is guarded by the
    test on [total_work]. *)
Definition get_expected_member_utility (w : World) (c : cref) (m : mref) : Q :=
  let total_work := get_total_work w c in
  if Qeq_bool total_work 0 then 0
  else
    let member_work := get_work_contribution w m c in
    let share := member_work / total_work in
    let expected_utility := share * expected_rewards (coalition_at w c) in
    Qmax 0 expected_utility.

(** ** Membership management of a miner ([entities/miner.py]) *)

(** [Miner.allocate_work_time].  [utilities] and the new allocation are
    dictionaries keyed by [coalition_id]; the expected utilities are read in
    the state before the allocation is replaced. *)
Definition allocate_work_time (w : World) (m : mref) : World :=
  let self := miner_at w m in
  let id_of (c : cref) := coalition_id (coalition_at w c) in
  match coalitions self with
  | [] => set_miner w m (miner_set_allocation self ∅)
  | [c0] => set_miner w m (miner_set_allocation self {[ id_of c0 := 1 ]})
  | cs =>
      let '(utilities, total_utility) :=
        fold_left
          (fun (acc : gmap Z Q * Q) coalition =>
             let utility := get_expected_member_utility w coalition m in
             let utilities := <[ id_of coalition := Qmax 0 utility ]> (fst acc) in
             (utilities, snd acc + default 0 (utilities !! id_of coalition)))
          cs (∅, 0) in
      if Qeq_bool total_utility 0 then
        let equal_share := 1 / inject_Z (Z.of_nat (length cs)) in
        set_miner w m (miner_set_allocation self
          (fold_left (fun a c => <[ id_of c := equal_share ]> a) cs ∅))
      else
        set_miner w m (miner_set_allocation self
          (fold_left
             (fun a coalition =>
                <[ id_of coalition :=
                     default 0 (utilities !! id_of coalition) / total_utility ]> a)
             cs ∅))
  end.

(** [Miner.join_coalition] *)
Definition join_coalition (w : World) (m : mref) (c : cref) : World * bool :=
  let self := miner_at w m in
  if coalition_in w c (coalitions self) then (w, false)
  else
    let w1 := set_miner w m
      (miner_set_membership self
         (coalitions self ++ [c])
         (coalition_ids self ++ [coalition_id (coalition_at w c)])) in
    (allocate_work_time w1 m, true).

(** [Miner.leave_coalition] *)
Definition leave_coalition (w : World) (m : mref) (c : cref) : result (World * bool) :=
  let self := miner_at w m in
  if negb (coalition_in w c (coalitions self)) then Ok (w, false)
  else
    cs ← list_remove (coalition_eq w c) (coalitions self);
    ids ← list_remove (Z.eqb (coalition_id (coalition_at w c))) (coalition_ids self);
    let self1 := miner_set_membership self cs ids in
    let self2 := miner_set_allocation self1
      (delete (coalition_id (coalition_at w c)) (allocation self1)) in
    Ok (allocate_work_time (set_miner w m self2) m, true).

(** [Miner.receive_reward] *)
Definition receive_reward (w : World) (m : mref) (amount : Q) : World :=
  let self := miner_at w m in
  set_miner w m
    (miner_set_earnings self (total_earnings self + amount) (earnings_history self ++ [amount])).

(** [Miner.update_utility] *)
Definition update_utility (w : World) (m : mref) (utility : Q) : World :=
  let self := miner_at w m in
  set_miner w m (miner_set_utility self utility (m_utility_history self ++ [utility])).

(** [Miner.get_transactions]: the held set as a list. *)
Definition get_transactions (w : World) (m : mref) : list Transaction :=
  map (fun p => {| tx_id := fst p; fee := snd p |}) (map_to_list (transactions (miner_at w m))).

(** [set.difference_update] with a list of transactions. *)
Definition difference_update (s : gmap Z Q) (txs : list Transaction) : gmap Z Q :=
  fold_left (fun acc tx => delete (tx_id tx) acc) txs s.

(** [Miner.clear_transactions] *)
Definition clear_transactions (w : World) (m : mref) (txs : list Transaction) : World :=
  let self := miner_at w m in
  set_miner w m (miner_set_transactions self (difference_update (transactions self) txs)).

(** ** Coalitions ([entities/coalition.py]) *)

(** [Coalition.check_definition_4], the check the engine applies.  Both
    divisions are guarded by the tests on the two totals. *)
Definition check_definition_4 (w : World) (c : cref) (new_miner : mref) : bool :=
  let self := coalition_at w c in
  if (length (members self) =? 0)%nat then true
  else
    let current_total_work := get_total_work w c in
    if Qeq_bool current_total_work 0 then true
    else
      let new_miner_work := get_potential_work_contribution w new_miner c in
      let projected_total_work := current_total_work + new_miner_work in
      if Qeq_bool projected_total_work 0 then false
      else
        forallb
          (fun member =>
             let member_work := get_work_contribution w member c in
             let current_share := member_work / current_total_work in
             let projected_share := member_work / projected_total_work in
             let current_utility := current_share * expected_rewards self in
             let projected_utility := projected_share * expected_rewards self in
             let epsilon := 1 # 1000000 in
             negb (Qlt_bool projected_utility (current_utility - epsilon)))
          (members self).

(** [Coalition.add_member] *)
Definition add_member (w : World) (c : cref) (m : mref) : World * bool :=
  let self := coalition_at w c in
  if miner_in w m (members self) then (w, false)
  else if DEFINITION_4_ENABLED && (0 <? length (members self))%nat
          && negb (check_definition_4 w c m) then (w, false)
  else
    let head := match head_miner self with None => Some m | Some h => Some h end in
    (set_coalition w c (coalition_set_members self head (members self ++ [m])), true).

(** [self.head_miner == miner], where the head may be [None]. *)
Definition head_is (w : World) (head : option mref) (m : mref) : bool :=
  match head with
  | Some h => miner_eq w h m
  | None => false
  end.

(** [Coalition.remove_member] *)
Definition remove_member (w : World) (c : cref) (m : mref) : result (World * bool) :=
  let self := coalition_at w c in
  if negb (miner_in w m (members self)) then Ok (w, false)
  else
    ms ← list_remove (miner_eq w m) (members self);
    let head :=
      if head_is w (head_miner self) m then
        match ms with
        | h :: _ => Some h
        | [] => None
        end
      else head_miner self in
    Ok (set_coalition w c (coalition_set_members self head ms), true).

(** [Coalition.aggregate_transactions]: the union of the members' held
    sets, first occurrence of each identifier kept. *)
Definition aggregate_transactions (w : World) (c : cref) : World :=
  let self := coalition_at w c in
  let '(pool, _) :=
    fold_left
      (fun (acc : list Transaction * gset Z) member =>
         fold_left
           (fun (acc : list Transaction * gset Z) tx =>
              if decide (tx_id tx ∈ snd acc) then acc
              else (fst acc ++ [tx], {[ tx_id tx ]} ∪ snd acc))
           (get_transactions w member) acc)
      (members self) ([], ∅) in
  set_coalition w c (coalition_set_pool self pool).

(** [sorted(pool, key=fee, reverse=True)]: a stable sort, so transactions of
    equal fee keep their order. *)
Fixpoint insert_by_fee (tx : Transaction) (l : list Transaction) : list Transaction :=
  match l with
  | [] => [tx]
  | y :: t => if Qlt_bool (fee tx) (fee y) then y :: insert_by_fee tx t else tx :: y :: t
  end.

Definition sorted_by_fee_desc (l : list Transaction) : list Transaction :=
  foldr insert_by_fee [] l.

(** [Coalition.select_transactions_for_block] *)
Definition select_transactions_for_block (w : World) (c : cref) (max_transactions : nat)
  : list Transaction :=
  let sorted_tx := sorted_by_fee_desc (transaction_pool (coalition_at w c)) in
  take max_transactions sorted_tx.

(** [calculate_miner_utility] of [simulation/utils.py]. *)
Definition calculate_miner_utility (w : World) (m : mref) (c : cref)
    (rewards ecp_price ecp_compute : Q) : Q :=
  let work_contributed := get_work_contribution w m c in
  let total_work := get_total_work w c in
  if Qeq_bool total_work 0 then 0
  else
    let work_share := work_contributed / total_work in
    let net_reward := rewards - ecp_price * ecp_compute in
    Qmax 0 (work_share * net_reward).

(** The net reward of [distribute_rewards]: ECP cost subtracted, then the
    trust overhead and, when the draw falls under [THEFT_PROBABILITY], the
    theft discount, both only without smart contracts. *)
Definition net_reward_of (smart_contract : bool) (draw : Q) (block_reward ecp_cost : Q) : Q :=
  let net_reward := block_reward - ecp_cost in
  if negb smart_contract then
    let net_reward := net_reward * (1 - TRUST_OVERHEAD_FACTOR) in
    if Qlt_bool draw THEFT_PROBABILITY then net_reward * (1 - THEFT_AMOUNT)
    else net_reward
  else net_reward.

(** One iteration of the distribution loop.  The state carries the store,
    [total_utility_from_this_block] and the calls made to
    [Miner.receive_reward] so far (member, amount), oldest first. *)
Definition reward_step (c : cref) (total_work net_reward ecp_price : Q)
    (st : World * Q * list (mref * Q)) (member : mref) : World * Q * list (mref * Q) :=
  let '(w, total_utility, calls) := st in
  let member_work := get_work_contribution w member c in
  let share := if Qlt_bool 0 total_work then member_work / total_work else 0 in
  let member_reward := share * net_reward in
  let w1 := receive_reward w member member_reward in
  let utility :=
    calculate_miner_utility w1 member c net_reward ecp_price
      (ecp_compute_purchased (coalition_at w1 c)) in
  let w2 := update_utility w1 member utility in
  (w2, total_utility + utility, calls ++ [(member, member_reward)]).

(** [Coalition.distribute_rewards], returning the store and the calls made
    to [Miner.receive_reward].  [smart_contract] is the configuration flag
    and [draw] the number [random.random()] returns if it is called. *)
Definition distribute_rewards_calls (smart_contract : bool) (draw : Q)
    (w : World) (c : cref) (block_reward ecp_price : Q) : World * list (mref * Q) :=
  let self := coalition_at w c in
  let total_work := get_total_work w c in
  if Qeq_bool total_work 0 then (w, [])
  else
    let ecp_cost := ecp_price * ecp_compute_purchased self in
    let net_reward := net_reward_of smart_contract draw block_reward ecp_cost in
    if Qle_bool net_reward 0 then (w, [])
    else
      let '(w1, total_utility, calls) :=
        fold_left (reward_step c total_work net_reward ecp_price) (members self) (w, 0, []) in
      (set_coalition w1 c
         (coalition_record_block (coalition_at w1 c) block_reward ecp_cost total_utility),
       calls).

Definition distribute_rewards (smart_contract : bool) (draw : Q)
    (w : World) (c : cref) (block_reward ecp_price : Q) : World :=
  fst (distribute_rewards_calls smart_contract draw w c block_reward ecp_price).

(** [Coalition.calculate_optimal_compute_demand]; [cost] is accepted and
    not used, as in the source. *)
Definition calculate_optimal_compute_demand (w : World) (c : cref) (price cost : Q) : Q :=
  let self := coalition_at w c in
  if Qlt_bool (expected_rewards self * (5 # 10)) price then 0
  else
    let member_hashrate := get_total_work w c in
    if Qeq_bool member_hashrate 0 then 0
    else
      let num_members := get_size w c in
      let demand_factor :=
        (5 # 10) / (1 + (inject_Z (Z.of_nat num_members) - 1) * (1 # 10)) in
      let optimal_compute := member_hashrate * demand_factor in
      let expected_cost := optimal_compute * price in
      let expected_benefit := expected_rewards self * (2 # 10) in
      let optimal_compute :=
        if Qlt_bool expected_benefit expected_cost then
          (if Qlt_bool 0 price then expected_benefit / price else 0)
        else optimal_compute in
      Qmax 0 optimal_compute.

(** ** The compute provider ([entities/ecp.py]) *)

Record ComputeRequest : Type := {
  req_coalition : cref;
  nonce_range : Q;
  allocated : Q
}.

Record ECP : Type := {
  total_capacity : Q;
  current_load : Q;
  price_per_hash : Q;
  operating_cost_per_hash : Q;
  total_revenue : Q;
  total_cost : Q;
  revenue_history : list Q;
  price_history : list Q;
  e_current_utility : Q;
  e_utility_history : list Q;
  compute_requests : list ComputeRequest;
  total_demand : Q;
  current_demand : Q;
  demand_history : list Q;
  membership_graph : gmap Z (gset Z);
  overlap_savings : Q;
  optimization_count : Z
}.

(** [ECP.__init__] *)
Definition new_ECP : ECP :=
  {| total_capacity := ECP_MAX_CAPACITY_L;
     current_load := 0;
     price_per_hash := ECP_INITIAL_PRICE;
     operating_cost_per_hash := ECP_OPERATING_COST_C;
     total_revenue := 0;
     total_cost := 0;
     revenue_history := [];
     price_history := [];
     e_current_utility := 0;
     e_utility_history := [];
     compute_requests := [];
     total_demand := 0;
     current_demand := 0;
     demand_history := [];
     membership_graph := ∅;
     overlap_savings := 0;
     optimization_count := 0 |}.

(** [ECP._calculate_utility_at_price] *)
Definition calculate_utility_at_price (e : ECP) (w : World) (cs : list cref) (price : Q) : Q :=
  let total_demand :=
    fold_left
      (fun total_demand coalition =>
         total_demand
         + calculate_optimal_compute_demand w coalition price (operating_cost_per_hash e))
      cs 0 in
  let total_demand := Qmin total_demand (total_capacity e) in
  let utility := (price - operating_cost_per_hash e) * total_demand in
  Qmax 0 utility.

(** The gradient-ascent loop of [ECP.set_optimal_price]; [iterations] is
    what is left of [range(STACKELBERG_MAX_ITERATIONS)]. *)
Fixpoint price_ascent (iterations : nat) (e : ECP) (w : World) (cs : list cref)
    (current_price learning_rate : Q) : Q :=
  match iterations with
  | O => current_price
  | S rest =>
      let epsilon := 1 # 100 in
      let current_utility := calculate_utility_at_price e w cs current_price in
      let utility_plus := calculate_utility_at_price e w cs (current_price + epsilon) in
      let gradient := (utility_plus - current_utility) / epsilon in
      if Qlt_bool (Qabs gradient) STACKELBERG_CONVERGENCE_THRESHOLD then current_price
      else
        let current_price := current_price + learning_rate * gradient in
        let current_price := Qmax ECP_PRICE_MIN (Qmin ECP_PRICE_MAX current_price) in
        price_ascent rest e w cs current_price (learning_rate * STACKELBERG_STEP_DECAY)
  end.

(** [ECP.set_optimal_price] *)
Definition set_optimal_price (e : ECP) (w : World) (cs : list cref) : ECP :=
  if (length cs =? 0)%nat then e
  else
    let current_price :=
      price_ascent STACKELBERG_MAX_ITERATIONS e w cs (price_per_hash e)
        STACKELBERG_LEARNING_RATE in
    {| total_capacity := total_capacity e;
       current_load := current_load e;
       price_per_hash := current_price;
       operating_cost_per_hash := operating_cost_per_hash e;
       total_revenue := total_revenue e;
       total_cost := total_cost e;
       revenue_history := revenue_history e;
       price_history := price_history e ++ [current_price];
       e_current_utility := e_current_utility e;
       e_utility_history := e_utility_history e;
       compute_requests := compute_requests e;
       total_demand := total_demand e;
       current_demand := current_demand e;
       demand_history := demand_history e;
       membership_graph := membership_graph e;
       overlap_savings := overlap_savings e;
       optimization_count := optimization_count e |}.

(** The request list after [self.compute_requests.append(request)]; the
    appended request is the object whose [allocated] field is set later. *)
Definition ecp_append_request (e : ECP) (r : ComputeRequest) : ECP :=
  {| total_capacity := total_capacity e;
     current_load := current_load e;
     price_per_hash := price_per_hash e;
     operating_cost_per_hash := operating_cost_per_hash e;
     total_revenue := total_revenue e;
     total_cost := total_cost e;
     revenue_history := revenue_history e;
     price_history := price_history e;
     e_current_utility := e_current_utility e;
     e_utility_history := e_utility_history e;
     compute_requests := compute_requests e ++ [r];
     total_demand := total_demand e;
     current_demand := current_demand e;
     demand_history := demand_history e;
     membership_graph := membership_graph e;
     overlap_savings := overlap_savings e;
     optimization_count := optimization_count e |}.

(** [ECP.allocate_compute]: the new provider state and the amount returned. *)
Definition allocate_compute (e : ECP) (coalition : cref) (nonce : Q) : ECP * Q :=
  let available_capacity := total_capacity e - current_load e in
  if Qle_bool available_capacity 0 then
    (ecp_append_request e
       {| req_coalition := coalition; nonce_range := nonce; allocated := 0 |}, 0)
  else
    let granted := Qmin nonce available_capacity in
    let revenue := granted * price_per_hash e in
    let cost := granted * operating_cost_per_hash e in
    ({| total_capacity := total_capacity e;
        current_load := current_load e + granted;
        price_per_hash := price_per_hash e;
        operating_cost_per_hash := operating_cost_per_hash e;
        total_revenue := total_revenue e + revenue;
        total_cost := total_cost e + cost;
        revenue_history := revenue_history e ++ [revenue];
        price_history := price_history e;
        e_current_utility := e_current_utility e;
        e_utility_history := e_utility_history e;
        compute_requests :=
          compute_requests e
          ++ [{| req_coalition := coalition; nonce_range := nonce; allocated := granted |}];
        total_demand := total_demand e + granted;
        current_demand := current_demand e + granted;
        demand_history := demand_history e ++ [granted];
        membership_graph := membership_graph e;
        overlap_savings := overlap_savings e;
        optimization_count := optimization_count e |}, granted).

(** [ECP.reset_load] *)
Definition reset_load (e : ECP) : ECP :=
  {| total_capacity := total_capacity e;
     current_load := 0;
     price_per_hash := price_per_hash e;
     operating_cost_per_hash := operating_cost_per_hash e;
     total_revenue := total_revenue e;
     total_cost := total_cost e;
     revenue_history := revenue_history e;
     price_history := price_history e;
     e_current_utility := e_current_utility e;
     e_utility_history := e_utility_history e;
     compute_requests := [];
     total_demand := total_demand e;
     current_demand := 0;
     demand_history := demand_history e;
     membership_graph := membership_graph e;
     overlap_savings := overlap_savings e;
     optimization_count := optimization_count e |}.

(** A sequence of [allocate_compute] calls, in submission order, with the
    amounts they return. *)
Fixpoint allocate_all (e : ECP) (reqs : list (cref * Q)) : ECP * list Q :=
  match reqs with
  | [] => (e, [])
  | (c, n) :: rest =>
      let '(e1, granted) := allocate_compute e c n in
      let '(e2, others) := allocate_all e1 rest in
      (e2, granted :: others)
  end.

(** ** Block discovery ([simulation/utils.py]) *)

(** [itertools.accumulate]: running sums, the first being the first weight. *)
Fixpoint accumulate_from (acc : Q) (ws : list Q) : list Q :=
  match ws with
  | [] => []
  | x :: t => (acc + x) :: accumulate_from (acc + x) t
  end.

Definition accumulate (ws : list Q) : list Q :=
  match ws with
  | [] => []
  | x :: t => x :: accumulate_from x t
  end.

(** [bisect.bisect_right(a, x, lo, hi)]; [fuel] bounds the iterations of
    its [while lo < hi] loop.  The loop reads [a[mid]] with [mid < hi] only,
    within the list whenever [hi] is. *)
Fixpoint bisect_right_loop (fuel : nat) (a : list Q) (x : Q) (lo hi : nat) : nat :=
  match fuel with
  | O => lo
  | S rest =>
      if (lo <? hi)%nat then
        let mid := ((lo + hi) / 2)%nat in
        if Qlt_bool x (nth mid a 0) then bisect_right_loop rest a x lo mid
        else bisect_right_loop rest a x (mid + 1) hi
      else lo
  end.

Definition bisect_right (a : list Q) (x : Q) (lo hi : nat) : nat :=
  bisect_right_loop (hi - lo) a x lo hi.

(** [random.choices(population, weights=weights, k=1)[0]] of the Python
    standard library, with [draw] the number its call to [random()]
    returns: cumulative weights, a total that must be positive (and
    finite, which every rational is), and a bisection of [draw * total]
    among the cumulative weights. *)
Definition random_choices {A : Type} (population : list A) (weights : list Q) (draw : Q)
  : result A :=
  let n := length population in
  let cum_weights := accumulate weights in
  if negb (length cum_weights =? n)%nat then Raise ValueError
  else
    match last cum_weights with
    | None => Raise IndexError
    | Some total =>
        if Qle_bool total 0 then Raise ValueError
        else
          let hi := (n - 1)%nat in
          match population !! bisect_right cum_weights (draw * total) 0 hi with
          | Some x => Ok x
          | None => Raise IndexError
          end
    end.

Section BlockDiscovery.

(** [math.exp] *)
Variable exp : Q -> Q.

(** [get_block_finder]; [draw_block] and [draw_winner] are the numbers the
    two uses of the random source return. *)
Definition get_block_finder (w : World) (cs : list cref)
    (total_network_hashrate time_delta : Q) (difficulty : Z)
    (draw_block draw_winner : Q) : result (option cref) :=
  if Qle_bool total_network_hashrate 0 || (difficulty <=? 0)%Z then Ok None
  else
    let lambda_rate := total_network_hashrate / inject_Z difficulty in
    let base_prob := 1 - exp (- lambda_rate * time_delta) in
    if Qle_bool base_prob draw_block then Ok None
    else
      let coalition_list := cs in
      let hashrate_weights := map (get_effective_hashrate w) cs in
      if (length coalition_list =? 0)%nat || Qeq_bool (Qsum hashrate_weights) 0
      then Ok None
      else
        match random_choices coalition_list hashrate_weights draw_winner with
        | Ok winner => Ok (Some winner)
        | Raise IndexError => Ok None
        | Raise e => Raise e
        end.

End BlockDiscovery.

(** ** The admission formula of [simulation/utils.py] *)

(** [coalition.get_total_hashrate()]: class [Coalition] defines no such
    method, so the call raises. *)
Definition get_total_hashrate (w : World) (c : cref) : result Q := Raise AttributeError.

(** [check_definition_4] of [simulation/utils.py]; the engine does not call
    it.  The dictionary of current utilities it builds first is never read
    and is left out. *)
Definition utils_check_definition_4 (w : World) (c : cref) (new_miner : mref) : result bool :=
  let projected_total_work :=
    get_total_work w c + get_potential_work_contribution w new_miner c in
  (fix loop (ms : list mref) : result bool :=
     match ms with
     | [] => Ok true
     | member :: rest =>
         let member_work := get_work_contribution w member c in
         let projected_share :=
           if Qlt_bool 0 projected_total_work then member_work / projected_total_work else 0 in
         let current_work := get_total_work w c in
         let current_share :=
           if Qlt_bool 0 current_work then member_work / current_work else 0 in
         let current_expected_rewards :=
           if Qlt_bool 0 (expected_rewards (coalition_at w c))
           then expected_rewards (coalition_at w c) else 1000 in
         current_hashrate ← get_total_hashrate w c;
         let projected_hashrate := current_hashrate + total_hashrate (miner_at w new_miner) in
         let hashrate_increase_factor :=
           if Qlt_bool 0 current_hashrate then projected_hashrate / current_hashrate else 2 in
         let projected_expected_rewards := current_expected_rewards * hashrate_increase_factor in
         let projected_utility := projected_share * projected_expected_rewards in
         let current_utility_value := current_share * current_expected_rewards in
         let tolerance := 95 # 100 in
         if Qlt_bool projected_utility (current_utility_value * tolerance - (1 # 1000000))
         then Ok false
         else loop rest
     end) (members (coalition_at w c)).

(** The admission rule as the specification words it, for comparison with
    [check_definition_4]: every member's projected work share times the
    expected-reward baseline, scaled by the relative increase of the
    coalition's total hashrate, must reach 95% of its current share-based
    utility, up to 1e-6; an empty coalition admits.  The total hashrate of a
    coalition is its effective hashrate and the newcomer adds its raw
    hashrate. *)
Definition spec_admission_check (w : World) (c : cref) (new_miner : mref) : bool :=
  let self := coalition_at w c in
  let current_work := get_total_work w c in
  let projected_total_work := current_work + get_potential_work_contribution w new_miner c in
  let current_hashrate := get_effective_hashrate w c in
  let projected_hashrate := current_hashrate + total_hashrate (miner_at w new_miner) in
  forallb
    (fun member =>
       let member_work := get_work_contribution w member c in
       let projected_utility :=
         member_work / projected_total_work
         * (expected_rewards self * (projected_hashrate / current_hashrate)) in
       let current_utility := member_work / current_work * expected_rewards self in
       negb (Qlt_bool projected_utility (current_utility * (95 # 100) - (1 # 1000000))))
    (members self).

(** ** Block handling ([simulation/engine.py]) *)

Record Engine : Type := {
  eng_miners : list mref;
  eng_coalitions : list cref;
  eng_ecp : option ECP;
  global_transaction_pool : gmap Z Q;
  eng_blocks_found : Z;
  total_rewards_distributed : Q;
  world : World
}.

(** [SimulationEngine.handle_block_found]; [draw] is handed to
    [distribute_rewards]. *)
Definition handle_block_found (draw : Q) (eng : Engine) (coalition : cref) : Engine :=
  let w := world eng in
  let selected_transactions :=
    select_transactions_for_block w coalition TRANSACTIONS_PER_BLOCK_I in
  let block_reward := BLOCK_REWARD_B in
  let transaction_fees := Qsum (map fee selected_transactions) in
  let total_reward := block_reward + transaction_fees in
  let ecp_price :=
    match eng_ecp eng with
    | Some e => price_per_hash e
    | None => 0
    end in
  let w1 := distribute_rewards SMART_CONTRACT_ENABLED draw w coalition total_reward ecp_price in
  let w2 :=
    set_coalition w1 coalition
      (coalition_set_blocks_found (coalition_at w1 coalition)
         (blocks_found (coalition_at w1 coalition) + 1)%Z) in
  let w3 :=
    fold_left (fun w' miner => clear_transactions w' miner selected_transactions)
      (eng_miners eng) w2 in
  {| eng_miners := eng_miners eng;
     eng_coalitions := eng_coalitions eng;
     eng_ecp := eng_ecp eng;
     global_transaction_pool :=
       difference_update (global_transaction_pool eng) selected_transactions;
     eng_blocks_found := (eng_blocks_found eng + 1)%Z;
     total_rewards_distributed := total_rewards_distributed eng + total_reward;
     world := w3 |}.

(** ** Sequences of membership operations *)

(** The calls that change memberships and allocations, on any miner and any
    coalition of the store. *)
Inductive membership_op : Type :=
| JoinCoalition (m : mref) (c : cref)
| LeaveCoalition (m : mref) (c : cref)
| AllocateWorkTime (m : mref)
| AddMember (c : cref) (m : mref)
| RemoveMember (c : cref) (m : mref).

Definition apply_op (w : World) (op : membership_op) : result World :=
  match op with
  | JoinCoalition m c => Ok (fst (join_coalition w m c))
  | LeaveCoalition m c => r ← leave_coalition w m c; Ok (fst r)
  | AllocateWorkTime m => Ok (allocate_work_time w m)
  | AddMember c m => Ok (fst (add_member w c m))
  | RemoveMember c m => r ← remove_member w c m; Ok (fst r)
  end.

Fixpoint run_ops (w : World) (ops : list membership_op) : result World :=
  match ops with
  | [] => Ok w
  | op :: rest => w' ← apply_op w op; run_ops w' rest
  end.

(** A store of freshly constructed miners ([Miner.__init__]) next to
    arbitrary coalitions. *)
Definition fresh_world (ids : mref -> Z) (hashrates : mref -> Q) (cs : cref -> Coalition)
  : World :=
  {| miner_at := fun r => new_Miner (ids r) (hashrates r);
     coalition_at := cs |}.

(** ** Invariants and derived quantities *)

(** The sum of the fractions of an allocation mapping. *)
Definition allocation_total (a : gmap Z Q) : Q :=
  Qsum (map snd (map_to_list a)).

(** A dictionary filled by [d[key x] = value x] for [x] in a list, in
    order. *)
Definition fill {A : Type} (key : A -> Z) (value : A -> Q) (xs : list A) (d : gmap Z Q)
  : gmap Z Q :=
  fold_left (fun a x => <[ key x := value x ]> a) xs d.

(** An allocation mapping fits a membership list when it is empty for no
    membership and otherwise has fractions that are not negative and add up
    to 1. *)
Definition allocation_fits (cs : list cref) (a : gmap Z Q) : Prop :=
  match cs with
  | [] => a = ∅
  | _ :: _ => (forall k v, a !! k = Some v -> 0 <= v) /\ allocation_total a == 1
  end.

(** The allocation invariant of a miner. *)
Definition allocation_ok (mi : Miner) : Prop :=
  allocation_fits (coalitions mi) (allocation mi).

(** The membership lists of a miner are kept in step and name each
    coalition identifier once. *)
Definition membership_ok (w : World) (mi : Miner) : Prop :=
  coalition_ids mi = map (fun c => coalition_id (coalition_at w c)) (coalitions mi)
  /\ NoDup (map (fun c => coalition_id (coalition_at w c)) (coalitions mi)).

(** The invariant of the store kept by the membership operations. *)
Definition world_ok (w : World) : Prop :=
  forall m, membership_ok w (miner_at w m) /\ allocation_ok (miner_at w m).

(** The part of the data model the work formula relies on: a miner's raw
    hashrate and the fractions of its allocation mapping are not negative. *)
Definition miner_wf (mi : Miner) : Prop :=
  0 <= total_hashrate mi
  /\ forall k v, allocation mi !! k = Some v -> 0 <= v.

(** Two stores that agree on everything the work formulas read. *)
Definition same_work (w w' : World) : Prop :=
  (forall m,
      total_hashrate (miner_at w' m) = total_hashrate (miner_at w m)
      /\ coalitions (miner_at w' m) = coalitions (miner_at w m)
      /\ allocation (miner_at w' m) = allocation (miner_at w m))
  /\ (forall c, coalition_at w' c = coalition_at w c).

(** The amount [distribute_rewards] pays a member. *)
Definition member_reward_of (w : World) (c : cref) (net_reward : Q) (member : mref) : Q :=
  get_work_contribution w member c / get_total_work w c * net_reward.

(** The amounts of a list of [receive_reward] calls that went to miner
    object [r]. *)
Definition paid_to (r : mref) (calls : list (mref * Q)) : list Q :=
  map snd (List.filter (fun call => Nat.eqb (fst call) r) calls).

(** The price band of the provider. *)
Definition in_price_band (p : Q) : Prop :=
  ECP_PRICE_MIN <= p /\ p <= ECP_PRICE_MAX.

(** ** Concrete stores used in the examples *)

Definition demo_coalition : Coalition := new_Coalition 7 (Some 0%nat).

Definition demo_member : Miner :=
  miner_set_allocation
    (miner_set_membership (new_Miner 0 300000000) [0%nat] [7%Z])
    {[ 7%Z := 1 ]}.

(** Miner object 0 is the head and only member of coalition object 0; every
    other miner object is fresh, with identifier 1. *)
Definition demo_world : World :=
  {| miner_at := fun r => if Nat.eqb r 0 then demo_member else new_Miner 1 200000000;
     coalition_at := fun _ => demo_coalition |}.

(** A store in which nobody has joined anything: coalition 0 has a head but
    the head allocates no time to it. *)
Definition idle_world : World :=
  {| miner_at := fun _ => new_Miner 0 300000000;
     coalition_at := fun _ => demo_coalition |}.

(** A provider priced above the band, as an object whose price was set
    from outside [set_optimal_price]. *)
Definition overpriced_ECP : ECP :=
  {| total_capacity := ECP_MAX_CAPACITY_L;
     current_load := 0;
     price_per_hash := 600;
     operating_cost_per_hash := ECP_OPERATING_COST_C;
     total_revenue := 0;
     total_cost := 0;
     revenue_history := [];
     price_history := [];
     e_current_utility := 0;
     e_utility_history := [];
     compute_requests := [];
     total_demand := 0;
     current_demand := 0;
     demand_history := [];
     membership_graph := ∅;
     overlap_savings := 0;
     optimization_count := 0 |}.

(** Two miners pooled in coalition object 0: miner 0 (300 MH/s) is the
    head, miner 1 (100 MH/s) the second member; both give it all their
    time. *)
Definition pool_miner (id : Z) (hashrate : Q) : Miner :=
  miner_set_allocation
    (miner_set_membership (new_Miner id hashrate) [0%nat] [7%Z])
    {[ 7%Z := 1 ]}.

Definition pool_world : World :=
  {| miner_at := fun r => if Nat.eqb r 0 then pool_miner 0 300000000
                          else pool_miner 1 100000000;
     coalition_at := fun _ =>
       coalition_set_members (new_Coalition 7 (Some 0%nat)) (Some 0%nat) [0%nat; 1%nat] |}.

(** A rational stand-in for [math.exp] on the non-positive arguments
    [get_block_finder] passes to it. *)
Definition exp_approx (x : Q) : Q := 1 / (1 - x).

(** An engine at the moment a block is found: the two pooled miners hold
    transactions 5, 6 and 6, 8; the coalition's pool was aggregated from
    them in this timestep. *)
Definition mining_world : World :=
  aggregate_transactions
    {| miner_at := fun r =>
         if Nat.eqb r 0
         then miner_set_transactions (pool_miner 0 300000000) (<[5%Z := 40]> (<[6%Z := 10]> ∅))
         else miner_set_transactions (pool_miner 1 100000000) (<[6%Z := 10]> (<[8%Z := 25]> ∅));
       coalition_at := coalition_at pool_world |}
    0%nat.

Definition mining_engine : Engine :=
  {| eng_miners := [0%nat; 1%nat];
     eng_coalitions := [0%nat];
     eng_ecp := Some new_ECP;
     global_transaction_pool :=
       <[5%Z := 40]> (<[6%Z := 10]> (<[8%Z := 25]> (<[9%Z := 70]> ∅)));
     eng_blocks_found := 0;
     total_rewards_distributed := 0;
     world := mining_world |}.

(** Fresh miners next to coalitions 7, 8, ... whose heads are the miners of
    the same index, and a short history of miner 0: it joins coalitions 0
    and 1, is added to coalition 1, and leaves coalition 0. *)
Definition start_world : World :=
  fresh_world (fun r => Z.of_nat r) (fun _ => 300000000)
    (fun r => new_Coalition (7 + Z.of_nat r) (Some r)).

Definition miner0_history : list membership_op :=
  [ JoinCoalition 0 0; AddMember 1 0; JoinCoalition 0 1; LeaveCoalition 0 0 ]%nat.

(** ** Further notions used by the properties of the remaining code *)

(** [pool.append(tx)] unless the identifier was seen: the body of the inner
    loop of [aggregate_transactions]. *)
Definition pool_add (acc : list Transaction * gset Z) (tx : Transaction)
  : list Transaction * gset Z :=
  if decide (tx_id tx ∈ snd acc) then acc
  else (fst acc ++ [tx], {[ tx_id tx ]} ∪ snd acc).

(** A list of transactions in non-increasing order of fee. *)
Definition fee_descending (l : list Transaction) : Prop :=
  StronglySorted (fun a b => fee b <= fee a) l.


(** The accumulator of the aggregation loop is coherent when [seen] is the
    set of the identifiers in the pool and each occurs once. *)
Definition pool_acc_ok (acc : list Transaction * gset Z) : Prop :=
  NoDup (map tx_id (fst acc)) /\ forall k, k ∈ snd acc <-> In k (map tx_id (fst acc)).

(** ** Overlap optimisation and utility of the provider ([entities/ecp.py]) *)

Definition OVERLAP_THRESHOLD : Q := 3 # 10.
Definition OVERLAP_SAVINGS_FACTOR : Q := 25 # 100.
Definition ECP_OPTIMIZATION_ENABLED : bool := true.

(** The provider with a new membership graph. *)
Definition ecp_set_graph (e : ECP) (g : gmap Z (gset Z)) : ECP :=
  {| total_capacity := total_capacity e;
     current_load := current_load e;
     price_per_hash := price_per_hash e;
     operating_cost_per_hash := operating_cost_per_hash e;
     total_revenue := total_revenue e;
     total_cost := total_cost e;
     revenue_history := revenue_history e;
     price_history := price_history e;
     e_current_utility := e_current_utility e;
     e_utility_history := e_utility_history e;
     compute_requests := compute_requests e;
     total_demand := total_demand e;
     current_demand := current_demand e;
     demand_history := demand_history e;
     membership_graph := g;
     overlap_savings := overlap_savings e;
     optimization_count := optimization_count e |}.

(** [set(m.miner_id for m in coalition.members)] *)
Definition member_ids (w : World) (c : cref) : gset Z :=
  list_to_set (map (fun m => miner_id (miner_at w m)) (members (coalition_at w c))).

(** [ECP.update_membership_graph] *)
Definition update_membership_graph (e : ECP) (w : World) (cs : list cref) : ECP :=
  ecp_set_graph e
    (fold_left
       (fun g coalition => <[ coalition_id (coalition_at w coalition) := member_ids w coalition ]> g)
       cs ∅).

(** [ECP.calculate_overlap_ratio]; the division is guarded by the test on
    the two sizes. *)
Definition calculate_overlap_ratio (e : ECP) (w : World) (coalition1 coalition2 : cref) : Q :=
  let members1 : gset Z :=
    default ∅ (membership_graph e !! coalition_id (coalition_at w coalition1)) in
  let members2 : gset Z :=
    default ∅ (membership_graph e !! coalition_id (coalition_at w coalition2)) in
  if (size members1 =? 0)%nat || (size members2 =? 0)%nat then 0
  else
    let shared_members := members1 ∩ members2 in
    let total_members := Nat.max (size members1) (size members2) in
    inject_Z (Z.of_nat (size shared_members)) / inject_Z (Z.of_nat total_members).

(** [ECP.calculate_overlap_savings] *)
Definition calculate_overlap_savings (e : ECP) (req1 req2 : ComputeRequest)
    (overlap_ratio : Q) : Q :=
  let duplicate_work := Qmin (nonce_range req1) (nonce_range req2) * overlap_ratio in
  duplicate_work * operating_cost_per_hash e * OVERLAP_SAVINGS_FACTOR.

(** [itertools.combinations(l, 2)] *)
Fixpoint combinations2 {A : Type} (l : list A) : list (A * A) :=
  match l with
  | [] => []
  | x :: t => map (pair x) t ++ combinations2 t
  end.

(** The loop of [optimize_overlapping_work] over the pairs of requests. *)
Definition overlap_total (e : ECP) (w : World) (requests : list ComputeRequest) : Q :=
  fold_left
    (fun total_savings (p : ComputeRequest * ComputeRequest) =>
       let overlap_ratio :=
         calculate_overlap_ratio e w (req_coalition (fst p)) (req_coalition (snd p)) in
       if Qle_bool OVERLAP_THRESHOLD overlap_ratio
       then total_savings + calculate_overlap_savings e (fst p) (snd p) overlap_ratio
       else total_savings)
    (combinations2 requests) 0.

(** [ECP.optimize_overlapping_work]: the new provider state and the savings
    returned. *)
Definition optimize_overlapping_work (e : ECP) (w : World) (requests : list ComputeRequest)
  : ECP * Q :=
  if negb ECP_OPTIMIZATION_ENABLED then (e, 0)
  else if (length requests <? 2)%nat then (e, 0)
  else
    let total_savings := overlap_total e w requests in
    ({| total_capacity := total_capacity e;
        current_load := current_load e;
        price_per_hash := price_per_hash e;
        operating_cost_per_hash := operating_cost_per_hash e;
        total_revenue := total_revenue e;
        total_cost := total_cost e;
        revenue_history := revenue_history e;
        price_history := price_history e;
        e_current_utility := e_current_utility e;
        e_utility_history := e_utility_history e;
        compute_requests := compute_requests e;
        total_demand := total_demand e;
        current_demand := current_demand e;
        demand_history := demand_history e;
        membership_graph := membership_graph e;
        overlap_savings := overlap_savings e + total_savings;
        optimization_count := (optimization_count e + 1)%Z |}, total_savings).

(** The utility value of [ECP.calculate_utility]; the division is guarded
    by the test on [total_demand]. *)
Definition ecp_utility_value (e : ECP) : Q :=
  let adjusted_cost :=
    if ECP_OPTIMIZATION_ENABLED && Qlt_bool 0 (overlap_savings e) then
      let cost_reduction :=
        if Qlt_bool 0 (total_demand e) then overlap_savings e / total_demand e else 0 in
      Qmax 0 (operating_cost_per_hash e - cost_reduction)
    else operating_cost_per_hash e in
  let adjusted_profit_per_unit := price_per_hash e - adjusted_cost in
  let utility := adjusted_profit_per_unit * total_demand e in
  Qmax 0 utility.

(** [ECP.calculate_utility]: records the utility and returns it. *)
Definition calculate_utility (e : ECP) : ECP * Q :=
  let u := ecp_utility_value e in
  ({| total_capacity := total_capacity e;
      current_load := current_load e;
      price_per_hash := price_per_hash e;
      operating_cost_per_hash := operating_cost_per_hash e;
      total_revenue := total_revenue e;
      total_cost := total_cost e;
      revenue_history := revenue_history e;
      price_history := price_history e;
      e_current_utility := u;
      e_utility_history := e_utility_history e ++ [u];
      compute_requests := compute_requests e;
      total_demand := total_demand e;
      current_demand := current_demand e;
      demand_history := demand_history e;
      membership_graph := membership_graph e;
      overlap_savings := overlap_savings e;
      optimization_count := optimization_count e |}, u).

(** [calculate_ecp_utility] of [simulation/utils.py]. *)
Definition calculate_ecp_utility (e : ECP) : Q :=
  let total_demand := total_demand e in
  let profit_per_unit := price_per_hash e - operating_cost_per_hash e in
  let utility := profit_per_unit * total_demand in
  Qmax 0 utility.

(** The calls a provider receives, each with the store and arguments it is
    made with. *)
Inductive ecp_op : Type :=
| SetOptimalPrice (w : World) (cs : list cref)
| AllocateCompute (c : cref) (nonce : Q)
| ResetLoad
| UpdateMembershipGraph (w : World) (cs : list cref)
| OptimizeOverlappingWork (w : World) (requests : list ComputeRequest)
| CalculateUtility.

Definition apply_ecp_op (e : ECP) (op : ecp_op) : ECP :=
  match op with
  | SetOptimalPrice w cs => set_optimal_price e w cs
  | AllocateCompute c nonce => fst (allocate_compute e c nonce)
  | ResetLoad => reset_load e
  | UpdateMembershipGraph w cs => update_membership_graph e w cs
  | OptimizeOverlappingWork w requests => fst (optimize_overlapping_work e w requests)
  | CalculateUtility => fst (calculate_utility e)
  end.

Definition run_ecp_ops (e : ECP) (ops : list ecp_op) : ECP :=
  fold_left apply_ecp_op ops e.

(** A provider whose graph lists the pooled coalition, and two requests of
    that coalition. *)
Definition graph_ECP : ECP := update_membership_graph new_ECP pool_world [0%nat].

Definition demo_requests : list ComputeRequest :=
  [ {| req_coalition := 0%nat; nonce_range := 100; allocated := 100 |};
    {| req_coalition := 0%nat; nonce_range := 60; allocated := 60 |} ].

(** ** Utility formulas ([simulation/utils.py], [entities/coalition.py]) *)

(** [calculate_coalition_utility] of [simulation/utils.py]. *)
Definition calculate_coalition_utility (rewards ecp_price ecp_compute : Q) : Q :=
  let utility := rewards - ecp_price * ecp_compute in
  Qmax 0 utility.

(** [Coalition.calculate_member_utility]; the division is guarded by the
    test on [total_work]. *)
Definition calculate_member_utility (w : World) (c : cref) (m : mref)
    (rewards ecp_price : Q) : Q :=
  let total_work := get_total_work w c in
  if Qeq_bool total_work 0 then 0
  else
    let member_work := get_work_contribution w m c in
    let share := member_work / total_work in
    let net_reward := rewards - ecp_price * ecp_compute_purchased (coalition_at w c) in
    let utility := share * net_reward in
    Qmax 0 utility.

(** [Miner.get_total_utility] *)
Definition get_total_utility (w : World) (m : mref) : Q :=
  m_current_utility (miner_at w m).

(** [calculate_system_utility] of [simulation/utils.py]; [sum] starts from
    the integer 0. *)
Definition calculate_system_utility (w : World) (miners : list mref) (ecp : option ECP) : Q :=
  let ecp_utility :=
    match ecp with
    | Some e => calculate_ecp_utility e
    | None => 0
    end in
  let miner_utilities :=
    match ecp with
    | Some _ => Qsum (map (get_total_utility w) miners)
    | None => Qsum (map (fun m => total_earnings (miner_at w m)) miners)
    end in
  ecp_utility + miner_utilities.

(** The pooled coalition after it purchased 2 units of compute. *)
Definition paying_world : World :=
  {| miner_at := miner_at pool_world;
     coalition_at := fun r => coalition_set_compute (coalition_at pool_world r) 2 |}.

(** ** Strategies of the formation game ([entities/miner.py], [simulation/engine.py]) *)

Definition OCF_CONVERGENCE_EPSILON : Q := 1 # 100.

(** [Miner.get_utility_in_coalition] *)
Definition get_utility_in_coalition (w : World) (m : mref) (c : cref) : Q :=
  get_expected_member_utility w c m.

(** [Coalition.get_expected_rewards] *)
Definition get_expected_rewards (w : World) (c : cref) : Q :=
  expected_rewards (coalition_at w c).

(** [Miner.evaluate_coalition_utility].  The division is guarded by the
    test on [coalition_total_work]; the estimate for a coalition without
    expected rewards starts with a call of [get_total_hashrate]. *)
Definition evaluate_coalition_utility (w : World) (m : mref) (c : cref) : result Q :=
  let self := miner_at w m in
  let potential_contribution := get_potential_work_contribution w m c in
  let coalition_total_work := get_total_work w c + potential_contribution in
  if Qeq_bool coalition_total_work 0 then Ok 0
  else
    let share := potential_contribution / coalition_total_work in
    let expected_rewards := get_expected_rewards w c in
    if Qeq_bool expected_rewards 0 then
      total_hashrate_of_coalition ← get_total_hashrate w c;
      let coalition_hashrate := total_hashrate_of_coalition + total_hashrate self in
      let network_hashrate := 4000000000 in
      let hashrate_share :=
        if Qlt_bool 0 network_hashrate then coalition_hashrate / network_hashrate
        else 1 # 100 in
      let blocks_per_epoch := 12 in
      let reward_per_block := 2000 in
      let expected_rewards := hashrate_share * blocks_per_epoch * reward_per_block in
      let num_coalitions := length (coalitions self) in
      let expected_rewards :=
        if (0 <? num_coalitions)%nat then
          expected_rewards * (1 + inject_Z (Z.of_nat num_coalitions) * (10 # 100))
        else expected_rewards in
      Ok (share * expected_rewards)
    else Ok (share * expected_rewards).

(** [Miner.evaluate_strategy_split] *)
Definition evaluate_strategy_split (w : World) (m : mref) : Q :=
  let self := miner_at w m in
  if (3 <=? length (coalitions self))%nat then 0
  else
    let current_utility := get_total_utility w m in
    if (length (coalitions self) =? 0)%nat then - (1000)
    else current_utility * (1 # 10).

(** [Miner.evaluate_strategy_leave] *)
Definition evaluate_strategy_leave (w : World) (m : mref) (c : cref) : Q :=
  let self := miner_at w m in
  if negb (coalition_in w c (coalitions self)) then get_total_utility w m
  else
    let remaining_coalitions := (Z.of_nat (length (coalitions self)) - 1)%Z in
    if (remaining_coalitions =? 0)%Z then 0
    else
      let total_utility := get_total_utility w m in
      let coalition_utility := get_utility_in_coalition w m c in
      total_utility - coalition_utility.

(** The first component of [best_strategy] in [run_coalition_formation];
    the target is [None] for STAY and SPLIT. *)
Inductive strategy : Type :=
| STAY
| MERGE (target : cref)
| SPLIT
| LEAVE (target : cref).

(** The MERGE loop over the coalitions of the engine. *)
Fixpoint evaluate_merges (w : World) (m : mref) (cs : list cref) (best : strategy * Q)
  : result (strategy * Q) :=
  match cs with
  | [] => Ok best
  | coalition :: rest =>
      if negb (coalition_in w coalition (coalitions (miner_at w m)))
         && check_definition_4 w coalition m
      then
        projected_utility ← evaluate_coalition_utility w m coalition;
        evaluate_merges w m rest
          (if Qlt_bool (snd best + OCF_CONVERGENCE_EPSILON) projected_utility
           then (MERGE coalition, projected_utility) else best)
      else evaluate_merges w m rest best
  end.

(** The evaluation of the four strategies for one miner in
    [run_coalition_formation], up to the choice of [best_strategy]:
    [cs] are the coalitions of the engine. *)
Definition best_response (w : World) (cs : list cref) (max_coalitions : Z) (m : mref)
  : result (strategy * Q) :=
  let self := miner_at w m in
  let current_utility := get_total_utility w m in
  let best_strategy := (STAY, current_utility) in
  best_strategy ←
    (if (Z.of_nat (length (coalitions self)) <? max_coalitions)%Z
     then evaluate_merges w m cs best_strategy
     else Ok best_strategy);
  let best_strategy :=
    if (Z.of_nat (length (coalitions self)) <? max_coalitions)%Z then
      let solo_utility := evaluate_strategy_split w m in
      if Qlt_bool (snd best_strategy + OCF_CONVERGENCE_EPSILON) solo_utility
      then (SPLIT, solo_utility) else best_strategy
    else best_strategy in
  Ok (fold_left
        (fun (best_strategy : strategy * Q) coalition =>
           let leave_utility := evaluate_strategy_leave w m coalition in
           if Qlt_bool (snd best_strategy + OCF_CONVERGENCE_EPSILON) leave_utility
           then (LEAVE coalition, leave_utility) else best_strategy)
        (coalitions self) best_strategy).

(** [Miner.get_average_earnings]; the division is guarded by the test on
    the length. *)
Definition get_average_earnings (mi : Miner) : Q :=
  if (length (earnings_history mi) =? 0)%nat then 0
  else Qsum (earnings_history mi) / inject_Z (Z.of_nat (length (earnings_history mi))).

(** The accounts of a miner are in order when its total earnings are the
    sum of its earnings history and its utility is not negative. *)
Definition accounts_ok (mi : Miner) : Prop :=
  total_earnings mi == Qsum (earnings_history mi) /\ 0 <= m_current_utility mi.

(** The books of a coalition are in order when its total rewards are the
    sum of its rewards history and it recorded one utility per reward. *)
Definition coalition_accounts_ok (co : Coalition) : Prop :=
  total_rewards co == Qsum (rewards_history co)
  /\ length (c_utility_history co) = length (rewards_history co).

Definition books_ok (w : World) : Prop :=
  (forall m, accounts_ok (miner_at w m))
  /\ (forall c, coalition_accounts_ok (coalition_at w c)).

(** ** The rest of a timestep ([simulation/engine.py]) *)

Definition TIMESTEP : Q := 1.
Definition DIFFICULTY : Z := 15000000000.

(** [Coalition.request_ecp_compute]: the store and the provider after the
    purchase. *)
Definition request_ecp_compute (w : World) (c : cref) (e : ECP) (nonce : Q) : World * ECP :=
  let '(e1, granted) := allocate_compute e c nonce in
  (set_coalition w c (coalition_set_compute (coalition_at w c) granted), e1).

(** One iteration of the loop of [coalitions_request_compute]. *)
Definition request_step (st : World * ECP) (coalition : cref) : World * ECP :=
  let '(w, e) := st in
  let optimal_compute :=
    calculate_optimal_compute_demand w coalition (price_per_hash e)
      (operating_cost_per_hash e) in
  if Qlt_bool 0 optimal_compute then request_ecp_compute w coalition e optimal_compute
  else (w, e).

(** [SimulationEngine.coalitions_request_compute] *)
Definition coalitions_request_compute (eng : Engine) : Engine :=
  match eng_ecp eng with
  | None => eng
  | Some e =>
      let '(w1, e1) := fold_left request_step (eng_coalitions eng) (world eng, e) in
      let e2 :=
        if ECP_OPTIMIZATION_ENABLED
        then fst (optimize_overlapping_work e1 w1 (compute_requests e1))
        else e1 in
      {| eng_miners := eng_miners eng;
         eng_coalitions := eng_coalitions eng;
         eng_ecp := Some e2;
         global_transaction_pool := global_transaction_pool eng;
         eng_blocks_found := eng_blocks_found eng;
         total_rewards_distributed := total_rewards_distributed eng;
         world := w1 |}
  end.

Section Discovery.

Variable exp : Q -> Q.

(** [SimulationEngine.attempt_block_discovery]; [draw_block] and
    [draw_winner] go to [get_block_finder], [draw_theft] to
    [handle_block_found]. *)
Definition attempt_block_discovery (draw_block draw_winner draw_theft : Q) (eng : Engine)
  : result Engine :=
  if (length (eng_coalitions eng) =? 0)%nat then Ok eng
  else
    let total_hashrate :=
      fold_left
        (fun total_hashrate coalition =>
           total_hashrate + get_effective_hashrate (world eng) coalition)
        (eng_coalitions eng) 0 in
    if Qeq_bool total_hashrate 0 then Ok eng
    else
      winner ← get_block_finder exp (world eng) (eng_coalitions eng) total_hashrate
                 TIMESTEP DIFFICULTY draw_block draw_winner;
      match winner with
      | Some coalition => Ok (handle_block_found draw_theft eng coalition)
      | None => Ok eng
      end.

End Discovery.

(** Two stores that agree on everything the demand for compute reads: the
    miners, and the identifier, members and expected rewards of every
    coalition. *)
Definition same_demand (w w' : World) : Prop :=
  (forall m, miner_at w' m = miner_at w m)
  /\ (forall c,
        coalition_id (coalition_at w' c) = coalition_id (coalition_at w c)
        /\ members (coalition_at w' c) = members (coalition_at w c)
        /\ expected_rewards (coalition_at w' c) = expected_rewards (coalition_at w c)).

(** An engine on the store in which nobody allocates any time. *)
Definition idle_engine : Engine :=
  {| eng_miners := [0%nat];
     eng_coalitions := [0%nat];
     eng_ecp := Some new_ECP;
     global_transaction_pool := ∅;
     eng_blocks_found := 0;
     total_rewards_distributed := 0;
     world := idle_world |}.

(** An engine whose coalition bought 2 units earlier and whose provider now
    asks a price at which the coalition demands nothing. *)
Definition stale_engine : Engine :=
  {| eng_miners := [0%nat; 1%nat];
     eng_coalitions := [0%nat];
     eng_ecp := Some overpriced_ECP;
     global_transaction_pool := ∅;
     eng_blocks_found := 0;
     total_rewards_distributed := 0;
     world := paying_world |}.

(** ** Collection of transactions ([entities/miner.py], [simulation/engine.py]) *)

(** [random.sample(population, k)]; [picks] are the positions the random
    source selects, [k] distinct positions below the length in a run of the
    code.  CPython raises [ValueError] for a negative [k] and for one
    larger than the population. *)
Definition random_sample {A : Type} (population : list A) (k : Z) (picks : list nat)
  : result (list A) :=
  if (k <? 0)%Z || (Z.of_nat (length population) <? k)%Z then Raise ValueError
  else Ok (omap (fun i => population !! i) picks).

(** [set.update] with a list of transactions: an identifier already in the
    set keeps the transaction stored for it. *)
Definition set_update (s : gmap Z Q) (txs : list Transaction) : gmap Z Q :=
  fold_left
    (fun acc tx =>
       match acc !! tx_id tx with
       | Some _ => acc
       | None => <[ tx_id tx := fee tx ]> acc
       end)
    txs s.

(** [Miner.collect_transactions] *)
Definition collect_transactions (w : World) (m : mref) (pool : list Transaction)
    (time_delta : Q) (picks : list nat) : result World :=
  let self := miner_at w m in
  let num_to_collect := int_of_Q (inject_Z (transaction_collection_rate self) * time_delta) in
  let available :=
    List.filter
      (fun tx => match transactions self !! tx_id tx with Some _ => false | None => true end)
      pool in
  if (0 <? length available)%nat then
    let num_to_collect := Z.min num_to_collect (Z.of_nat (length available)) in
    new_transactions ← random_sample available num_to_collect picks;
    Ok (set_miner w m
          (miner_set_transactions self (set_update (transactions self) new_transactions)))
  else Ok w.

(** The loop of [miners_collect_transactions]; [draws i] are the positions
    drawn in iteration [i]. *)
Fixpoint collect_loop (draws : nat -> list nat) (pool : list Transaction) (i : nat)
    (ms : list mref) (w : World) : result World :=
  match ms with
  | [] => Ok w
  | miner :: rest =>
      w1 ← collect_transactions w miner pool TIMESTEP (draws i);
      collect_loop draws pool (S i) rest w1
  end.

(** [SimulationEngine.miners_collect_transactions] *)
Definition miners_collect_transactions (draws : nat -> list nat) (eng : Engine)
  : result Engine :=
  let pool_list :=
    map (fun p => {| tx_id := fst p; fee := snd p |})
      (map_to_list (global_transaction_pool eng)) in
  w1 ← collect_loop draws pool_list 0 (eng_miners eng) (world eng);
  Ok {| eng_miners := eng_miners eng;
        eng_coalitions := eng_coalitions eng;
        eng_ecp := eng_ecp eng;
        global_transaction_pool := global_transaction_pool eng;
        eng_blocks_found := eng_blocks_found eng;
        total_rewards_distributed := total_rewards_distributed eng;
        world := w1 |}.

(** Every miner of the engine holds only transactions of the global pool. *)
Definition held_in_pool (eng : Engine) : Prop :=
  forall m, In m (eng_miners eng) ->
    transactions (miner_at (world eng) m) ⊆ global_transaction_pool eng.

(** What the random source can hand to [random.sample(population, k)]:
    [k] distinct positions of the population. *)
Definition valid_picks (n : nat) (k : Z) (picks : list nat) : Prop :=
  Z.of_nat (length picks) = k /\ NoDup picks /\ forall i, In i picks -> (i < n)%nat.

(** The global pool of [mining_engine] as the list handed to the miners. *)
Definition mining_pool : list Transaction :=
  [ {| tx_id := 5; fee := 40 |}; {| tx_id := 6; fee := 10 |};
    {| tx_id := 8; fee := 25 |}; {| tx_id := 9; fee := 70 |} ].

(** ** Statistics of the provider ([entities/ecp.py]) *)

(** [ECP.get_average_price] *)
Definition get_average_price (e : ECP) : Q :=
  if (length (price_history e) =? 0)%nat then price_per_hash e
  else Qsum (price_history e) / inject_Z (Z.of_nat (length (price_history e))).

(** [ECP.get_average_demand] *)
Definition get_average_demand (e : ECP) : Q :=
  if (length (demand_history e) =? 0)%nat then 0
  else Qsum (demand_history e) / inject_Z (Z.of_nat (length (demand_history e))).

(** [ECP.get_capacity_utilization]; the division is guarded by the test on
    the capacity. *)
Definition get_capacity_utilization (e : ECP) : Q :=
  if Qeq_bool (total_capacity e) 0 then 0
  else (current_load e / total_capacity e) * 100.

(** [ECP.get_total_demand] *)
Definition get_total_demand (e : ECP) : Q := total_demand e.

(** A call that asks for no negative amount of compute. *)
Definition sane_op (op : ecp_op) : Prop :=
  match op with
  | AllocateCompute _ nonce => 0 <= nonce
  | _ => True
  end.

(** The load is within the capacity the provider is created with, and so is
    every amount in the demand history. *)
Definition load_ok (e : ECP) : Prop :=
  total_capacity e = ECP_MAX_CAPACITY_L
  /\ 0 <= current_load e <= total_capacity e
  /\ Forall (fun d => 0 <= d <= ECP_MAX_CAPACITY_L) (demand_history e)
  /\ 0 <= total_demand e.

(** ** Probability of a block ([simulation/utils.py]) *)

Section DiscoveryProbability.

Variable exp : Q -> Q.

(** [calculate_block_discovery_probability]; both divisions are guarded by
    the tests before them. *)
Definition calculate_block_discovery_probability (w : World) (c : cref)
    (total_network_hashrate time_delta : Q) (difficulty : Z) : Q :=
  if Qeq_bool total_network_hashrate 0 then 0
  else
    let coalition_hashrate := get_effective_hashrate w c in
    let hashrate_share := coalition_hashrate / total_network_hashrate in
    if (difficulty =? 0)%Z then 1
    else
      let lambda_rate := total_network_hashrate / inject_Z difficulty in
      let base_prob := 1 - exp (- lambda_rate * time_delta) in
      let coalition_prob := hashrate_share * base_prob in
      Qmin 1 coalition_prob.

End DiscoveryProbability.

(** ** Purchase of compute by bisection ([entities/coalition.py], [simulation/utils.py]) *)

(** [Coalition.get_expected_utility_with_compute]; [None] stands for the
    [ZeroDivisionError] of the division by
    [total_network_hashrate + compute]. *)
Definition get_expected_utility_with_compute (w : World) (c : cref)
    (compute price total_network_hashrate : Q) : option Q :=
  let member_hashrate := get_total_work w c in
  let effective_hashrate := member_hashrate + compute in
  if Qeq_bool total_network_hashrate 0 then Some 0
  else if Qeq_bool (total_network_hashrate + compute) 0 then None
  else
    let hashrate_share := effective_hashrate / (total_network_hashrate + compute) in
    let expected := hashrate_share * expected_rewards (coalition_at w c) in
    let cost := price * compute in
    let utility := expected - cost in
    Some (Qmax 0 utility).

(** The loop of [calculate_optimal_compute_purchase]; [iterations] is what
    is left of [range(20)]. *)
Fixpoint purchase_search (iterations : nat) (w : World) (c : cref)
    (price total_network_hashrate lower_bound upper_bound best_compute best_utility : Q)
  : option Q :=
  match iterations with
  | O => Some best_compute
  | S rest =>
      let mid := (lower_bound + upper_bound) / 2 in
      utility ← get_expected_utility_with_compute w c mid price total_network_hashrate;
      if Qlt_bool best_utility utility
      then purchase_search rest w c price total_network_hashrate mid upper_bound mid utility
      else purchase_search rest w c price total_network_hashrate lower_bound mid
             best_compute best_utility
  end.

(** [calculate_optimal_compute_purchase]; [cost] is accepted and not used,
    as in the source. *)
Definition calculate_optimal_compute_purchase (w : World) (c : cref)
    (price cost total_network_hashrate : Q) : option Q :=
  let lower_bound := 0 in
  let upper_bound := 10000000000 in
  let best_compute := 0 in
  best_utility ← get_expected_utility_with_compute w c 0 price total_network_hashrate;
  purchase_search 20 w c price total_network_hashrate lower_bound upper_bound
    best_compute best_utility.

(** ** The price search of [simulation/utils.py] *)

(** [calculate_ecp_utility_at_price] *)
Definition calculate_ecp_utility_at_price (e : ECP) (w : World) (cs : list cref) (price : Q)
  : Q :=
  let total_demand :=
    fold_left
      (fun total_demand coalition =>
         let demand :=
           calculate_optimal_compute_demand w coalition price (operating_cost_per_hash e) in
         total_demand + demand)
      cs 0 in
  let utility := (price - operating_cost_per_hash e) * total_demand in
  Qmax 0 utility.

(** The loop of [calculate_optimal_ecp_price]; [iterations] is what is left
    of [range(max_iterations)]. *)
Fixpoint ecp_price_search (iterations : nat) (e : ECP) (w : World) (cs : list cref)
    (current_price learning_rate convergence_threshold : Q) : Q :=
  match iterations with
  | O => current_price
  | S rest =>
      let epsilon := 1 # 100 in
      let current_utility := calculate_ecp_utility_at_price e w cs current_price in
      let utility_plus := calculate_ecp_utility_at_price e w cs (current_price + epsilon) in
      let gradient := (utility_plus - current_utility) / epsilon in
      if Qlt_bool (Qabs gradient) convergence_threshold then current_price
      else
        let current_price := current_price + learning_rate * gradient in
        let current_price := Qmax 0 (Qmin 450 current_price) in
        ecp_price_search rest e w cs current_price (learning_rate * (95 # 100))
          convergence_threshold
  end.

(** [calculate_optimal_ecp_price]; [range] of a negative number is empty. *)
Definition calculate_optimal_ecp_price (e : ECP) (w : World) (cs : list cref)
    (learning_rate : Q) (max_iterations : Z) (convergence_threshold : Q) : Q :=
  ecp_price_search (Z.to_nat max_iterations) e w cs (price_per_hash e) learning_rate
    convergence_threshold.

(** ** Work helpers and statistics of [simulation/utils.py] *)

(** [calculate_effective_hashrate] *)
Definition calculate_effective_hashrate (w : World) (m : mref) (c : cref)
    (context_switch_overhead : Q) : Q :=
  let miner := miner_at w m in
  let allocated_hashrate := total_hashrate miner * get_allocation w m c in
  let num_coalitions := length (coalitions miner) in
  if (num_coalitions <=? 1)%nat then allocated_hashrate
  else
    let num_switches := num_coalitions in
    let total_overhead := inject_Z (Z.of_nat num_switches) * context_switch_overhead in
    let effective := allocated_hashrate * (1 - total_overhead) in
    Qmax 0 effective.

(** [calculate_optimal_work_allocation]: the dictionary it returns. *)
Definition calculate_optimal_work_allocation (w : World) (m : mref) (cs : list cref)
  : gmap Z Q :=
  let id_of (c : cref) := coalition_id (coalition_at w c) in
  match cs with
  | [] => ∅
  | [c0] => {[ id_of c0 := 1 ]}
  | _ =>
      let '(utilities, total_utility) :=
        fold_left
          (fun (acc : gmap Z Q * Q) coalition =>
             let utility := get_expected_member_utility w coalition m in
             let utilities := <[ id_of coalition := Qmax 0 utility ]> (fst acc) in
             (utilities, snd acc + default 0 (utilities !! id_of coalition)))
          cs (∅, 0) in
      if Qeq_bool total_utility 0 then
        let equal_share := 1 / inject_Z (Z.of_nat (length cs)) in
        fold_left (fun a c => <[ id_of c := equal_share ]> a) cs ∅
      else
        fold_left
          (fun a coalition =>
             <[ id_of coalition :=
                  default 0 (utilities !! id_of coalition) / total_utility ]> a)
          cs ∅
  end.

(** [calculate_improvement_percentage]; the division is guarded by the test
    on the baseline. *)
Definition calculate_improvement_percentage (baseline improved : Q) : Q :=
  if Qeq_bool baseline 0 then 0
  else ((improved - baseline) / baseline) * 100.

(** The engine after step 3 of a timestep for one coalition: the coalition
    has rebuilt its pool from its members. *)
Definition engine_aggregate (eng : Engine) (coalition : cref) : Engine :=
  {| eng_miners := eng_miners eng;
     eng_coalitions := eng_coalitions eng;
     eng_ecp := eng_ecp eng;
     global_transaction_pool := global_transaction_pool eng;
     eng_blocks_found := eng_blocks_found eng;
     total_rewards_distributed := total_rewards_distributed eng;
     world := aggregate_transactions (world eng) coalition |}.

(** * Properties *)

(** ** Arithmetic and list helpers *)

Lemma Qlt_bool_iff (a b : Q) : Qlt_bool a b = true <-> a < b.
Proof.
  unfold Qlt_bool. rewrite negb_true_iff.
  split.
  - intros H. apply Qnot_le_lt. intros Hle.
    apply Qle_bool_iff in Hle. congruence.
  - intros H. destruct (Qle_bool b a) eqn:E; [|reflexivity].
    apply Qle_bool_iff in E. lra.
Qed.

Lemma Qlt_bool_false (a b : Q) : Qlt_bool a b = false <-> b <= a.
Proof.
  unfold Qlt_bool. rewrite negb_false_iff. apply Qle_bool_iff.
Qed.

Lemma Qle_bool_false (a b : Q) : Qle_bool a b = false <-> b < a.
Proof.
  split.
  - intros H. apply Qnot_le_lt. intros Hle. apply Qle_bool_iff in Hle. congruence.
  - intros H. destruct (Qle_bool a b) eqn:E; [|reflexivity].
    apply Qle_bool_iff in E. lra.
Qed.

Lemma Qeq_bool_false (a b : Q) : Qeq_bool a b = false <-> ~ a == b.
Proof.
  split.
  - intros H Heq. apply Qeq_bool_iff in Heq. congruence.
  - intros H. destruct (Qeq_bool a b) eqn:E; [|reflexivity].
    apply Qeq_bool_iff in E. contradiction.
Qed.

Lemma fold_left_Qplus_acc (xs : list Q) (a : Q) :
  fold_left Qplus xs a == a + Qsum xs.
Proof.
  unfold Qsum. revert a. induction xs as [|x xs IH]; intros a; simpl.
  - lra.
  - rewrite (IH (a + x)), (IH (0 + x)). lra.
Qed.

Lemma Qsum_cons (x : Q) (xs : list Q) : Qsum (x :: xs) == x + Qsum xs.
Proof.
  unfold Qsum at 1. simpl. rewrite fold_left_Qplus_acc. lra.
Qed.

Lemma Qsum_app (xs ys : list Q) : Qsum (xs ++ ys) == Qsum xs + Qsum ys.
Proof.
  induction xs as [|x xs IH]; simpl.
  - unfold Qsum at 2. simpl. lra.
  - rewrite !Qsum_cons, IH. lra.
Qed.

Lemma Qsum_perm (xs ys : list Q) : xs ≡ₚ ys -> Qsum xs == Qsum ys.
Proof.
  induction 1 as [|x xs ys _ IH|x y xs|xs ys zs _ IH1 _ IH2].
  - reflexivity.
  - rewrite !Qsum_cons, IH. reflexivity.
  - rewrite !Qsum_cons. lra.
  - rewrite IH1. exact IH2.
Qed.

Lemma Qsum_nonneg (xs : list Q) : Forall (fun x => 0 <= x) xs -> 0 <= Qsum xs.
Proof.
  induction 1 as [|x xs Hx _ IH].
  - unfold Qsum. simpl. lra.
  - rewrite Qsum_cons. lra.
Qed.

(** A loop [acc += f x] is the sum of the [f x]. *)
Lemma fold_left_add_map {A : Type} (f : A -> Q) (xs : list A) (a : Q) :
  fold_left (fun acc x => acc + f x) xs a == a + Qsum (map f xs).
Proof.
  revert a. induction xs as [|x xs IH]; intros a; simpl.
  - unfold Qsum. simpl. lra.
  - rewrite IH, Qsum_cons. lra.
Qed.

Lemma Qsum_map_scale {A : Type} (f : A -> Q) (k : Q) (xs : list A) :
  Qsum (map (fun x => f x * k) xs) == Qsum (map f xs) * k.
Proof.
  induction xs as [|x xs IH]; simpl.
  - unfold Qsum. simpl. lra.
  - rewrite !Qsum_cons, IH. lra.
Qed.

Lemma Qsum_map_ext {A : Type} (f g : A -> Q) (xs : list A) :
  (forall x, In x xs -> f x == g x) -> Qsum (map f xs) == Qsum (map g xs).
Proof.
  induction xs as [|x xs IH]; intros H; simpl.
  - reflexivity.
  - rewrite !Qsum_cons, IH.
    + rewrite (H x); [reflexivity | now left].
    + intros y Hy. apply H. now right.
Qed.

(** ** No-op membership calls *)

(** C10.  Membership calls on invalid input return [False] and leave the
    store as it is: [join_coalition] when the coalition is already among the
    miner's memberships, [leave_coalition] when it is not, [add_member] when
    the miner is already a member, [remove_member] when it is not (the head
    designation is part of the unchanged store). *)
Theorem membership_calls_noop (w : World) (m : mref) (c : cref) :
  (coalition_in w c (coalitions (miner_at w m)) = true ->
     join_coalition w m c = (w, false))
  /\ (coalition_in w c (coalitions (miner_at w m)) = false ->
     leave_coalition w m c = Ok (w, false))
  /\ (miner_in w m (members (coalition_at w c)) = true ->
     add_member w c m = (w, false))
  /\ (miner_in w m (members (coalition_at w c)) = false ->
     remove_member w c m = Ok (w, false)).
Proof.
  repeat split; intros H.
  - unfold join_coalition. now rewrite H.
  - unfold leave_coalition. now rewrite H.
  - unfold add_member. now rewrite H.
  - unfold remove_member. now rewrite H.
Qed.

Lemma membership_calls_noop_witness :
  join_coalition demo_world 0%nat 0%nat = (demo_world, false)
  /\ leave_coalition demo_world 1%nat 0%nat = Ok (demo_world, false)
  /\ add_member demo_world 0%nat 0%nat = (demo_world, false)
  /\ remove_member demo_world 0%nat 1%nat = Ok (demo_world, false).
Proof.
  split; [|split; [|split]].
  - apply (membership_calls_noop demo_world 0%nat 0%nat). reflexivity.
  - apply (membership_calls_noop demo_world 1%nat 0%nat). reflexivity.
  - apply (membership_calls_noop demo_world 0%nat 0%nat). reflexivity.
  - apply (membership_calls_noop demo_world 1%nat 0%nat). reflexivity.
Defined.

(** ** Reward distribution with no work *)

(** C7.  On a coalition whose total member work is zero,
    [distribute_rewards] returns normally, pays nobody and leaves the whole
    store unchanged: every miner's earnings, earnings history and utility,
    and the coalition's totals, histories, ECP cost and utility. *)
Theorem distribute_rewards_zero_work
    (smart_contract : bool) (draw : Q) (w : World) (c : cref) (block_reward ecp_price : Q) :
  get_total_work w c == 0 ->
  distribute_rewards smart_contract draw w c block_reward ecp_price = w
  /\ snd (distribute_rewards_calls smart_contract draw w c block_reward ecp_price) = [].
Proof.
  intros H. apply Qeq_bool_iff in H.
  unfold distribute_rewards, distribute_rewards_calls.
  rewrite H. split; reflexivity.
Qed.

Lemma distribute_rewards_zero_work_witness :
  distribute_rewards false (1 # 2) idle_world 0%nat 1500 200 = idle_world
  /\ snd (distribute_rewards_calls false (1 # 2) idle_world 0%nat 1500 200) = [].
Proof.
  apply (distribute_rewards_zero_work false (1 # 2) idle_world 0%nat 1500 200).
  reflexivity.
Defined.

(** ** Compute allocation *)

Lemma allocate_compute_capacity (e : ECP) (c : cref) (n : Q) :
  total_capacity (fst (allocate_compute e c n)) = total_capacity e.
Proof.
  unfold allocate_compute. destruct (Qle_bool _ _); reflexivity.
Qed.

(** One call, from a load within the capacity. *)
Lemma allocate_compute_step (e : ECP) (c : cref) (n : Q) :
  0 <= n ->
  0 <= current_load e <= total_capacity e ->
  let available := total_capacity e - current_load e in
  let e' := fst (allocate_compute e c n) in
  let granted := snd (allocate_compute e c n) in
  (0 < available -> granted = Qmin n available)
  /\ (available <= 0 -> granted = 0 /\ current_load e' = current_load e)
  /\ current_load e' == current_load e + granted
  /\ 0 <= granted <= n
  /\ 0 <= current_load e' <= total_capacity e.
Proof.
  intros Hn [Hlo Hhi]. cbv zeta. unfold allocate_compute.
  destruct (Qle_bool (total_capacity e - current_load e) 0) eqn:E; simpl.
  - apply Qle_bool_iff in E. repeat split; try lra.
  - apply Qle_bool_false in E.
    destruct (Q.min_spec n (total_capacity e - current_load e)) as [[H1 H2]|[H1 H2]];
      repeat split; try lra.
Qed.

Lemma allocate_all_invariant (reqs : list (cref * Q)) (e : ECP) :
  Forall (fun r => 0 <= snd r) reqs ->
  0 <= current_load e <= total_capacity e ->
  let e' := fst (allocate_all e reqs) in
  0 <= current_load e' <= total_capacity e' /\ total_capacity e' = total_capacity e.
Proof.
  revert e. induction reqs as [|[c n] rest IH]; intros e Hreqs Hinv; simpl.
  - split; [exact Hinv | reflexivity].
  - inversion Hreqs as [|? ? Hn Hrest]; subst. simpl in Hn.
    pose proof (allocate_compute_step e c n Hn Hinv) as (_ & _ & _ & _ & Hload).
    pose proof (allocate_compute_capacity e c n) as Hcap.
    destruct (allocate_compute e c n) as [e1 g] eqn:E1. simpl in Hload, Hcap.
    assert (Hinv1 : 0 <= current_load e1 <= total_capacity e1) by (rewrite Hcap; exact Hload).
    specialize (IH e1 Hrest Hinv1). simpl in IH.
    destruct (allocate_all e1 rest) as [e2 others]. simpl in *.
    destruct IH as [IH1 IH2]. split; [exact IH1 | congruence].
Qed.

(** C5.  From a reset load, along any sequence of [allocate_compute] calls
    with non-negative requests, each call returns the smaller of the request
    and the capacity that remains, or 0 when none remains; the load grows by
    exactly what is returned (nothing is granted beyond it, and a refused
    request leaves the load alone), and it never exceeds the capacity. *)
Theorem allocate_compute_bounded
    (e : ECP) (earlier : list (cref * Q)) (c : cref) (n : Q) :
  0 <= total_capacity e ->
  Forall (fun r => 0 <= snd r) earlier ->
  0 <= n ->
  let before := fst (allocate_all (reset_load e) earlier) in
  let available := total_capacity before - current_load before in
  let after := fst (allocate_compute before c n) in
  let granted := snd (allocate_compute before c n) in
  total_capacity before = total_capacity e
  /\ (0 < available -> granted = Qmin n available)
  /\ (available <= 0 -> granted = 0 /\ current_load after = current_load before)
  /\ current_load after == current_load before + granted
  /\ 0 <= granted <= n
  /\ current_load after <= total_capacity after.
Proof.
  intros Hcap Hearlier Hn. cbv zeta.
  assert (H0 : 0 <= current_load (reset_load e) <= total_capacity (reset_load e))
    by (simpl; lra).
  pose proof (allocate_all_invariant earlier (reset_load e) Hearlier H0) as [Hinv Hsame].
  simpl in Hsame.
  pose proof (allocate_compute_step _ c n Hn Hinv) as (Ha & Hb & Hc & Hd & He).
  rewrite allocate_compute_capacity.
  repeat split; try assumption; try (apply Hb; assumption); try apply Hd; try apply He.
Qed.

Lemma allocate_compute_bounded_witness :
  let before := fst (allocate_all (reset_load new_ECP) [(0%nat, 6000000000); (1%nat, 3000000000)]) in
  let after := fst (allocate_compute before 2%nat 5000000000) in
  let granted := snd (allocate_compute before 2%nat 5000000000) in
  granted = Qmin 5000000000 (total_capacity before - current_load before)
  /\ current_load after <= total_capacity after.
Proof.
  cbv zeta.
  pose proof (allocate_compute_bounded new_ECP
                [(0%nat, 6000000000); (1%nat, 3000000000)] 2%nat 5000000000) as H.
  cbv zeta in H.
  destruct H as (_ & Ha & _ & _ & _ & Hb).
  - vm_compute. discriminate.
  - repeat constructor; vm_compute; discriminate.
  - vm_compute. discriminate.
  - split; [apply Ha; vm_compute; reflexivity | exact Hb].
Defined.

(** ** Pricing *)

Lemma clamp_in_band (p : Q) : in_price_band (Qmax ECP_PRICE_MIN (Qmin ECP_PRICE_MAX p)).
Proof.
  unfold in_price_band, ECP_PRICE_MIN, ECP_PRICE_MAX. split.
  - apply Q.le_max_l.
  - apply Q.max_lub; [lra | apply Q.le_min_l].
Qed.

(** The ascent either takes no step and returns the price it started from,
    or returns a clamped price. *)
Lemma price_ascent_band (n : nat) (e : ECP) (w : World) (cs : list cref) (p lr : Q) :
  price_ascent n e w cs p lr = p \/ in_price_band (price_ascent n e w cs p lr).
Proof.
  revert p lr. induction n as [|n IH]; intros p lr; simpl.
  - now left.
  - destruct (Qlt_bool _ _).
    + now left.
    + right.
      match goal with |- in_price_band (price_ascent n e w cs ?q ?l) =>
        destruct (IH q l) as [Heq | Hband]; [rewrite Heq; apply clamp_in_band | exact Hband]
      end.
Qed.

(** C4, as the code has it.  After [set_optimal_price] the price is the
    starting price (empty coalition list, or a first gradient under the
    convergence threshold) or lies in the band [ECP_PRICE_MIN, ECP_PRICE_MAX];
    so it lies in the band whenever the starting price does. *)
Theorem set_optimal_price_band (e : ECP) (w : World) (cs : list cref) :
  (price_per_hash (set_optimal_price e w cs) = price_per_hash e
   \/ in_price_band (price_per_hash (set_optimal_price e w cs)))
  /\ (in_price_band (price_per_hash e) ->
      in_price_band (price_per_hash (set_optimal_price e w cs))).
Proof.
  assert (H : price_per_hash (set_optimal_price e w cs) = price_per_hash e
              \/ in_price_band (price_per_hash (set_optimal_price e w cs))).
  { unfold set_optimal_price. destruct (length cs =? 0)%nat.
    - now left.
    - cbn [price_per_hash]. apply price_ascent_band. }
  split; [exact H|].
  intros Hband. destruct H as [Heq | H]; [rewrite Heq|]; assumption.
Qed.

Lemma set_optimal_price_band_witness :
  in_price_band (price_per_hash (set_optimal_price new_ECP demo_world [0%nat])).
Proof.
  apply (set_optimal_price_band new_ECP demo_world [0%nat]).
  unfold in_price_band. simpl. split; vm_compute; discriminate.
Defined.

(** C4 as stated fails: a provider whose price starts at 600, above every
    coalition's demand cut-off, sees a zero gradient and keeps its price,
    outside the band. *)
Lemma set_optimal_price_out_of_band :
  price_per_hash (set_optimal_price overpriced_ECP demo_world [0%nat]) = 600
  /\ ~ in_price_band (price_per_hash (set_optimal_price overpriced_ECP demo_world [0%nat])).
Proof.
  assert (H : price_per_hash (set_optimal_price overpriced_ECP demo_world [0%nat]) = 600)
    by (vm_compute; reflexivity).
  split; [exact H|].
  rewrite H. unfold in_price_band, ECP_PRICE_MAX. intros [_ Hle]. lra.
Qed.

(** ** Reward distribution *)

Lemma same_work_refl (w : World) : same_work w w.
Proof. split; intros; repeat split; reflexivity. Qed.

Lemma same_work_trans (w1 w2 w3 : World) :
  same_work w1 w2 -> same_work w2 w3 -> same_work w1 w3.
Proof.
  intros [Hm1 Hc1] [Hm2 Hc2]. split.
  - intros m. destruct (Hm1 m) as (a1 & b1 & c1), (Hm2 m) as (a2 & b2 & c2).
    repeat split; congruence.
  - intros c. rewrite Hc2. apply Hc1.
Qed.

Lemma same_work_receive_reward (w : World) (m : mref) (amount : Q) :
  same_work w (receive_reward w m amount).
Proof.
  split; [|reflexivity].
  intros r. unfold receive_reward. simpl.
  destruct (Nat.eqb_spec r m) as [->|_]; repeat split; reflexivity.
Qed.

Lemma same_work_update_utility (w : World) (m : mref) (u : Q) :
  same_work w (update_utility w m u).
Proof.
  split; [|reflexivity].
  intros r. unfold update_utility. simpl.
  destruct (Nat.eqb_spec r m) as [->|_]; repeat split; reflexivity.
Qed.

Lemma same_work_contribution (w w' : World) (m : mref) (c : cref) :
  same_work w w' -> get_work_contribution w' m c = get_work_contribution w m c.
Proof.
  intros [Hm Hc]. destruct (Hm m) as (Hh & Hcs & Ha).
  assert (E : forall l, coalition_in w' c l = coalition_in w c l).
  { intros l. unfold coalition_in, coalition_eq.
    induction l as [|b l IHl]; simpl; [reflexivity|].
    now rewrite IHl, !Hc. }
  unfold get_work_contribution, get_allocation.
  now rewrite Hh, Hcs, Ha, E, Hc.
Qed.

Lemma reward_step_spec (c : cref) (total_work net_reward ecp_price : Q)
    (w : World) (u : Q) (calls : list (mref * Q)) (member : mref) :
  let st := reward_step c total_work net_reward ecp_price (w, u, calls) member in
  same_work w (fst (fst st))
  /\ snd st =
       calls ++ [(member,
                  (if Qlt_bool 0 total_work
                   then get_work_contribution w member c / total_work else 0)
                  * net_reward)].
Proof.
  cbv zeta. unfold reward_step. cbn [fst snd]. split; [|reflexivity].
  eapply same_work_trans; [apply same_work_receive_reward | apply same_work_update_utility].
Qed.

Lemma reward_loop_calls (c : cref) (total_work net_reward ecp_price : Q) (w0 : World)
    (ms : list mref) (st : World * Q * list (mref * Q)) :
  same_work w0 (fst (fst st)) ->
  let st' := fold_left (reward_step c total_work net_reward ecp_price) ms st in
  same_work w0 (fst (fst st'))
  /\ snd st' =
       snd st ++ map (fun member =>
                        (member,
                         (if Qlt_bool 0 total_work
                          then get_work_contribution w0 member c / total_work else 0)
                         * net_reward)) ms.
Proof.
  revert st. induction ms as [|member ms IH]; intros [[w u] calls] Hw; cbn [fold_left map].
  - split; [exact Hw | now rewrite app_nil_r].
  - cbn [fst snd] in Hw.
    pose proof (reward_step_spec c total_work net_reward ecp_price w u calls member)
      as [Hstep Hcalls].
    cbv zeta in Hstep, Hcalls.
    destruct (IH (reward_step c total_work net_reward ecp_price (w, u, calls) member))
      as [IH1 IH2].
    { eapply same_work_trans; [exact Hw | exact Hstep]. }
    split; [exact IH1|].
    cbv zeta in IH2. rewrite IH2, Hcalls, <- app_assoc. cbn [fst snd app].
    now rewrite (same_work_contribution w0 w member c Hw).
Qed.

Lemma get_total_work_sum (w : World) (c : cref) :
  get_total_work w c
  == Qsum (map (fun member => get_work_contribution w member c) (members (coalition_at w c))).
Proof.
  unfold get_total_work. rewrite fold_left_add_map. lra.
Qed.

Lemma get_work_contribution_nonneg (w : World) (m : mref) (c : cref) :
  miner_wf (miner_at w m) -> 0 <= get_work_contribution w m c.
Proof.
  intros [Hh Ha]. unfold get_work_contribution.
  destruct (negb _); [lra|].
  assert (Halloc : 0 <= get_allocation w m c).
  { unfold get_allocation.
    destruct (allocation (miner_at w m) !! coalition_id (coalition_at w c)) as [v|] eqn:E;
      simpl; [exact (Ha _ _ E) | lra]. }
  destruct (_ <=? 1)%nat.
  - apply Qmult_le_0_compat; assumption.
  - apply Q.le_max_l.
Qed.

(** The calls of a distribution that goes through: one per member, in
    order, each paying the member's share of the net reward. *)
Lemma distribute_rewards_calls_spec
    (smart_contract : bool) (draw : Q) (w : World) (c : cref) (block_reward ecp_price : Q) :
  let net_reward :=
    net_reward_of smart_contract draw block_reward
      (ecp_price * ecp_compute_purchased (coalition_at w c)) in
  0 < get_total_work w c ->
  0 < net_reward ->
  snd (distribute_rewards_calls smart_contract draw w c block_reward ecp_price)
  = map (fun member => (member, member_reward_of w c net_reward member))
      (members (coalition_at w c)).
Proof.
  intros net_reward Hwork Hnet. unfold distribute_rewards_calls.
  destruct (Qeq_bool (get_total_work w c) 0) eqn:E0.
  { apply Qeq_bool_iff in E0. lra. }
  fold net_reward.
  destruct (Qle_bool net_reward 0) eqn:E1.
  { apply Qle_bool_iff in E1. lra. }
  pose proof (reward_loop_calls c (get_total_work w c) net_reward ecp_price w
                (members (coalition_at w c)) (w, 0, []) (same_work_refl w)) as [_ Hcalls].
  cbv zeta in Hcalls.
  destruct (fold_left _ _ _) as [[w1 u1] calls1]. cbn [fst snd app] in *.
  rewrite Hcalls. apply map_ext. intros member.
  unfold member_reward_of.
  apply Qlt_bool_iff in Hwork. now rewrite Hwork.
Qed.

(** C1.  When the total member work and the net reward (ECP cost and any
    trust and theft discounts taken off) are positive, [distribute_rewards]
    calls [receive_reward] once per member and the amounts paid add up to
    the net reward; no amount is negative when the members' hashrates and
    allocation fractions are not negative. *)
Theorem distribute_rewards_conservation
    (smart_contract : bool) (draw : Q) (w : World) (c : cref) (block_reward ecp_price : Q) :
  let net_reward :=
    net_reward_of smart_contract draw block_reward
      (ecp_price * ecp_compute_purchased (coalition_at w c)) in
  let calls := snd (distribute_rewards_calls smart_contract draw w c block_reward ecp_price) in
  0 < get_total_work w c ->
  0 < net_reward ->
  map fst calls = members (coalition_at w c)
  /\ Qsum (map snd calls) == net_reward
  /\ ((forall m, In m (members (coalition_at w c)) -> miner_wf (miner_at w m)) ->
      Forall (fun amount => 0 <= amount) (map snd calls)).
Proof.
  intros net_reward calls Hwork Hnet. subst calls.
  rewrite (distribute_rewards_calls_spec smart_contract draw w c block_reward ecp_price Hwork Hnet).
  fold net_reward. rewrite !map_map. simpl.
  split; [apply map_id|]. split.
  - unfold member_reward_of.
    rewrite (Qsum_map_scale
               (fun member => get_work_contribution w member c / get_total_work w c) net_reward).
    unfold Qdiv.
    rewrite (Qsum_map_scale (fun member => get_work_contribution w member c)
               (/ get_total_work w c)).
    rewrite <- get_total_work_sum. field. lra.
  - intros Hwf. apply List.Forall_forall. intros amount Hin.
    apply in_map_iff in Hin. destruct Hin as (member & <- & Hmem).
    unfold member_reward_of.
    pose proof (get_work_contribution_nonneg w member c (Hwf member Hmem)) as Hge.
    apply Qmult_le_0_compat; [|lra].
    apply Qle_shift_div_l; [exact Hwork | lra].
Qed.

Lemma pool_world_wf (m : mref) : miner_wf (miner_at pool_world m).
Proof.
  assert (H : forall id h, 0 <= h -> miner_wf (pool_miner id h)).
  { intros id h Hh. split; [exact Hh|].
    intros k v Hkv. cbn [pool_miner miner_set_allocation allocation] in Hkv.
    apply lookup_singleton_Some in Hkv. destruct Hkv as [_ <-]. lra. }
  cbn [pool_world miner_at]. destruct (Nat.eqb m 0); apply H; lra.
Qed.

Lemma distribute_rewards_conservation_witness :
  let calls := snd (distribute_rewards_calls true 0 pool_world 0%nat 1500 200) in
  map fst calls = [0%nat; 1%nat]
  /\ Qsum (map snd calls) == 1500
  /\ Forall (fun amount => 0 <= amount) (map snd calls).
Proof.
  destruct (distribute_rewards_conservation true 0 pool_world 0%nat 1500 200)
    as (Hcalls & Hsum & Hnonneg).
  - vm_compute. reflexivity.
  - vm_compute. reflexivity.
  - split; [exact Hcalls|]. split; [exact Hsum|].
    apply Hnonneg. intros m _. apply pool_world_wf.
Defined.

Example distribute_rewards_pool_amounts :
  map (fun call => (fst call, Qred (snd call)))
    (snd (distribute_rewards_calls true 0 pool_world 0%nat 1500 200))
  = [(0%nat, 1125); (1%nat, 375)].
Proof. vm_compute. reflexivity. Qed.

Lemma paid_to_app (r : mref) (xs ys : list (mref * Q)) :
  paid_to r (xs ++ ys) = paid_to r xs ++ paid_to r ys.
Proof. unfold paid_to. now rewrite List.filter_app, map_app. Qed.

Lemma reward_step_earnings (c : cref) (total_work net_reward ecp_price : Q)
    (st : World * Q * list (mref * Q)) (member r : mref) :
  let st' := reward_step c total_work net_reward ecp_price st member in
  exists amount,
    snd st' = snd st ++ [(member, amount)]
    /\ earnings_history (miner_at (fst (fst st')) r)
       = earnings_history (miner_at (fst (fst st)) r) ++ paid_to r [(member, amount)].
Proof.
  destruct st as [[w u] calls]. cbv zeta. unfold reward_step. cbn [fst snd].
  eexists. split; [reflexivity|].
  unfold paid_to, update_utility, receive_reward.
  cbn [List.filter fst snd map set_miner miner_at].
  rewrite Nat.eqb_refl. rewrite (Nat.eqb_sym member r).
  destruct (Nat.eqb_spec r member) as [->|_].
  - reflexivity.
  - cbn [map]. now rewrite app_nil_r.
Qed.

Lemma reward_loop_earnings (c : cref) (total_work net_reward ecp_price : Q) (r : mref)
    (ms : list mref) (st : World * Q * list (mref * Q)) :
  let st' := fold_left (reward_step c total_work net_reward ecp_price) ms st in
  exists more,
    snd st' = snd st ++ more
    /\ earnings_history (miner_at (fst (fst st')) r)
       = earnings_history (miner_at (fst (fst st)) r) ++ paid_to r more.
Proof.
  cbv zeta. revert st. induction ms as [|member ms IH]; intros st; cbn [fold_left].
  - exists []. split; [now rewrite app_nil_r | cbn; now rewrite app_nil_r].
  - destruct (reward_step_earnings c total_work net_reward ecp_price st member r)
      as (amount & Hcalls & Hhist).
    destruct (IH (reward_step c total_work net_reward ecp_price st member))
      as (more & Hmore & Hhist').
    exists ((member, amount) :: more). split.
    + rewrite Hmore, Hcalls, <- app_assoc. reflexivity.
    + rewrite Hhist', Hhist, <- app_assoc.
      change ((member, amount) :: more) with ([(member, amount)] ++ more).
      now rewrite paid_to_app.
Qed.

(** The recorded calls are the payments: the earnings history of every
    miner object grows by exactly the amounts of the calls made on it. *)
Lemma distribute_rewards_earnings
    (smart_contract : bool) (draw : Q) (w : World) (c : cref) (block_reward ecp_price : Q)
    (r : mref) :
  let out := distribute_rewards_calls smart_contract draw w c block_reward ecp_price in
  earnings_history (miner_at (fst out) r)
  = earnings_history (miner_at w r) ++ paid_to r (snd out).
Proof.
  cbv zeta. unfold distribute_rewards_calls.
  destruct (Qeq_bool _ 0); [cbn; now rewrite app_nil_r|].
  destruct (Qle_bool _ 0); [cbn; now rewrite app_nil_r|].
  destruct (reward_loop_earnings c (get_total_work w c)
              (net_reward_of smart_contract draw block_reward
                 (ecp_price * ecp_compute_purchased (coalition_at w c)))
              ecp_price r (members (coalition_at w c)) (w, 0, []))
    as (more & Hmore & Hhist).
  destruct (fold_left _ _ _) as [[w1 u1] calls1].
  cbn [fst snd app] in *. subst calls1. exact Hhist.
Qed.

(** ** Admission (Definition 4) *)

(** C3, as the code has it.  The check the engine applies on MERGE is
    [Coalition.check_definition_4]: it passes exactly when the coalition has
    no members, or its total work is zero, or the projected total work is
    not zero and every member's projected share of the unchanged
    expected-reward baseline is no less than its current share of it minus
    1e-6.  There is no 95% tolerance and the baseline is not scaled with the
    hashrate.  [add_member] then admits exactly the miners that are not
    members yet and pass this check. *)
Theorem check_definition_4_iff (w : World) (c : cref) (new_miner : mref) :
  let self := coalition_at w c in
  let current_total_work := get_total_work w c in
  let projected_total_work :=
    current_total_work + get_potential_work_contribution w new_miner c in
  (check_definition_4 w c new_miner = true
   <-> members self = []
       \/ current_total_work == 0
       \/ (~ projected_total_work == 0
           /\ forall member, In member (members self) ->
                get_work_contribution w member c / current_total_work * expected_rewards self
                - (1 # 1000000)
                <= get_work_contribution w member c / projected_total_work
                   * expected_rewards self))
  /\ (snd (add_member w c new_miner) = true
      <-> miner_in w new_miner (members self) = false
          /\ check_definition_4 w c new_miner = true).
Proof.
  cbv zeta. split.
  - unfold check_definition_4.
    destruct (members (coalition_at w c)) as [|m0 ms] eqn:Hms.
    { simpl. split; [now left | reflexivity]. }
    cbn [length Nat.eqb].
    destruct (Qeq_bool (get_total_work w c) 0) eqn:E0.
    { apply Qeq_bool_iff in E0. split; [intros _; right; now left | reflexivity]. }
    apply Qeq_bool_false in E0.
    destruct (Qeq_bool _ 0) eqn:E1.
    { apply Qeq_bool_iff in E1. split; [discriminate|].
      intros [H | [H | [H _]]]; [discriminate | contradiction | contradiction]. }
    apply Qeq_bool_false in E1.
    rewrite forallb_forall. split.
    + intros H. right. right. split; [exact E1|].
      intros member Hin. specialize (H member Hin).
      apply negb_true_iff, Qlt_bool_false in H. exact H.
    + intros [H | [H | [_ H]]]; [discriminate | contradiction |].
      intros member Hin. apply negb_true_iff, Qlt_bool_false. now apply H.
  - unfold add_member.
    destruct (miner_in w new_miner (members (coalition_at w c))).
    { cbn [snd]. split; [discriminate | intros [H _]; discriminate]. }
    destruct (check_definition_4 w c new_miner) eqn:Hcheck.
    + rewrite andb_false_r. cbn [snd]. now split.
    + assert (Hlen : (0 <? length (members (coalition_at w c)))%nat = true).
      { unfold check_definition_4 in Hcheck.
        destruct (members (coalition_at w c)); [discriminate | reflexivity]. }
      rewrite Hlen. cbn [DEFINITION_4_ENABLED andb negb snd].
      split; [discriminate | intros [_ H]; discriminate].
Qed.

(** The formula of [simulation/utils.py] is not what is applied, and cannot
    be: on any coalition that has a member it stops at the call of a method
    [Coalition] does not have. *)
Lemma utils_check_definition_4_raises (w : World) (c : cref) (new_miner : mref) :
  members (coalition_at w c) <> [] ->
  utils_check_definition_4 w c new_miner = Raise AttributeError.
Proof.
  unfold utils_check_definition_4.
  destruct (members (coalition_at w c)); [congruence | reflexivity].
Qed.

(** C3 as stated fails: a fresh 200 MH/s miner asking to join a coalition
    whose single member contributes 300 MH/s passes the rule of the
    specification (the member's share falls to 3/5 while the baseline grows
    by 5/3) and is refused by the check the engine applies. *)
Lemma admission_check_differs :
  spec_admission_check demo_world 0%nat 1%nat = true
  /\ check_definition_4 demo_world 0%nat 1%nat = false
  /\ add_member demo_world 0%nat 1%nat = (demo_world, false).
Proof.
  split; [|split]; vm_compute; reflexivity.
Qed.

(** ** Block discovery *)

(** The bisection loop ends within [hi - lo] iterations, at an index [i]
    with [a[i-1] <= x] unless [i = lo] and [x < a[i]] unless [i = hi];
    no ordering of [a] is needed for that. *)
Lemma bisect_right_loop_spec (fuel : nat) (a : list Q) (x : Q) (lo hi : nat) :
  (hi - lo <= fuel)%nat ->
  (lo <= hi)%nat ->
  let i := bisect_right_loop fuel a x lo hi in
  (lo <= i <= hi)%nat
  /\ (i = lo \/ nth (i - 1) a 0 <= x)
  /\ (i = hi \/ x < nth i a 0).
Proof.
  revert lo hi. induction fuel as [|fuel IH]; intros lo hi Hfuel Hle; cbn [bisect_right_loop].
  - cbv zeta. assert (lo = hi) by lia. subst. repeat split; auto.
  - destruct (Nat.ltb_spec lo hi) as [Hlt|Hge].
    + assert (Hmid : (lo <= (lo + hi) / 2 < hi)%nat).
      { split.
        - apply Nat.div_le_lower_bound; lia.
        - apply Nat.Div0.div_lt_upper_bound; lia. }
      cbv zeta. destruct (Qlt_bool x (nth ((lo + hi) / 2) a 0)) eqn:E.
      * apply Qlt_bool_iff in E.
        destruct (IH lo ((lo + hi) / 2)%nat) as (Hr & Hl & Hh); [lia | lia |].
        cbv zeta in Hr, Hl, Hh.
        split; [lia|]. split; [exact Hl|].
        right. destruct Hh as [-> | Hh]; assumption.
      * apply Qlt_bool_false in E.
        destruct (IH ((lo + hi) / 2 + 1)%nat hi) as (Hr & Hl & Hh); [lia | lia |].
        cbv zeta in Hr, Hl, Hh.
        split; [lia|]. split; [|exact Hh].
        right. destruct Hl as [-> | Hl]; [|exact Hl].
        replace ((lo + hi) / 2 + 1 - 1)%nat with ((lo + hi) / 2)%nat by lia. exact E.
    + cbv zeta. assert (lo = hi) by lia. subst. repeat split; auto.
Qed.

Lemma accumulate_from_length (ws : list Q) (acc : Q) :
  length (accumulate_from acc ws) = length ws.
Proof.
  revert acc. induction ws as [|x t IH]; intros acc; simpl; [reflexivity|].
  now rewrite IH.
Qed.

Lemma accumulate_length (ws : list Q) : length (accumulate ws) = length ws.
Proof.
  destruct ws as [|x t]; simpl; [reflexivity|]. now rewrite accumulate_from_length.
Qed.

Lemma accumulate_from_nth (ws : list Q) (acc : Q) (i : nat) :
  (i < length ws)%nat ->
  nth i (accumulate_from acc ws) 0 == acc + Qsum (take (S i) ws).
Proof.
  revert acc i. induction ws as [|x t IH]; intros acc i Hi; simpl in Hi; [lia|].
  destruct i as [|i].
  - cbn [accumulate_from nth take]. rewrite Qsum_cons. unfold Qsum. simpl. lra.
  - cbn [accumulate_from nth]. rewrite IH by lia.
    change (take (S (S i)) (x :: t)) with (x :: take (S i) t).
    rewrite Qsum_cons. lra.
Qed.

(** The [i]-th cumulative weight is the sum of the first [i + 1] weights. *)
Lemma accumulate_nth (ws : list Q) (i : nat) :
  (i < length ws)%nat ->
  nth i (accumulate ws) 0 == Qsum (take (S i) ws).
Proof.
  destruct ws as [|x t]; intros Hi; simpl in Hi; [lia|].
  destruct i as [|i].
  - cbn [accumulate nth take]. rewrite Qsum_cons. unfold Qsum. simpl. lra.
  - cbn [accumulate nth]. rewrite accumulate_from_nth by lia.
    change (take (S (S i)) (x :: t)) with (x :: take (S i) t).
    rewrite Qsum_cons. lra.
Qed.

Lemma accumulate_last (ws : list Q) (total : Q) :
  last (accumulate ws) = Some total -> total == Qsum ws.
Proof.
  intros H. rewrite last_lookup, accumulate_length in H.
  assert (Hlen : (0 < length ws)%nat).
  { destruct ws; [discriminate | simpl; lia]. }
  pose proof (accumulate_nth ws (pred (length ws)) ltac:(lia)) as Hn.
  rewrite nth_lookup, H in Hn. simpl in Hn. rewrite Hn.
  replace (S (pred (length ws))) with (length ws) by lia.
  now rewrite firstn_all.
Qed.

(** What [random.choices] returns, for a draw in [0, 1): an element whose
    slice of the cumulative weights holds [draw * total]; its weight is
    therefore positive. *)
Lemma random_choices_spec {A : Type} (population : list A) (weights : list Q)
    (draw : Q) (x : A) :
  0 <= draw < 1 ->
  random_choices population weights draw = Ok x ->
  exists i w_i,
    population !! i = Some x
    /\ weights !! i = Some w_i
    /\ Qsum (take i weights) <= draw * Qsum weights < Qsum (take (S i) weights)
    /\ 0 < w_i.
Proof.
  intros [Hd0 Hd1]. unfold random_choices.
  rewrite accumulate_length.
  destruct (Nat.eqb_spec (length weights) (length population)) as [Hlen|]; [|discriminate].
  cbn [negb].
  destruct (last (accumulate weights)) as [total|] eqn:Hlast; [|discriminate].
  pose proof (accumulate_last _ _ Hlast) as Htotal.
  destruct (Qle_bool total 0) eqn:Epos; [discriminate|].
  apply Qle_bool_false in Epos.
  unfold bisect_right. rewrite Nat.sub_0_r.
  pose proof (bisect_right_loop_spec (length population - 1) (accumulate weights)
                (draw * total) 0 (length population - 1) ltac:(lia) ltac:(lia))
    as (Hr & Hl & Hh).
  cbv zeta in Hr, Hl, Hh.
  set (i := bisect_right_loop (length population - 1) (accumulate weights)
              (draw * total) 0 (length population - 1)) in *.
  destruct (population !! i) as [y|] eqn:Hpop; [|discriminate].
  intros [= ->].
  assert (Hi : (i < length weights)%nat).
  { rewrite Hlen. eapply lookup_lt_Some; eassumption. }
  destruct (lookup_lt_is_Some_2 weights i Hi) as [w_i Hw].
  assert (Hzero : 0 <= draw * total) by (apply Qmult_le_0_compat; lra).
  assert (Hlow : Qsum (take i weights) <= draw * total).
  { destruct (Nat.eq_dec i 0%nat) as [Hi0 | Hne].
    - rewrite Hi0. unfold Qsum. simpl. exact Hzero.
    - destruct Hl as [Hi0 | Hl]; [contradiction|].
      pose proof (accumulate_nth weights (i - 1) ltac:(lia)) as Hn.
      replace (S (i - 1)) with i in Hn by lia. lra. }
  assert (Hhigh : draw * total < Qsum (take (S i) weights)).
  { destruct Hh as [Heq | Hh].
    - replace (S i) with (length weights) by lia.
      rewrite firstn_all. nra.
    - pose proof (accumulate_nth weights i Hi) as Hn. lra. }
  exists i, w_i. split; [exact Hpop|]. split; [exact Hw|].
  pose proof (Qsum_app (take i weights) [w_i]) as Happ.
  rewrite <- (take_S_r _ _ _ Hw) in Happ.
  assert (Hone : Qsum [w_i] == w_i) by (unfold Qsum; simpl; lra).
  assert (Hscaled : draw * Qsum weights == draw * total) by (rewrite Htotal; reflexivity).
  repeat split; lra.
Qed.

(** With weights that are not negative and not all zero, [random.choices]
    returns an element. *)
Lemma random_choices_total {A : Type} (population : list A) (weights : list Q) (draw : Q) :
  length weights = length population ->
  Forall (fun x => 0 <= x) weights ->
  ~ Qsum weights == 0 ->
  exists x, random_choices population weights draw = Ok x.
Proof.
  intros Hlen Hnonneg Hsum. unfold random_choices.
  rewrite accumulate_length, Hlen, Nat.eqb_refl. cbn [negb].
  assert (Hpos : (0 < length weights)%nat).
  { destruct weights; [exfalso; apply Hsum; reflexivity | simpl; lia]. }
  destruct (last (accumulate weights)) as [total|] eqn:Hlast.
  2:{ rewrite last_lookup in Hlast. apply lookup_ge_None in Hlast.
      rewrite accumulate_length in Hlast. lia. }
  pose proof (accumulate_last _ _ Hlast) as Htotal.
  pose proof (Qsum_nonneg _ Hnonneg) as Hge.
  destruct (Qle_bool total 0) eqn:E.
  { apply Qle_bool_iff in E. exfalso. apply Hsum. lra. }
  unfold bisect_right. rewrite Nat.sub_0_r.
  pose proof (bisect_right_loop_spec (length population - 1) (accumulate weights)
                (draw * total) 0 (length population - 1) ltac:(lia) ltac:(lia))
    as (Hr & _ & _).
  cbv zeta in Hr.
  destruct (lookup_lt_is_Some_2 population
              (bisect_right_loop (length population - 1) (accumulate weights)
                 (draw * total) 0 (length population - 1)) ltac:(lia)) as [x Hx].
  rewrite Hx. now exists x.
Qed.

(** C8.  [get_block_finder] returns [None] when the total network hashrate
    or the difficulty is not positive, when there are no coalitions, and
    when the effective hashrates add up to zero.  When it returns a
    coalition, that coalition is the one whose slice of the cumulative
    effective hashrates holds the scaled draw, so its effective hashrate is
    positive; and with effective hashrates that are not negative the call
    always returns. *)
Theorem get_block_finder_spec (exp : Q -> Q) (w : World) (cs : list cref)
    (total_network_hashrate time_delta : Q) (difficulty : Z) (draw_block draw_winner : Q) :
  let found :=
    get_block_finder exp w cs total_network_hashrate time_delta difficulty
      draw_block draw_winner in
  let weights := map (get_effective_hashrate w) cs in
  (total_network_hashrate <= 0 \/ (difficulty <= 0)%Z \/ cs = [] \/ Qsum weights == 0 ->
   found = Ok None)
  /\ (0 <= draw_winner < 1 ->
      forall winner, found = Ok (Some winner) ->
        0 < get_effective_hashrate w winner
        /\ exists i,
             cs !! i = Some winner
             /\ Qsum (take i weights) <= draw_winner * Qsum weights
                < Qsum (take (S i) weights))
  /\ (Forall (fun x => 0 <= x) weights -> exists r, found = Ok r).
Proof.
  cbv zeta. unfold get_block_finder.
  destruct (Qle_bool total_network_hashrate 0) eqn:Et.
  { cbn [orb]. split; [reflexivity|]. split; [discriminate | now eexists]. }
  destruct (difficulty <=? 0)%Z eqn:Ed.
  { cbn [orb]. split; [reflexivity|]. split; [discriminate | now eexists]. }
  cbn [orb].
  destruct (Qle_bool _ draw_block).
  { split; [reflexivity|]. split; [discriminate | now eexists]. }
  destruct (length cs =? 0)%nat eqn:El.
  { cbn [orb]. split; [reflexivity|]. split; [discriminate | now eexists]. }
  cbn [orb].
  destruct (Qeq_bool _ 0) eqn:Es.
  { split; [reflexivity|]. split; [discriminate | now eexists]. }
  apply Qle_bool_false in Et. apply Z.leb_gt in Ed.
  apply Nat.eqb_neq in El. apply Qeq_bool_false in Es.
  split; [|split].
  - intros [H | [H | [H | H]]]; [lra | lia | subst; simpl in El; lia | contradiction].
  - intros Hdraw winner Hfound.
    destruct (random_choices cs _ draw_winner) as [x|e] eqn:Hchoice.
    2:{ destruct e; discriminate. }
    injection Hfound as ->.
    destruct (random_choices_spec _ _ _ _ Hdraw Hchoice) as (i & w_i & Hpop & Hw & Hslice & Hpos).
    rewrite list_lookup_fmap, Hpop in Hw. injection Hw as <-.
    split; [exact Hpos | now exists i].
  - intros Hnonneg.
    destruct (random_choices_total cs (map (get_effective_hashrate w) cs) draw_winner)
      as [x Hx]; [apply length_map | exact Hnonneg | exact Es |].
    rewrite Hx. now eexists.
Qed.

Lemma get_block_finder_spec_witness :
  get_block_finder exp_approx pool_world [] 400000000 1 15000000000 0 (1 # 2) = Ok None
  /\ 0 < get_effective_hashrate pool_world 0%nat
  /\ exists r,
       get_block_finder exp_approx pool_world [0%nat] 400000000 1 15000000000 0 (1 # 2) = Ok r.
Proof.
  split; [|split].
  - apply (get_block_finder_spec exp_approx pool_world [] 400000000 1 15000000000 0 (1 # 2)).
    right. right. left. reflexivity.
  - apply (get_block_finder_spec exp_approx pool_world [0%nat] 400000000 1 15000000000
             0 (1 # 2)).
    + split; vm_compute; [discriminate | reflexivity].
    + vm_compute. reflexivity.
  - apply (get_block_finder_spec exp_approx pool_world [0%nat] 400000000 1 15000000000
             0 (1 # 2)).
    repeat constructor. vm_compute. discriminate.
Defined.

(** ** Block handling *)

Lemma difference_update_absent (txs : list Transaction) (s : gmap Z Q) (k : Z) :
  s !! k = None -> difference_update s txs !! k = None.
Proof.
  unfold difference_update. revert s. induction txs as [|tx txs IH]; intros s H; simpl.
  - exact H.
  - apply IH. rewrite lookup_delete. destruct (decide (tx_id tx = k)); [reflexivity | exact H].
Qed.

Lemma difference_update_removed (txs : list Transaction) (s : gmap Z Q) (k : Z) :
  In k (map tx_id txs) -> difference_update s txs !! k = None.
Proof.
  revert s. induction txs as [|tx txs IH]; intros s Hin; simpl in Hin; [contradiction|].
  destruct Hin as [<- | Hin].
  - apply (difference_update_absent txs (delete (tx_id tx) s)). apply lookup_delete_eq.
  - apply (IH (delete (tx_id tx) s) Hin).
Qed.

Lemma clear_transactions_coalitions (w : World) (m : mref) (txs : list Transaction) :
  coalition_at (clear_transactions w m txs) = coalition_at w.
Proof. reflexivity. Qed.

Lemma clear_all_coalitions (txs : list Transaction) (ms : list mref) (w : World) :
  coalition_at (fold_left (fun w' miner => clear_transactions w' miner txs) ms w)
  = coalition_at w.
Proof.
  revert w. induction ms as [|m ms IH]; intros w; simpl; [reflexivity|].
  now rewrite IH.
Qed.

(** Once every miner of the list has been cleared, none of them holds a
    transaction of the block. *)
Lemma clear_all_transactions (txs : list Transaction) (ms : list mref) (w : World)
    (m : mref) (k : Z) :
  In k (map tx_id txs) ->
  In m ms \/ transactions (miner_at w m) !! k = None ->
  transactions
    (miner_at (fold_left (fun w' miner => clear_transactions w' miner txs) ms w) m) !! k
  = None.
Proof.
  intros Hk. revert w. induction ms as [|m0 ms IH]; intros w H; simpl.
  - destruct H as [[]|H]. exact H.
  - apply IH.
    unfold clear_transactions. cbn [set_miner miner_at].
    destruct (Nat.eqb_spec m m0) as [->|Hne].
    + right. cbn [miner_set_transactions transactions].
      now apply difference_update_removed.
    + destruct H as [[Heq|Hin]|H]; [congruence | now left | now right].
Qed.

Lemma distribute_rewards_coalition_pool
    (smart_contract : bool) (draw : Q) (w : World) (c c' : cref) (block_reward ecp_price : Q) :
  transaction_pool
    (coalition_at (distribute_rewards smart_contract draw w c block_reward ecp_price) c')
  = transaction_pool (coalition_at w c').
Proof.
  unfold distribute_rewards, distribute_rewards_calls.
  destruct (Qeq_bool _ 0); [reflexivity|].
  destruct (Qle_bool _ 0); [reflexivity|].
  match goal with
  | |- context [fold_left (reward_step c ?tw ?nr ecp_price) ?ms ?st] =>
      pose proof (reward_loop_calls c tw nr ecp_price w ms st (same_work_refl w)) as [[_ Hc] _];
      destruct (fold_left (reward_step c tw nr ecp_price) ms st) as [[w1 u1] calls1]
  end.
  cbn [fst snd] in *. cbn [set_coalition coalition_at].
  destruct (Nat.eqb_spec c' c) as [->|_]; [|now rewrite Hc].
  cbn [coalition_record_block transaction_pool]. now rewrite Hc.
Qed.

(** Removal from the global pool and from the miners of the engine. *)
Lemma handle_block_found_removes_aux (draw : Q) (eng : Engine) (coalition : cref)
    (tx : Transaction) :
  In tx (select_transactions_for_block (world eng) coalition TRANSACTIONS_PER_BLOCK_I) ->
  global_transaction_pool (handle_block_found draw eng coalition) !! tx_id tx = None
  /\ forall m, In m (eng_miners eng) ->
       transactions (miner_at (world (handle_block_found draw eng coalition)) m) !! tx_id tx
       = None.
Proof.
  intros Hin. unfold handle_block_found. cbn [global_transaction_pool world].
  assert (Hk : In (tx_id tx)
                 (map tx_id (select_transactions_for_block (world eng) coalition
                               TRANSACTIONS_PER_BLOCK_I)))
    by now apply in_map.
  split.
  - now apply difference_update_removed.
  - intros m Hm. apply clear_all_transactions; [exact Hk | now left].
Qed.

(** The pool [aggregate_transactions] builds holds only transactions its
    members hold. *)
Lemma aggregate_transactions_from_members (w : World) (c : cref) (tx : Transaction) :
  In tx (transaction_pool (coalition_at (aggregate_transactions w c) c)) ->
  exists member,
    In member (members (coalition_at w c))
    /\ transactions (miner_at w member) !! tx_id tx = Some (fee tx).
Proof.
  unfold aggregate_transactions.
  set (held := fun (acc : list Transaction * gset Z) =>
                 forall t, In t (fst acc) ->
                   exists member, In member (members (coalition_at w c))
                                  /\ transactions (miner_at w member) !! tx_id t = Some (fee t)).
  assert (Hinner : forall member txs acc,
             In member (members (coalition_at w c)) ->
             (forall t, In t txs ->
                transactions (miner_at w member) !! tx_id t = Some (fee t)) ->
             held acc ->
             held (fold_left
                     (fun (acc : list Transaction * gset Z) tx0 =>
                        if decide (tx_id tx0 ∈ snd acc) then acc
                        else (fst acc ++ [tx0], {[ tx_id tx0 ]} ∪ snd acc)) txs acc)).
  { intros member txs. induction txs as [|t0 txs IHt]; intros acc Hmem Htxs Hacc; simpl.
    - exact Hacc.
    - apply IHt; [exact Hmem | intros t Ht; apply Htxs; now right |].
      destruct (decide (tx_id t0 ∈ snd acc)); [exact Hacc|].
      intros t Ht. cbn [fst] in Ht. apply in_app_or in Ht.
      destruct Ht as [Ht | [<- | []]]; [now apply Hacc|].
      exists member. split; [exact Hmem | apply Htxs; now left]. }
  assert (Houter : forall ms acc,
             (forall member, In member ms -> In member (members (coalition_at w c))) ->
             held acc ->
             held (fold_left
                     (fun (acc : list Transaction * gset Z) member =>
                        fold_left
                          (fun (acc : list Transaction * gset Z) tx0 =>
                             if decide (tx_id tx0 ∈ snd acc) then acc
                             else (fst acc ++ [tx0], {[ tx_id tx0 ]} ∪ snd acc))
                          (get_transactions w member) acc) ms acc)).
  { intros ms. induction ms as [|member ms IHm]; intros acc Hsub Hacc; simpl.
    - exact Hacc.
    - apply IHm; [intros m' Hm'; apply Hsub; now right|].
      apply (Hinner member); [apply Hsub; now left | | exact Hacc].
      intros t Ht. unfold get_transactions in Ht. apply in_map_iff in Ht.
      destruct Ht as ([k v] & <- & Hkv). simpl.
      apply list_elem_of_In, elem_of_map_to_list in Hkv. exact Hkv. }
  specialize (Houter (members (coalition_at w c)) ([], ∅) (fun _ H => H)).
  destruct (fold_left _ _ _) as [pool seen].
  cbn [set_coalition coalition_at]. rewrite Nat.eqb_refl.
  cbn [coalition_set_pool transaction_pool].
  intros Hin. apply Houter; [|exact Hin].
  intros t [].
Qed.

(** The transactions of the block leave the coalition's pool when it is
    next rebuilt, provided the coalition's members are miners of the
    engine. *)
Lemma aggregate_after_block (draw : Q) (eng : Engine) (coalition : cref) (tx tx' : Transaction) :
  let eng' := handle_block_found draw eng coalition in
  (forall m, In m (members (coalition_at (world eng') coalition)) -> In m (eng_miners eng)) ->
  In tx (select_transactions_for_block (world eng) coalition TRANSACTIONS_PER_BLOCK_I) ->
  In tx' (transaction_pool
            (coalition_at (aggregate_transactions (world eng') coalition) coalition)) ->
  tx_id tx' <> tx_id tx.
Proof.
  cbv zeta. intros Hsub Hsel Hpool Heq.
  apply aggregate_transactions_from_members in Hpool.
  destruct Hpool as (member & Hmem & Hheld).
  destruct (handle_block_found_removes_aux draw eng coalition tx Hsel) as [_ Hminers].
  rewrite Heq, (Hminers member (Hsub member Hmem)) in Hheld. discriminate.
Qed.

(** C6, as the code has it.  [handle_block_found] removes every transaction
    selected for the block from the global pool and from the held set of
    every miner of the engine; it leaves the winning coalition's
    [transaction_pool] as it was, and the selected transactions leave that
    pool when [aggregate_transactions] next rebuilds it (the coalition's
    members being miners of the engine). *)
Theorem handle_block_found_removes (draw : Q) (eng : Engine) (coalition : cref) :
  let selected :=
    select_transactions_for_block (world eng) coalition TRANSACTIONS_PER_BLOCK_I in
  let eng' := handle_block_found draw eng coalition in
  (forall tx, In tx selected ->
     global_transaction_pool eng' !! tx_id tx = None
     /\ forall m, In m (eng_miners eng) ->
          transactions (miner_at (world eng') m) !! tx_id tx = None)
  /\ transaction_pool (coalition_at (world eng') coalition)
     = transaction_pool (coalition_at (world eng) coalition)
  /\ ((forall m, In m (members (coalition_at (world eng') coalition)) ->
         In m (eng_miners eng)) ->
      forall tx tx',
        In tx selected ->
        In tx' (transaction_pool
                  (coalition_at (aggregate_transactions (world eng') coalition) coalition)) ->
        tx_id tx' <> tx_id tx).
Proof.
  cbv zeta. split; [|split].
  - intros tx Hin. now apply handle_block_found_removes_aux.
  - unfold handle_block_found. cbn [world].
    rewrite clear_all_coalitions. cbn [set_coalition coalition_at].
    rewrite Nat.eqb_refl. cbn [coalition_set_blocks_found transaction_pool].
    apply distribute_rewards_coalition_pool.
  - intros Hsub tx tx' Hsel Hpool.
    exact (aggregate_after_block draw eng coalition tx tx' Hsub Hsel Hpool).
Qed.

Lemma handle_block_found_removes_witness :
  global_transaction_pool (handle_block_found 0 mining_engine 0%nat) !! 5%Z = None
  /\ transactions (miner_at (world (handle_block_found 0 mining_engine 0%nat)) 1%nat) !! 8%Z
     = None.
Proof.
  destruct (handle_block_found_removes 0 mining_engine 0%nat) as (Hremoved & _ & _).
  cbv zeta in Hremoved.
  split.
  - apply (Hremoved {| tx_id := 5; fee := 40 |}). vm_compute. left. reflexivity.
  - apply (Hremoved {| tx_id := 8; fee := 25 |}).
    + vm_compute. right. left. reflexivity.
    + right. left. reflexivity.
Defined.

(** C6 as stated fails for the coalition's pool: transaction 5 is selected
    for the block and is still in the winning coalition's pool when
    [handle_block_found] returns. *)
Lemma handle_block_found_keeps_coalition_pool :
  let tx := {| tx_id := 5; fee := 40 |} in
  In tx (select_transactions_for_block (world mining_engine) 0%nat TRANSACTIONS_PER_BLOCK_I)
  /\ In tx (transaction_pool
              (coalition_at (world (handle_block_found 0 mining_engine 0%nat)) 0%nat)).
Proof.
  split; vm_compute; left; reflexivity.
Qed.

(** ** Allocation of work time *)

Section DictFromList.

Context {A : Type} (key : A -> Z) (value : A -> Q).

Lemma fill_other (xs : list A) (d : gmap Z Q) (k : Z) :
  ~ In k (map key xs) -> fill key value xs d !! k = d !! k.
Proof.
  unfold fill. revert d. induction xs as [|x xs IH]; intros d Hk; simpl.
  - reflexivity.
  - rewrite IH by (intros H; apply Hk; now right).
    apply lookup_insert_ne. intros H. apply Hk. now left.
Qed.

Lemma fill_lookup (xs : list A) (d : gmap Z Q) (x : A) :
  NoDup (map key xs) -> In x xs -> fill key value xs d !! key x = Some (value x).
Proof.
  unfold fill. revert d. induction xs as [|y xs IH]; intros d Hnd Hin; simpl.
  - contradiction.
  - apply NoDup_cons in Hnd. destruct Hnd as [Hy Hnd'].
    rewrite list_elem_of_In in Hy.
    destruct Hin as [-> | Hin].
    + change (fill key value xs (<[key x:=value x]> d) !! key x = Some (value x)).
      rewrite fill_other by exact Hy. apply lookup_insert_eq.
    + now apply IH.
Qed.

Lemma fill_values (xs : list A) (d : gmap Z Q) (k : Z) (v : Q) :
  fill key value xs d !! k = Some v -> d !! k = Some v \/ exists x, In x xs /\ v = value x.
Proof.
  unfold fill. revert d. induction xs as [|y xs IH]; intros d H; simpl in H.
  - now left.
  - apply IH in H. destruct H as [H | (x & Hx & ->)].
    + rewrite lookup_insert in H. destruct (decide (key y = k)).
      * right. exists y. split; [now left | congruence].
      * now left.
    + right. exists x. split; [now right | reflexivity].
Qed.

Lemma allocation_total_insert (d : gmap Z Q) (k : Z) (v : Q) :
  d !! k = None -> allocation_total (<[ k := v ]> d) == allocation_total d + v.
Proof.
  intros H. unfold allocation_total.
  rewrite (Qsum_perm _ (map snd ((k, v) :: map_to_list d))).
  - cbn [map snd]. rewrite Qsum_cons. apply Qplus_comm.
  - apply Permutation_map. now apply map_to_list_insert.
Qed.

Lemma fill_total (xs : list A) (d : gmap Z Q) :
  NoDup (map key xs) ->
  (forall x, In x xs -> d !! key x = None) ->
  allocation_total (fill key value xs d) == allocation_total d + Qsum (map value xs).
Proof.
  unfold fill. revert d. induction xs as [|y xs IH]; intros d Hnd Hfresh; simpl.
  - unfold Qsum. simpl. lra.
  - apply NoDup_cons in Hnd. destruct Hnd as [Hy Hnd'].
    rewrite list_elem_of_In in Hy.
    rewrite IH; [| exact Hnd' |].
    + rewrite allocation_total_insert by (apply Hfresh; now left).
      rewrite Qsum_cons. lra.
    + intros x Hx. rewrite lookup_insert_ne.
      * apply Hfresh. now right.
      * intros Heq. apply Hy. rewrite Heq. now apply in_map.
Qed.

End DictFromList.

Lemma allocation_total_empty : allocation_total ∅ == 0.
Proof. unfold allocation_total. rewrite map_to_list_empty. reflexivity. Qed.

Lemma Qsum_constant {A : Type} (k : Q) (xs : list A) :
  Qsum (map (fun _ => k) xs) == inject_Z (Z.of_nat (length xs)) * k.
Proof.
  induction xs as [|x xs IH].
  - unfold Qsum. cbn [map fold_left length Z.of_nat]. change (inject_Z 0) with 0. ring.
  - cbn [map length]. rewrite Qsum_cons, IH, Nat2Z.inj_succ.
    unfold Z.succ. rewrite inject_Z_plus. change (inject_Z 1) with 1. ring.
Qed.

(** The first loop of [allocate_work_time]: the dictionary of utilities and
    their running total. *)
Lemma utilities_loop (w : World) (m : mref) (cs : list cref) (acc : gmap Z Q * Q) :
  fold_left
    (fun (acc : gmap Z Q * Q) coalition =>
       let utility := get_expected_member_utility w coalition m in
       let utilities :=
         <[ coalition_id (coalition_at w coalition) := Qmax 0 utility ]> (fst acc) in
       (utilities,
        snd acc + default 0 (utilities !! coalition_id (coalition_at w coalition))))
    cs acc
  = (fill (fun c => coalition_id (coalition_at w c))
       (fun c => Qmax 0 (get_expected_member_utility w c m)) cs (fst acc),
     fold_left (fun t c => t + Qmax 0 (get_expected_member_utility w c m)) cs (snd acc)).
Proof.
  unfold fill. revert acc. induction cs as [|c cs IH]; intros [u t]; simpl.
  - reflexivity.
  - rewrite IH. cbn [fst snd]. now rewrite lookup_insert_eq.
Qed.

Lemma inject_nat_pos (n : nat) : (0 < n)%nat -> 0 < inject_Z (Z.of_nat n).
Proof.
  intros H. change 0 with (inject_Z 0). rewrite <- Zlt_Qlt. lia.
Qed.

(** [allocate_work_time] replaces the allocation of the miner, and nothing
    else, by a mapping that fits its memberships. *)
Lemma allocate_work_time_shape (w : World) (m : mref) :
  exists a,
    allocate_work_time w m = set_miner w m (miner_set_allocation (miner_at w m) a)
    /\ (NoDup (map (fun c => coalition_id (coalition_at w c)) (coalitions (miner_at w m))) ->
        allocation_fits (coalitions (miner_at w m)) a).
Proof.
  unfold allocate_work_time.
  destruct (coalitions (miner_at w m)) as [|c0 [|c1 rest]] eqn:Hcs.
  - exists ∅. split; [reflexivity|]. intros _. reflexivity.
  - eexists. split; [reflexivity|]. intros _. split.
    + intros k v Hkv. apply lookup_singleton_Some in Hkv. destruct Hkv as [_ <-]. lra.
    + unfold allocation_total. rewrite map_to_list_singleton. unfold Qsum. simpl. lra.
  - rewrite utilities_loop. cbn [fst snd].
    set (cs := c0 :: c1 :: rest) in *.
    pose (key := fun c => coalition_id (coalition_at w c)).
    pose (g := fun c => Qmax 0 (get_expected_member_utility w c m)).
    set (total_utility :=
           fold_left (fun t c => t + Qmax 0 (get_expected_member_utility w c m)) cs 0).
    assert (Hlen : 0 < inject_Z (Z.of_nat (length cs))).
    { apply inject_nat_pos. simpl. lia. }
    assert (Htotal : total_utility == Qsum (map g cs)).
    { pose proof (fold_left_add_map g cs 0) as H. rewrite Qplus_0_l in H. exact H. }
    assert (Hg : forall c, 0 <= g c) by (intros c; apply Q.le_max_l).
    assert (Hsum : 0 <= Qsum (map g cs)).
    { apply Qsum_nonneg. apply List.Forall_forall. intros x Hx.
      apply in_map_iff in Hx. destruct Hx as (c & <- & _). apply Hg. }
    destruct (Qeq_bool total_utility 0) eqn:E.
    + exists (fill key (fun _ : cref => 1 / inject_Z (Z.of_nat (length cs))) cs ∅).
      split; [reflexivity|]. intros Hnd.
      split.
      * intros k v Hkv. apply fill_values in Hkv.
        destruct Hkv as [Hkv | (c & _ & ->)]; [now rewrite lookup_empty in Hkv|].
        apply Qle_shift_div_l; [exact Hlen | lra].
      * rewrite fill_total; [| exact Hnd | intros; apply lookup_empty].
        rewrite allocation_total_empty, Qsum_constant. field. lra.
    + apply Qeq_bool_false in E.
      exists (fill key (fun c => default 0 (fill key g cs ∅ !! key c) / total_utility) cs ∅).
      split; [reflexivity|]. intros Hnd.
      assert (Hpos : 0 < total_utility) by lra.
      split.
      * intros k v Hkv. apply fill_values in Hkv.
        destruct Hkv as [Hkv | (c & _ & ->)]; [now rewrite lookup_empty in Hkv|].
        apply Qle_shift_div_l; [exact Hpos|].
        destruct (fill key g cs ∅ !! key c) as [u|] eqn:Hu; simpl; [|lra].
        apply fill_values in Hu.
        destruct Hu as [Hu | (c' & _ & ->)]; [now rewrite lookup_empty in Hu|].
        pose proof (Hg c'). lra.
      * rewrite fill_total; [| exact Hnd | intros; apply lookup_empty].
        rewrite allocation_total_empty.
        rewrite (Qsum_map_ext _ (fun c => g c * / total_utility)).
        -- rewrite Qsum_map_scale, <- Htotal. field. lra.
        -- intros c Hc. rewrite (fill_lookup key g cs ∅ c Hnd Hc). reflexivity.
Qed.

Lemma coalition_in_ids (w : World) (c : cref) (l : list cref) :
  coalition_in w c l = true
  <-> In (coalition_id (coalition_at w c)) (map (fun r => coalition_id (coalition_at w r)) l).
Proof.
  unfold coalition_in, coalition_eq. rewrite existsb_exists, in_map_iff. split.
  - intros (r & Hin & Heq). apply Z.eqb_eq in Heq. now exists r.
  - intros (r & Heq & Hin). exists r. split; [exact Hin | now apply Z.eqb_eq].
Qed.

Lemma list_remove_found {A : Type} (is_x : A -> bool) (l : list A) :
  existsb is_x l = true -> exists l', list_remove is_x l = Ok l'.
Proof.
  induction l as [|y t IH]; intros H; simpl in *; [discriminate|].
  destruct (is_x y); [now eexists|].
  destruct (IH H) as [t' Ht']. rewrite Ht'. now eexists.
Qed.

Lemma list_remove_map {A B : Type} (f : A -> B) (is_x : B -> bool) (l l' : list A) :
  list_remove (fun a => is_x (f a)) l = Ok l' -> list_remove is_x (map f l) = Ok (map f l').
Proof.
  revert l'. induction l as [|y t IH]; intros l' H; simpl in *; [discriminate|].
  destruct (is_x (f y)); [now injection H as <-|].
  destruct (list_remove (fun a => is_x (f a)) t) as [t'|e]; [|discriminate].
  simpl in H. injection H as <-. now rewrite (IH t' eq_refl).
Qed.

Lemma list_remove_NoDup {A B : Type} (f : A -> B) (is_x : A -> bool) (l l' : list A) :
  list_remove is_x l = Ok l' -> NoDup (map f l) -> NoDup (map f l').
Proof.
  assert (Hsub : forall l l', list_remove is_x l = Ok l' -> forall a, In a l' -> In a l).
  { clear. induction l as [|y t IH]; intros l' H a Ha; simpl in *; [discriminate|].
    destruct (is_x y); [injection H as <-; now right|].
    destruct (list_remove is_x t) as [t'|e]; [|discriminate].
    simpl in H. injection H as <-. destruct Ha as [-> | Ha]; [now left|].
    right. now apply (IH t'). }
  revert l'. induction l as [|y t IH]; intros l' H Hnd; simpl in *; [discriminate|].
  apply NoDup_cons in Hnd. destruct Hnd as [Hy Hnd'].
  rewrite list_elem_of_In in Hy.
  destruct (is_x y); [now injection H as <-|].
  destruct (list_remove is_x t) as [t'|e] eqn:Ht; [|discriminate].
  simpl in H. injection H as <-. simpl. apply NoDup_cons. split.
  - rewrite list_elem_of_In. intros Hin. apply Hy. apply in_map_iff in Hin. destruct Hin as (a & Heq & Ha).
    apply in_map_iff. exists a. split; [exact Heq | now apply (Hsub t t')].
  - now apply IH.
Qed.

(** The invariant only reads the identifiers of the coalitions. *)
Lemma world_ok_same_ids (w w' : World) :
  miner_at w' = miner_at w ->
  (forall c, coalition_id (coalition_at w' c) = coalition_id (coalition_at w c)) ->
  world_ok w -> world_ok w'.
Proof.
  intros Hm Hc Hok m. destruct (Hok m) as [[Hids Hnd] Halloc].
  rewrite Hm. split; [|exact Halloc].
  unfold membership_ok.
  rewrite (map_ext (fun c => coalition_id (coalition_at w' c))
             (fun c => coalition_id (coalition_at w c)) Hc).
  now split.
Qed.

(** Reallocating one miner re-establishes its part of the invariant. *)
Lemma allocate_work_time_ok (w : World) (m : mref) :
  (forall r, membership_ok w (miner_at w r)) ->
  (forall r, r <> m -> allocation_ok (miner_at w r)) ->
  world_ok (allocate_work_time w m).
Proof.
  intros Hmem Halloc.
  destruct (allocate_work_time_shape w m) as (a & -> & Hfits).
  intros r. cbn [set_miner miner_at].
  destruct (Nat.eqb_spec r m) as [->|Hne].
  - destruct (Hmem m) as [Hids Hnd]. split.
    + split; [exact Hids | exact Hnd].
    + apply Hfits. exact Hnd.
  - split; [apply Hmem | now apply Halloc].
Qed.

Lemma join_coalition_ok (w : World) (m : mref) (c : cref) :
  world_ok w -> world_ok (fst (join_coalition w m c)).
Proof.
  intros Hok. unfold join_coalition.
  destruct (coalition_in w c (coalitions (miner_at w m))) eqn:Hin; [exact Hok|].
  cbn [fst]. apply allocate_work_time_ok.
  - intros r. unfold membership_ok. cbn [set_miner miner_at coalition_at].
    destruct (Nat.eqb_spec r m) as [->|Hne]; [|apply Hok].
    destruct (Hok m) as [[Hids Hnd] _].
    cbn [miner_set_membership coalitions coalition_ids].
    rewrite map_app, Hids. split; [reflexivity|].
    apply NoDup_app. split; [exact Hnd|]. split.
    + intros k Hk Hk'. apply list_elem_of_In in Hk, Hk'. destruct Hk' as [<- | []].
      apply coalition_in_ids in Hk. congruence.
    + simpl. apply NoDup_singleton.
  - intros r Hne. cbn [set_miner miner_at].
    destruct (Nat.eqb_spec r m) as [->|_]; [contradiction | apply Hok].
Qed.

Lemma leave_coalition_ok (w : World) (m : mref) (c : cref) :
  world_ok w ->
  exists w' left, leave_coalition w m c = Ok (w', left) /\ world_ok w'.
Proof.
  intros Hok. unfold leave_coalition.
  destruct (coalition_in w c (coalitions (miner_at w m))) eqn:Hin; cbn [negb].
  2:{ now exists w, false. }
  destruct (Hok m) as [[Hids Hnd] _].
  destruct (list_remove_found _ _ Hin) as [cs' Hcs'].
  pose proof (list_remove_map (fun r => coalition_id (coalition_at w r))
                (Z.eqb (coalition_id (coalition_at w c))) _ _ Hcs') as Hids'.
  rewrite <- Hids in Hids'.
  rewrite Hcs'. cbn [mbind result_bind]. rewrite Hids'. cbn [mbind result_bind].
  eexists. exists true. split; [reflexivity|].
  apply allocate_work_time_ok.
  - intros r. unfold membership_ok. cbn [set_miner miner_at coalition_at].
    destruct (Nat.eqb_spec r m) as [->|Hne]; [|apply Hok].
    cbn [miner_set_allocation miner_set_membership coalitions coalition_ids].
    split; [reflexivity|].
    exact (list_remove_NoDup _ _ _ _ Hcs' Hnd).
  - intros r Hne. cbn [set_miner miner_at].
    destruct (Nat.eqb_spec r m) as [->|_]; [contradiction | apply Hok].
Qed.

Lemma add_member_ok (w : World) (c : cref) (m : mref) :
  world_ok w -> world_ok (fst (add_member w c m)).
Proof.
  intros Hok. unfold add_member.
  destruct (miner_in w m _); [exact Hok|].
  destruct (_ && _); [exact Hok|].
  cbn [fst]. apply (world_ok_same_ids w); [reflexivity | | exact Hok].
  intros c'. cbn [set_coalition coalition_at].
  destruct (Nat.eqb_spec c' c) as [->|_]; reflexivity.
Qed.

Lemma remove_member_ok (w : World) (c : cref) (m : mref) :
  world_ok w ->
  exists w' removed, remove_member w c m = Ok (w', removed) /\ world_ok w'.
Proof.
  intros Hok. unfold remove_member.
  destruct (miner_in w m (members (coalition_at w c))) eqn:Hin; cbn [negb].
  2:{ now exists w, false. }
  destruct (list_remove_found _ _ Hin) as [ms Hms].
  rewrite Hms. cbn [mbind result_bind].
  eexists. exists true. split; [reflexivity|].
  apply (world_ok_same_ids w); [reflexivity | | exact Hok].
  intros c'. cbn [set_coalition coalition_at].
  destruct (Nat.eqb_spec c' c) as [->|_]; reflexivity.
Qed.

Lemma apply_op_ok (w : World) (op : membership_op) :
  world_ok w -> exists w', apply_op w op = Ok w' /\ world_ok w'.
Proof.
  intros Hok. destruct op as [m c | m c | m | c m | c m]; cbn [apply_op].
  - eexists. split; [reflexivity | now apply join_coalition_ok].
  - destruct (leave_coalition_ok w m c Hok) as (w' & b & -> & Hok').
    now exists w'.
  - eexists. split; [reflexivity|].
    apply allocate_work_time_ok; intros; apply Hok.
  - eexists. split; [reflexivity | now apply add_member_ok].
  - destruct (remove_member_ok w c m Hok) as (w' & b & -> & Hok').
    now exists w'.
Qed.

Lemma run_ops_ok (ops : list membership_op) (w : World) :
  world_ok w -> exists w', run_ops w ops = Ok w' /\ world_ok w'.
Proof.
  revert w. induction ops as [|op ops IH]; intros w Hok; cbn [run_ops].
  - now exists w.
  - destruct (apply_op_ok w op Hok) as (w1 & -> & Hok1).
    cbn [mbind result_bind]. now apply IH.
Qed.

Lemma fresh_world_ok (ids : mref -> Z) (hashrates : mref -> Q) (cs : cref -> Coalition) :
  world_ok (fresh_world ids hashrates cs).
Proof.
  intros m. split; [split|]; cbn; [reflexivity | constructor | reflexivity].
Qed.

(** C2.  Starting from freshly constructed miners, every sequence of
    [join_coalition], [leave_coalition] and [allocate_work_time] calls (on
    any miners, interleaved with [add_member] and [remove_member] on any
    coalitions) runs without raising, and afterwards every miner's
    allocation mapping is empty when it has no membership and otherwise has
    fractions that are not negative and add up to 1. *)
Theorem allocation_invariant
    (ids : mref -> Z) (hashrates : mref -> Q) (cs : cref -> Coalition)
    (ops : list membership_op) :
  exists w',
    run_ops (fresh_world ids hashrates cs) ops = Ok w'
    /\ forall m,
         (coalitions (miner_at w' m) = [] -> allocation (miner_at w' m) = ∅)
         /\ (coalitions (miner_at w' m) <> [] ->
             (forall k v, allocation (miner_at w' m) !! k = Some v -> 0 <= v)
             /\ allocation_total (allocation (miner_at w' m)) == 1).
Proof.
  destruct (run_ops_ok ops _ (fresh_world_ok ids hashrates cs)) as (w' & Hrun & Hok).
  exists w'. split; [exact Hrun|].
  intros m. destruct (Hok m) as [_ Halloc]. unfold allocation_ok, allocation_fits in Halloc.
  destruct (coalitions (miner_at w' m)); split; intros H; try congruence; exact Halloc.
Qed.

Lemma allocation_invariant_witness :
  exists w',
    run_ops start_world miner0_history = Ok w'
    /\ coalitions (miner_at w' 0%nat) = [1%nat]
    /\ allocation_total (allocation (miner_at w' 0%nat)) == 1.
Proof.
  destruct (allocation_invariant (fun r => Z.of_nat r) (fun _ => 300000000)
              (fun r => new_Coalition (7 + Z.of_nat r) (Some r)) miner0_history)
    as (w' & Hrun & Hinv).
  exists w'. split; [exact Hrun|].
  assert (Hcs : coalitions (miner_at w' 0%nat) = [1%nat]).
  { vm_compute in Hrun. injection Hrun as <-. reflexivity. }
  split; [exact Hcs|].
  apply (Hinv 0%nat). rewrite Hcs. discriminate.
Defined.

(** After joining a second coalition the miner keeps all its time on the
    first: the newcomer's share of the new coalition's work is computed from
    the allocation it had before joining. *)
Example allocation_after_second_join :
  exists w',
    run_ops start_world [ JoinCoalition 0 0; JoinCoalition 0 1 ]%nat = Ok w'
    /\ Qred <$> allocation (miner_at w' 0%nat) !! 7%Z = Some 1
    /\ Qred <$> allocation (miner_at w' 0%nat) !! 8%Z = Some 0.
Proof.
  eexists. split; [reflexivity|]. split; vm_compute; reflexivity.
Qed.

(** * Further properties of the modelled code *)

(** ** Selection of transactions for a block *)

Lemma insert_by_fee_perm (tx : Transaction) (l : list Transaction) :
  insert_by_fee tx l ≡ₚ tx :: l.
Proof.
  induction l as [|y t IH]; simpl; [reflexivity|].
  destruct (Qlt_bool (fee tx) (fee y)); [|reflexivity].
  rewrite IH. apply Permutation_swap.
Qed.

Lemma sorted_by_fee_desc_perm (l : list Transaction) : sorted_by_fee_desc l ≡ₚ l.
Proof.
  unfold sorted_by_fee_desc. induction l as [|x l IH]; simpl; [reflexivity|].
  now rewrite insert_by_fee_perm, IH.
Qed.

Lemma insert_by_fee_sorted (tx : Transaction) (l : list Transaction) :
  fee_descending l -> fee_descending (insert_by_fee tx l).
Proof.
  unfold fee_descending. induction l as [|y t IH]; intros Hs; simpl.
  - repeat constructor.
  - apply StronglySorted_inv in Hs. destruct Hs as [Ht Hy].
    destruct (Qlt_bool (fee tx) (fee y)) eqn:E.
    + apply Qlt_bool_iff in E. constructor; [now apply IH|].
      apply List.Forall_forall. intros b Hb.
      apply (Permutation_in _ (insert_by_fee_perm tx t)) in Hb.
      destruct Hb as [<- | Hb]; [lra|].
      rewrite List.Forall_forall in Hy. now apply Hy.
    + apply Qlt_bool_false in E. constructor; [now constructor|].
      constructor; [exact E|].
      rewrite List.Forall_forall in Hy |- *. intros b Hb.
      specialize (Hy b Hb). lra.
Qed.

Lemma sorted_by_fee_desc_sorted (l : list Transaction) :
  fee_descending (sorted_by_fee_desc l).
Proof.
  unfold sorted_by_fee_desc. induction l as [|x l IH]; simpl.
  - constructor.
  - now apply insert_by_fee_sorted.
Qed.

Lemma fee_descending_split (l : list Transaction) (n : nat) :
  fee_descending l ->
  fee_descending (take n l)
  /\ forall a b, In a (take n l) -> In b (drop n l) -> fee b <= fee a.
Proof.
  unfold fee_descending. revert n. induction l as [|x l IH]; intros n Hs.
  - rewrite take_nil, drop_nil. split; [constructor | intros a b []].
  - apply StronglySorted_inv in Hs. destruct Hs as [Hl Hx].
    destruct n as [|n]; cbn [take drop firstn skipn].
    + split; [constructor | intros a b []].
    + destruct (IH n Hl) as [IH1 IH2]. split.
      * constructor; [exact IH1|].
        rewrite List.Forall_forall in Hx |- *. intros b Hb.
        apply Hx. eapply (proj1 (list_elem_of_In _ _)).
        eapply (subseteq_take n l). now apply list_elem_of_In.
      * intros a b [<- | Ha] Hb.
        -- rewrite List.Forall_forall in Hx. apply Hx.
           apply list_elem_of_In. eapply (subseteq_drop n l). now apply list_elem_of_In.
        -- now apply IH2.
Qed.

(** X1.  [select_transactions_for_block] returns the highest-fee
    transactions of the pool: the selection and what it leaves behind are
    together a rearrangement of the pool, the selection has
    [min(max_transactions, len(pool))] entries in non-increasing order of
    fee, and nothing left behind has a higher fee than anything selected. *)
Theorem select_transactions_for_block_greedy (w : World) (c : cref) (max_transactions : nat) :
  let pool := transaction_pool (coalition_at w c) in
  let selected := select_transactions_for_block w c max_transactions in
  let left_out := drop max_transactions (sorted_by_fee_desc pool) in
  selected ++ left_out ≡ₚ pool
  /\ length selected = Nat.min max_transactions (length pool)
  /\ fee_descending selected
  /\ forall a b, In a selected -> In b left_out -> fee b <= fee a.
Proof.
  cbv zeta. unfold select_transactions_for_block.
  pose proof (sorted_by_fee_desc_sorted (transaction_pool (coalition_at w c))) as Hs.
  destruct (fee_descending_split _ max_transactions Hs) as [H1 H2].
  split; [|split; [|split]].
  - rewrite take_drop. apply sorted_by_fee_desc_perm.
  - rewrite length_take. now rewrite (Permutation_length (sorted_by_fee_desc_perm _)).
  - exact H1.
  - exact H2.
Qed.

(** ** Aggregation of the members' transactions *)

Lemma aggregate_transactions_pool (w : World) (c : cref) :
  transaction_pool (coalition_at (aggregate_transactions w c) c)
  = fst (fold_left
           (fun acc member => fold_left pool_add (get_transactions w member) acc)
           (members (coalition_at w c)) ([], ∅)).
Proof.
  unfold aggregate_transactions.
  change (fun (acc : list Transaction * gset Z) (tx : Transaction) =>
            if decide (tx_id tx ∈ snd acc) then acc
            else (fst acc ++ [tx], {[ tx_id tx ]} ∪ snd acc)) with pool_add.
  destruct (fold_left _ _ _) as [pool seen].
  cbn [set_coalition coalition_at]. rewrite Nat.eqb_refl. reflexivity.
Qed.

Lemma pool_add_ok (acc : list Transaction * gset Z) (tx : Transaction) :
  pool_acc_ok acc ->
  pool_acc_ok (pool_add acc tx)
  /\ forall k, In k (map tx_id (fst (pool_add acc tx)))
               <-> In k (map tx_id (fst acc)) \/ k = tx_id tx.
Proof.
  intros [Hnd Hseen]. unfold pool_add.
  destruct (decide (tx_id tx ∈ snd acc)) as [Hin|Hnin].
  - split; [now split|]. intros k. split; [now left|].
    intros [H | ->]; [exact H | now apply Hseen].
  - unfold pool_acc_ok. cbn [fst snd]. split; [split|].
    + rewrite map_app. apply NoDup_app. split; [exact Hnd|]. split.
      * intros k Hk Hk'. apply list_elem_of_In in Hk. apply list_elem_of_In in Hk'.
        destruct Hk' as [<- | []]. apply Hnin. now apply Hseen.
      * apply NoDup_singleton.
    + intros k. rewrite map_app, in_app_iff, elem_of_union, elem_of_singleton, Hseen.
      simpl. intuition.
    + intros k. rewrite map_app, in_app_iff. simpl. intuition.
Qed.

Lemma pool_add_all_ok (txs : list Transaction) (acc : list Transaction * gset Z) :
  pool_acc_ok acc ->
  pool_acc_ok (fold_left pool_add txs acc)
  /\ forall k, In k (map tx_id (fst (fold_left pool_add txs acc)))
               <-> In k (map tx_id (fst acc)) \/ In k (map tx_id txs).
Proof.
  revert acc. induction txs as [|tx txs IH]; intros acc Hok; cbn [fold_left map].
  - split; [exact Hok|]. intros k. simpl. intuition.
  - destruct (pool_add_ok acc tx Hok) as [Hok1 Hids1].
    destruct (IH _ Hok1) as [Hok2 Hids2].
    split; [exact Hok2|]. intros k. rewrite Hids2, Hids1. simpl. intuition.
Qed.

Lemma get_transactions_ids (w : World) (m : mref) (k : Z) :
  In k (map tx_id (get_transactions w m)) <-> is_Some (transactions (miner_at w m) !! k).
Proof.
  unfold get_transactions. rewrite map_map. cbn [tx_id]. split.
  - intros H. apply in_map_iff in H. destruct H as ([k' v] & <- & Hin).
    apply list_elem_of_In, elem_of_map_to_list in Hin. now exists v.
  - intros [v Hv]. apply in_map_iff. exists (k, v). split; [reflexivity|].
    apply list_elem_of_In, elem_of_map_to_list. exact Hv.
Qed.

Lemma aggregate_loop_ok (w : World) (ms : list mref) (acc : list Transaction * gset Z) :
  pool_acc_ok acc ->
  let acc' :=
    fold_left (fun acc member => fold_left pool_add (get_transactions w member) acc) ms acc in
  pool_acc_ok acc'
  /\ forall k, In k (map tx_id (fst acc'))
               <-> In k (map tx_id (fst acc))
                   \/ exists member, In member ms
                                     /\ is_Some (transactions (miner_at w member) !! k).
Proof.
  cbv zeta. revert acc. induction ms as [|m ms IH]; intros acc Hok; cbn [fold_left].
  - split; [exact Hok|]. intros k. split; [now left|].
    intros [H | (member & [] & _)]. exact H.
  - destruct (pool_add_all_ok (get_transactions w m) acc Hok) as [Hok1 Hids1].
    destruct (IH _ Hok1) as [Hok2 Hids2].
    split; [exact Hok2|]. intros k. rewrite Hids2, Hids1, get_transactions_ids. split.
    + intros [[H | H] | (member & Hin & Hheld)].
      * now left.
      * right. exists m. split; [now left | exact H].
      * right. exists member. split; [now right | exact Hheld].
    + intros [H | (member & [<- | Hin] & Hheld)].
      * left. now left.
      * left. now right.
      * right. now exists member.
Qed.

(** X2.  [aggregate_transactions] rebuilds the coalition's pool as the
    union of its members' held sets: every identifier occurs once, an
    identifier is in the pool exactly when some member holds it, and each
    pooled transaction carries the fee some member holds it with. *)
Theorem aggregate_transactions_union (w : World) (c : cref) :
  let pool := transaction_pool (coalition_at (aggregate_transactions w c) c) in
  NoDup (map tx_id pool)
  /\ (forall k, In k (map tx_id pool)
                <-> exists member, In member (members (coalition_at w c))
                                   /\ is_Some (transactions (miner_at w member) !! k))
  /\ (forall tx, In tx pool ->
        exists member, In member (members (coalition_at w c))
                       /\ transactions (miner_at w member) !! tx_id tx = Some (fee tx)).
Proof.
  cbv zeta. split; [|split].
  - rewrite aggregate_transactions_pool.
    apply (aggregate_loop_ok w (members (coalition_at w c)) ([], ∅)).
    split; [constructor | intros k; simpl; set_solver].
  - intros k. rewrite aggregate_transactions_pool.
    destruct (aggregate_loop_ok w (members (coalition_at w c)) ([], ∅)) as [_ Hids].
    { split; [constructor | intros k'; simpl; set_solver]. }
    cbv zeta in Hids. rewrite Hids. simpl. intuition.
  - intros tx. apply aggregate_transactions_from_members.
Qed.

(** ** Membership lists and head of a coalition *)



Lemma list_remove_length {A : Type} (is_x : A -> bool) (l l' : list A) :
  list_remove is_x l = Ok l' -> length l = S (length l').
Proof.
  revert l'. induction l as [|y t IH]; intros l' H; simpl in *; [discriminate|].
  destruct (is_x y).
  - now injection H as <-.
  - destruct (list_remove is_x t) as [t'|e]; [|discriminate].
    simpl in H. injection H as <-. simpl. now rewrite (IH t' eq_refl).
Qed.










(** ** The provider's ledger *)

Lemma allocate_compute_ledger (e : ECP) (c : cref) (n : Q) :
  let e' := fst (allocate_compute e c n) in
  let granted := snd (allocate_compute e c n) in
  current_load e' == current_load e + granted
  /\ current_demand e' == current_demand e + granted
  /\ total_demand e' == total_demand e + granted
  /\ total_revenue e' == total_revenue e + price_per_hash e * granted
  /\ total_cost e' == total_cost e + operating_cost_per_hash e * granted
  /\ compute_requests e'
     = compute_requests e ++ [{| req_coalition := c; nonce_range := n; allocated := granted |}]
  /\ price_per_hash e' = price_per_hash e
  /\ operating_cost_per_hash e' = operating_cost_per_hash e.
Proof.
  cbv zeta. unfold allocate_compute.
  destruct (Qle_bool _ 0); cbn; repeat split; try reflexivity; ring.
Qed.

Lemma allocate_all_ledger (reqs : list (cref * Q)) (e : ECP) :
  let e' := fst (allocate_all e reqs) in
  let granted := snd (allocate_all e reqs) in
  current_load e' == current_load e + Qsum granted
  /\ current_demand e' == current_demand e + Qsum granted
  /\ total_demand e' == total_demand e + Qsum granted
  /\ total_revenue e' == total_revenue e + price_per_hash e * Qsum granted
  /\ total_cost e' == total_cost e + operating_cost_per_hash e * Qsum granted
  /\ compute_requests e'
     = compute_requests e
       ++ map (fun rg => {| req_coalition := fst (fst rg); nonce_range := snd (fst rg);
                            allocated := snd rg |}) (combine reqs granted)
  /\ length granted = length reqs
  /\ price_per_hash e' = price_per_hash e
  /\ operating_cost_per_hash e' = operating_cost_per_hash e.
Proof.
  cbv zeta. revert e. induction reqs as [|[c n] rest IH]; intros e; cbn [allocate_all].
  - cbn. rewrite app_nil_r. unfold Qsum. cbn.
    repeat split; try reflexivity; ring.
  - pose proof (allocate_compute_ledger e c n) as Hstep. cbv zeta in Hstep.
    destruct (allocate_compute e c n) as [e1 g]. cbn [fst snd] in Hstep.
    destruct Hstep as (H1 & H2 & H3 & H4 & H5 & H6 & H7 & H8).
    specialize (IH e1).
    destruct (allocate_all e1 rest) as [e2 others]. cbn [fst snd] in *.
    destruct IH as (I1 & I2 & I3 & I4 & I5 & I6 & I7 & I8 & I9).
    rewrite Qsum_cons.
    split; [rewrite I1, H1; ring|].
    split; [rewrite I2, H2; ring|].
    split; [rewrite I3, H3; ring|].
    split; [rewrite I4, H4, H7; ring|].
    split; [rewrite I5, H5, H8; ring|].
    split; [rewrite I6, H6, <- app_assoc; reflexivity|].
    split; [cbn; now rewrite I7|].
    split; congruence.
Qed.

(** X4.  After a reset, whatever the requests, the provider's books
    balance: the load and the current demand are the sum of the amounts
    returned, cumulative demand, revenue and cost grow by that sum (times
    the price, times the operating cost), and every request is recorded
    with what it was granted, refused ones included. *)
Theorem allocate_compute_ledger_balanced (e : ECP) (reqs : list (cref * Q)) :
  let e' := fst (allocate_all (reset_load e) reqs) in
  let granted := snd (allocate_all (reset_load e) reqs) in
  current_load e' == Qsum granted
  /\ current_demand e' == Qsum granted
  /\ total_demand e' == total_demand e + Qsum granted
  /\ total_revenue e' == total_revenue e + price_per_hash e * Qsum granted
  /\ total_cost e' == total_cost e + operating_cost_per_hash e * Qsum granted
  /\ length granted = length reqs
  /\ compute_requests e'
     = map (fun rg => {| req_coalition := fst (fst rg); nonce_range := snd (fst rg);
                         allocated := snd rg |}) (combine reqs granted).
Proof.
  cbv zeta.
  pose proof (allocate_all_ledger reqs (reset_load e)) as H. cbv zeta in H.
  destruct H as (H1 & H2 & H3 & H4 & H5 & H6 & H7 & _ & _).
  cbn [reset_load current_load current_demand total_demand total_revenue total_cost
         price_per_hash operating_cost_per_hash compute_requests app] in *.
  repeat split; try assumption.
  - rewrite H1. ring.
  - rewrite H2. ring.
Qed.

(** ** Demand and pricing *)

Lemma get_total_work_no_members (w : World) (c : cref) :
  members (coalition_at w c) = [] -> get_total_work w c = 0.
Proof. unfold get_total_work. now intros ->. Qed.

Lemma calculate_optimal_compute_demand_nonneg (w : World) (c : cref) (price cost : Q) :
  0 <= calculate_optimal_compute_demand w c price cost.
Proof.
  unfold calculate_optimal_compute_demand.
  destruct (Qlt_bool _ price); [lra|].
  destruct (Qeq_bool _ 0); [lra|].
  apply Q.le_max_l.
Qed.

(** X5.  The demand heuristic of a coalition never returns a negative
    amount, returns nothing above the cut-off price (half the expected
    rewards) or without member work, never costs more than a fifth of the
    expected rewards at the quoted price, and never exceeds half of the
    members' own work. *)
Theorem calculate_optimal_compute_demand_bounds (w : World) (c : cref) (price cost : Q) :
  let demand := calculate_optimal_compute_demand w c price cost in
  let rewards := expected_rewards (coalition_at w c) in
  0 <= demand
  /\ (rewards * (5 # 10) < price -> demand = 0)
  /\ (get_total_work w c == 0 -> demand = 0)
  /\ demand * price <= Qmax 0 (rewards * (2 # 10))
  /\ (0 < get_total_work w c -> demand <= get_total_work w c * (5 # 10)).
Proof.
  cbv zeta. unfold calculate_optimal_compute_demand.
  destruct (Qlt_bool (expected_rewards (coalition_at w c) * (5 # 10)) price) eqn:Ecut.
  { pose proof (Q.le_max_l 0 (expected_rewards (coalition_at w c) * (2 # 10))).
    repeat split; try reflexivity; try lra. }
  apply Qlt_bool_false in Ecut.
  destruct (Qeq_bool (get_total_work w c) 0) eqn:Ework.
  { pose proof (Q.le_max_l 0 (expected_rewards (coalition_at w c) * (2 # 10))).
    apply Qeq_bool_iff in Ework.
    repeat split; try reflexivity; try lra. }
  apply Qeq_bool_false in Ework.
  set (mh := get_total_work w c) in *.
  set (R := expected_rewards (coalition_at w c)) in *.
  assert (Hn : 1 <= inject_Z (Z.of_nat (get_size w c))).
  { unfold get_size. destruct (members (coalition_at w c)) eqn:Hms.
    - exfalso. apply Ework. unfold mh. now rewrite get_total_work_no_members.
    - change 1 with (inject_Z 1). rewrite <- Zle_Qle. simpl length. lia. }
  set (n := inject_Z (Z.of_nat (get_size w c))) in *.
  assert (Hden : 1 <= 1 + (n - 1) * (1 # 10)) by lra.
  set (factor := (5 # 10) / (1 + (n - 1) * (1 # 10))).
  assert (Hfactor : 0 < factor /\ factor <= 5 # 10).
  { unfold factor. split.
    - apply Qlt_shift_div_l; lra.
    - apply Qle_shift_div_r; lra. }
  pose proof (Q.le_max_l 0 (R * (2 # 10))) as Hb0.
  pose proof (Q.le_max_r 0 (R * (2 # 10))) as Hb1.
  split; [apply Q.le_max_l|].
  split; [intros; lra|].
  split; [intros; contradiction|].
  destruct (Qlt_bool (R * (2 # 10)) (mh * factor * price)) eqn:Ecost.
  - apply Qlt_bool_iff in Ecost.
    destruct (Qlt_bool 0 price) eqn:Eprice.
    + apply Qlt_bool_iff in Eprice.
      assert (Hx : R * (2 # 10) / price * price == R * (2 # 10)) by (field; lra).
      assert (Hlt : R * (2 # 10) / price < mh * factor).
      { apply Qlt_shift_div_r; [exact Eprice | lra]. }
      destruct (Q.max_spec 0 (R * (2 # 10) / price)) as [[Hc Hm] | [Hc Hm]]; rewrite Hm.
      * split; [lra|]. intros Hmh. nra.
      * split; [lra|]. intros Hmh. nra.
    + destruct (Q.max_spec 0 0) as [[Hc Hm] | [Hc Hm]]; rewrite Hm;
        (split; [lra | intros; lra]).
  - apply Qlt_bool_false in Ecost.
    destruct (Q.max_spec 0 (mh * factor)) as [[Hc Hm] | [Hc Hm]]; rewrite Hm.
    + split; [lra|]. intros Hmh. nra.
    + split; [lra|]. intros Hmh. lra.
Qed.

Lemma calculate_optimal_compute_demand_witness :
  calculate_optimal_compute_demand pool_world 0%nat 600 (5 # 10) = 0
  /\ calculate_optimal_compute_demand pool_world 0%nat 200 (5 # 10)
     <= get_total_work pool_world 0%nat * (5 # 10).
Proof.
  split.
  - destruct (calculate_optimal_compute_demand_bounds pool_world 0%nat 600 (5 # 10))
      as (_ & Hcut & _).
    apply Hcut. vm_compute. reflexivity.
  - destruct (calculate_optimal_compute_demand_bounds pool_world 0%nat 200 (5 # 10))
      as (_ & _ & _ & _ & Hhalf).
    apply Hhalf. vm_compute. reflexivity.
Defined.

Lemma total_demand_nonneg (e : ECP) (w : World) (cs : list cref) (price : Q) :
  0 <= fold_left
         (fun total_demand coalition =>
            total_demand
            + calculate_optimal_compute_demand w coalition price (operating_cost_per_hash e))
         cs 0.
Proof.
  rewrite (fold_left_add_map
             (fun coalition =>
                calculate_optimal_compute_demand w coalition price (operating_cost_per_hash e))).
  rewrite Qplus_0_l. apply Qsum_nonneg. apply List.Forall_forall.
  intros x Hx. apply in_map_iff in Hx. destruct Hx as (c & <- & _).
  apply calculate_optimal_compute_demand_nonneg.
Qed.

(** X6.  The utility the provider expects at a price is never negative; with
    a capacity that is not negative it is nothing at or below the operating
    cost, and above it at most the margin times the capacity. *)
Theorem calculate_utility_at_price_bounds (e : ECP) (w : World) (cs : list cref) (price : Q) :
  0 <= total_capacity e ->
  0 <= calculate_utility_at_price e w cs price
  /\ (price <= operating_cost_per_hash e -> calculate_utility_at_price e w cs price == 0)
  /\ (operating_cost_per_hash e <= price ->
      calculate_utility_at_price e w cs price
      <= (price - operating_cost_per_hash e) * total_capacity e).
Proof.
  intros Hcap. unfold calculate_utility_at_price.
  pose proof (total_demand_nonneg e w cs price) as Hd.
  set (D := fold_left _ cs 0) in *.
  assert (Hmin : 0 <= Qmin D (total_capacity e) <= total_capacity e).
  { split; [apply Q.min_glb; assumption | apply Q.le_min_r]. }
  set (M := Qmin D (total_capacity e)) in *.
  split; [apply Q.le_max_l|]. split.
  - intros Hp.
    destruct (Q.max_spec 0 ((price - operating_cost_per_hash e) * M)) as [[Hc Hm] | [Hc Hm]];
      rewrite Hm; [nra | reflexivity].
  - intros Hp.
    destruct (Q.max_spec 0 ((price - operating_cost_per_hash e) * M)) as [[Hc Hm] | [Hc Hm]];
      rewrite Hm; nra.
Qed.

Lemma calculate_utility_at_price_bounds_witness :
  calculate_utility_at_price new_ECP pool_world [0%nat] (1 # 4) == 0
  /\ calculate_utility_at_price new_ECP pool_world [0%nat] 200
     <= (200 - ECP_OPERATING_COST_C) * ECP_MAX_CAPACITY_L.
Proof.
  split.
  - apply (calculate_utility_at_price_bounds new_ECP pool_world [0%nat] (1 # 4));
      vm_compute; discriminate.
  - apply (calculate_utility_at_price_bounds new_ECP pool_world [0%nat] 200);
      vm_compute; discriminate.
Defined.

(** ** Prices a provider can reach *)

Lemma set_optimal_price_keeps_band (e : ECP) (w : World) (cs : list cref) :
  in_price_band (price_per_hash e) ->
  Forall in_price_band (price_history e) ->
  in_price_band (price_per_hash (set_optimal_price e w cs))
  /\ Forall in_price_band (price_history (set_optimal_price e w cs)).
Proof.
  intros Hp Hh. unfold set_optimal_price.
  destruct (length cs =? 0)%nat; [now split|].
  cbn [price_per_hash price_history].
  assert (Hnew : in_price_band
                   (price_ascent STACKELBERG_MAX_ITERATIONS e w cs (price_per_hash e)
                      STACKELBERG_LEARNING_RATE)).
  { destruct (price_ascent_band STACKELBERG_MAX_ITERATIONS e w cs (price_per_hash e)
                STACKELBERG_LEARNING_RATE) as [-> | H]; assumption. }
  split; [exact Hnew|].
  apply Forall_app. split; [exact Hh | now constructor].
Qed.

Lemma apply_ecp_op_price (e : ECP) (op : ecp_op) :
  in_price_band (price_per_hash e) /\ Forall in_price_band (price_history e) ->
  in_price_band (price_per_hash (apply_ecp_op e op))
  /\ Forall in_price_band (price_history (apply_ecp_op e op)).
Proof.
  intros [Hp Hh]. destruct op as [w cs | c n | | w cs | w reqs | ]; cbn [apply_ecp_op].
  - now apply set_optimal_price_keeps_band.
  - unfold allocate_compute. destruct (Qle_bool _ 0); now split.
  - now split.
  - now split.
  - unfold optimize_overlapping_work.
    destruct (negb _); [now split|]. destruct (_ <? 2)%nat; now split.
  - now split.
Qed.

(** X7.  Whatever calls a newly created provider receives, in whatever
    order and with whatever arguments, its price and every price recorded
    in its history lie in the band from [ECP_PRICE_MIN] to
    [ECP_PRICE_MAX]. *)
Theorem provider_prices_in_band (ops : list ecp_op) :
  in_price_band (price_per_hash (run_ecp_ops new_ECP ops))
  /\ Forall in_price_band (price_history (run_ecp_ops new_ECP ops)).
Proof.
  unfold run_ecp_ops.
  assert (H : forall e,
             in_price_band (price_per_hash e) /\ Forall in_price_band (price_history e) ->
             in_price_band (price_per_hash (fold_left apply_ecp_op ops e))
             /\ Forall in_price_band (price_history (fold_left apply_ecp_op ops e))).
  { induction ops as [|op ops IH]; intros e He; cbn [fold_left]; [exact He|].
    apply IH. now apply apply_ecp_op_price. }
  apply H. split; [|constructor].
  unfold in_price_band. cbn. split; vm_compute; discriminate.
Qed.

(** ** Overlap between coalitions *)

Lemma inject_nat_nonneg (n : nat) : 0 <= inject_Z (Z.of_nat n).
Proof. change 0 with (inject_Z 0). rewrite <- Zle_Qle. lia. Qed.

Lemma inject_nat_le (a b : nat) : (a <= b)%nat -> inject_Z (Z.of_nat a) <= inject_Z (Z.of_nat b).
Proof. intros H. rewrite <- Zle_Qle. lia. Qed.

Lemma calculate_overlap_ratio_range (e : ECP) (w : World) (c1 c2 : cref) :
  0 <= calculate_overlap_ratio e w c1 c2 <= 1.
Proof.
  unfold calculate_overlap_ratio.
  set (m1 := default ∅ (membership_graph e !! coalition_id (coalition_at w c1))).
  set (m2 := default ∅ (membership_graph e !! coalition_id (coalition_at w c2))).
  destruct (Nat.eqb_spec (size m1) 0) as [|H1]; cbn [orb]; [lra|].
  destruct (Nat.eqb_spec (size m2) 0) as [|H2]; cbn [orb]; [lra|].
  assert (Hden : 0 < inject_Z (Z.of_nat (Nat.max (size m1) (size m2)))).
  { apply inject_nat_pos. lia. }
  assert (Hnum : inject_Z (Z.of_nat (size (m1 ∩ m2)))
                 <= inject_Z (Z.of_nat (Nat.max (size m1) (size m2)))).
  { apply inject_nat_le.
    assert (size (m1 ∩ m2) <= size m1)%nat by (apply subseteq_size; set_solver).
    lia. }
  split.
  - apply Qle_shift_div_l; [exact Hden|]. pose proof (inject_nat_nonneg (size (m1 ∩ m2))). lra.
  - apply Qle_shift_div_r; [exact Hden | lra].
Qed.

(** X8.  The overlap ratio of two coalitions lies between 0 and 1, does not
    depend on the order of the two, and is 0 when the graph has no entry
    for one of them or when they share no member. *)
Theorem calculate_overlap_ratio_properties (e : ECP) (w : World) (c1 c2 : cref) :
  0 <= calculate_overlap_ratio e w c1 c2 <= 1
  /\ calculate_overlap_ratio e w c1 c2 = calculate_overlap_ratio e w c2 c1
  /\ (membership_graph e !! coalition_id (coalition_at w c1) = None ->
      calculate_overlap_ratio e w c1 c2 = 0)
  /\ (default ∅ (membership_graph e !! coalition_id (coalition_at w c1))
      ## default ∅ (membership_graph e !! coalition_id (coalition_at w c2)) ->
      calculate_overlap_ratio e w c1 c2 == 0).
Proof.
  split; [apply calculate_overlap_ratio_range|].
  unfold calculate_overlap_ratio.
  set (m1 := default ∅ (membership_graph e !! coalition_id (coalition_at w c1))).
  set (m2 := default ∅ (membership_graph e !! coalition_id (coalition_at w c2))).
  split; [|split].
  - rewrite (orb_comm (size m2 =? 0)%nat), (Nat.max_comm (size m2)).
    now rewrite (comm_L (∩) m2 m1).
  - intros Hnone. unfold m1. rewrite Hnone. cbn. reflexivity.
  - intros Hdisj. destruct (_ || _); [reflexivity|].
    assert (Hempty : m1 ∩ m2 = ∅) by set_solver.
    rewrite Hempty, size_empty. cbn [Z.of_nat]. unfold Qdiv. change (inject_Z 0) with 0. ring.
Qed.

Lemma calculate_overlap_ratio_witness :
  calculate_overlap_ratio new_ECP pool_world 0%nat 0%nat = 0
  /\ calculate_overlap_ratio graph_ECP pool_world 0%nat 0%nat == 1.
Proof.
  split.
  - apply (calculate_overlap_ratio_properties new_ECP pool_world 0%nat 0%nat).
    reflexivity.
  - vm_compute. reflexivity.
Defined.

(** ** The membership graph *)

Lemma graph_fold_other (w : World) (cs : list cref) (g : gmap Z (gset Z)) (k : Z) :
  ~ In k (map (fun c => coalition_id (coalition_at w c)) cs) ->
  fold_left (fun g c => <[ coalition_id (coalition_at w c) := member_ids w c ]> g) cs g !! k
  = g !! k.
Proof.
  revert g. induction cs as [|c cs IH]; intros g Hk; cbn [fold_left]; [reflexivity|].
  rewrite IH by (intros Hin; apply Hk; now right).
  apply lookup_insert_ne. intros Heq. apply Hk. now left.
Qed.

Lemma graph_fold_lookup (w : World) (cs : list cref) (g : gmap Z (gset Z)) (c : cref) :
  NoDup (map (fun c => coalition_id (coalition_at w c)) cs) ->
  In c cs ->
  fold_left (fun g c => <[ coalition_id (coalition_at w c) := member_ids w c ]> g) cs g
    !! coalition_id (coalition_at w c)
  = Some (member_ids w c).
Proof.
  revert g. induction cs as [|c0 cs IH]; intros g Hnd Hin; cbn [fold_left]; [contradiction|].
  cbn [map] in Hnd. apply NoDup_cons in Hnd. destruct Hnd as [Hc0 Hnd].
  rewrite list_elem_of_In in Hc0.
  destruct Hin as [-> | Hin].
  - rewrite graph_fold_other by exact Hc0. apply lookup_insert_eq.
  - now apply IH.
Qed.

(** X9.  [update_membership_graph] rebuilds the graph from the coalitions
    it is given: a coalition of the list (identifiers distinct) is mapped
    to the set of its members' identifiers, and an identifier that is not
    in the list has no entry, whatever the graph held before. *)
Theorem update_membership_graph_lookup (e : ECP) (w : World) (cs : list cref) :
  NoDup (map (fun c => coalition_id (coalition_at w c)) cs) ->
  (forall c, In c cs ->
     membership_graph (update_membership_graph e w cs) !! coalition_id (coalition_at w c)
     = Some (member_ids w c))
  /\ (forall k, ~ In k (map (fun c => coalition_id (coalition_at w c)) cs) ->
        membership_graph (update_membership_graph e w cs) !! k = None).
Proof.
  intros Hnd. unfold update_membership_graph. cbn [ecp_set_graph membership_graph]. split.
  - intros c Hin. now apply graph_fold_lookup.
  - intros k Hk. rewrite graph_fold_other by exact Hk. apply lookup_empty.
Qed.

Lemma update_membership_graph_lookup_witness :
  membership_graph graph_ECP !! 7%Z = Some (member_ids pool_world 0%nat)
  /\ membership_graph graph_ECP !! 8%Z = None.
Proof.
  destruct (update_membership_graph_lookup new_ECP pool_world [0%nat]) as [Hin Hout].
  - cbn. apply NoDup_singleton.
  - split.
    + apply (Hin 0%nat). now left.
    + apply Hout. cbn. intros [H | []]. discriminate.
Defined.

(** ** Savings from overlapping work *)

Lemma fold_left_add_if {A : Type} (cond : A -> bool) (f : A -> Q) (l : list A) (a : Q) :
  fold_left (fun t x => if cond x then t + f x else t) l a
  == a + Qsum (map (fun x => if cond x then f x else 0) l).
Proof.
  revert a. induction l as [|x l IH]; intros a; cbn [fold_left map].
  - unfold Qsum. cbn. ring.
  - rewrite IH, Qsum_cons. destruct (cond x); ring.
Qed.

Lemma combinations2_in {A : Type} (l : list A) (x y : A) :
  In (x, y) (combinations2 l) -> In x l /\ In y l.
Proof.
  induction l as [|z t IH]; cbn [combinations2]; [intros []|].
  intros H. apply in_app_or in H. destruct H as [H | H].
  - apply in_map_iff in H. destruct H as (y' & [= <- <-] & Hy). split; [now left | now right].
  - destruct (IH H). split; now right.
Qed.

Lemma overlap_total_sum (e : ECP) (w : World) (requests : list ComputeRequest) :
  overlap_total e w requests
  == Qsum (map (fun p : ComputeRequest * ComputeRequest =>
                  if Qle_bool OVERLAP_THRESHOLD
                       (calculate_overlap_ratio e w (req_coalition (fst p))
                          (req_coalition (snd p)))
                  then calculate_overlap_savings e (fst p) (snd p)
                         (calculate_overlap_ratio e w (req_coalition (fst p))
                            (req_coalition (snd p)))
                  else 0) (combinations2 requests)).
Proof.
  unfold overlap_total.
  rewrite (fold_left_add_if
             (fun p : ComputeRequest * ComputeRequest =>
                Qle_bool OVERLAP_THRESHOLD
                  (calculate_overlap_ratio e w (req_coalition (fst p)) (req_coalition (snd p))))
             (fun p => calculate_overlap_savings e (fst p) (snd p)
                         (calculate_overlap_ratio e w (req_coalition (fst p))
                            (req_coalition (snd p))))).
  ring.
Qed.

Lemma Qsum_le {A : Type} (f g : A -> Q) (l : list A) :
  (forall x, In x l -> f x <= g x) -> Qsum (map f l) <= Qsum (map g l).
Proof.
  induction l as [|x l IH]; intros H; cbn [map].
  - lra.
  - rewrite !Qsum_cons.
    assert (f x <= g x) by (apply H; now left).
    assert (Qsum (map f l) <= Qsum (map g l)) by (apply IH; intros; apply H; now right).
    lra.
Qed.

(** X10.  [optimize_overlapping_work] does nothing with fewer than two
    requests.  Otherwise it counts one optimisation and adds to the
    accumulated savings exactly what it returns; with an operating cost and
    requested amounts that are not negative, that amount is not negative and
    is at most a quarter of the operating cost of the smaller request of
    each pair. *)
Theorem optimize_overlapping_work_savings (e : ECP) (w : World)
    (requests : list ComputeRequest) :
  let e' := fst (optimize_overlapping_work e w requests) in
  let savings := snd (optimize_overlapping_work e w requests) in
  ((length requests < 2)%nat -> e' = e /\ savings = 0)
  /\ ((2 <= length requests)%nat ->
      overlap_savings e' = overlap_savings e + savings
      /\ optimization_count e' = (optimization_count e + 1)%Z)
  /\ (0 <= operating_cost_per_hash e ->
      Forall (fun r => 0 <= nonce_range r) requests ->
      0 <= savings
      /\ savings
         <= Qsum (map (fun p : ComputeRequest * ComputeRequest =>
                         Qmin (nonce_range (fst p)) (nonce_range (snd p))
                         * operating_cost_per_hash e * OVERLAP_SAVINGS_FACTOR)
                    (combinations2 requests))).
Proof.
  cbv zeta. unfold optimize_overlapping_work. cbn [ECP_OPTIMIZATION_ENABLED negb].
  destruct (Nat.ltb_spec (length requests) 2) as [Hlt | Hge]; cbn [fst snd].
  - split; [now split|]. split; [lia|].
    intros Hcost Hreqs. split; [lra|].
    apply Qsum_nonneg. apply List.Forall_forall. intros x Hx.
    apply in_map_iff in Hx. destruct Hx as ([r1 r2] & <- & Hp).
    apply combinations2_in in Hp. destruct Hp as [H1 H2].
    rewrite List.Forall_forall in Hreqs.
    pose proof (Hreqs r1 H1). pose proof (Hreqs r2 H2).
    assert (0 <= Qmin (nonce_range r1) (nonce_range r2)) by (apply Q.min_glb; assumption).
    unfold OVERLAP_SAVINGS_FACTOR. cbn [fst snd]. nra.
  - split; [lia|]. split; [now split|].
    intros Hcost Hreqs. rewrite overlap_total_sum.
    assert (Hpair : forall p : ComputeRequest * ComputeRequest,
               In p (combinations2 requests) ->
               0 <= (if Qle_bool OVERLAP_THRESHOLD
                          (calculate_overlap_ratio e w (req_coalition (fst p))
                             (req_coalition (snd p)))
                     then calculate_overlap_savings e (fst p) (snd p)
                            (calculate_overlap_ratio e w (req_coalition (fst p))
                               (req_coalition (snd p)))
                     else 0)
               <= Qmin (nonce_range (fst p)) (nonce_range (snd p))
                  * operating_cost_per_hash e * OVERLAP_SAVINGS_FACTOR).
    { intros [r1 r2] Hp. apply combinations2_in in Hp. destruct Hp as [H1 H2].
      rewrite List.Forall_forall in Hreqs.
      pose proof (Hreqs r1 H1). pose proof (Hreqs r2 H2).
      assert (Hm : 0 <= Qmin (nonce_range r1) (nonce_range r2))
        by (apply Q.min_glb; assumption).
      cbn [fst snd].
      pose proof (calculate_overlap_ratio_range e w (req_coalition r1) (req_coalition r2))
        as [Hr0 Hr1].
      unfold calculate_overlap_savings, OVERLAP_SAVINGS_FACTOR.
      set (r := calculate_overlap_ratio e w (req_coalition r1) (req_coalition r2)) in *.
      set (mn := Qmin (nonce_range r1) (nonce_range r2)) in *.
      assert (0 <= mn * operating_cost_per_hash e) by nra.
      destruct (Qle_bool _ r); nra. }
    split.
    + apply Qsum_nonneg. apply List.Forall_forall. intros x Hx.
      apply in_map_iff in Hx. destruct Hx as (p & <- & Hp). now apply Hpair.
    + apply Qsum_le. intros p Hp. now apply Hpair.
Qed.

Lemma optimize_overlapping_work_savings_witness :
  snd (optimize_overlapping_work graph_ECP pool_world demo_requests) == 15 # 2
  /\ 0 <= snd (optimize_overlapping_work graph_ECP pool_world demo_requests)
  /\ fst (optimize_overlapping_work graph_ECP pool_world (take 1 demo_requests)) = graph_ECP.
Proof.
  split; [vm_compute; reflexivity|].
  destruct (optimize_overlapping_work_savings graph_ECP pool_world demo_requests)
    as (_ & _ & Hnonneg).
  destruct (optimize_overlapping_work_savings graph_ECP pool_world (take 1 demo_requests))
    as (Hfew & _ & _).
  split.
  - apply Hnonneg; [vm_compute; discriminate|].
    repeat constructor; vm_compute; discriminate.
  - apply Hfew. cbn. lia.
Defined.

(** ** Utility of the provider *)

(** X11.  With an operating cost and a cumulative demand that are not
    negative, the utility [ECP.calculate_utility] records is never below the
    plain margin-times-demand utility of [calculate_ecp_utility] and never
    above price times demand: overlap savings can lower the effective cost
    to zero and no further.  Without accumulated savings the two utilities
    are the same. *)
Theorem calculate_utility_with_savings (e : ECP) :
  0 <= operating_cost_per_hash e ->
  0 <= total_demand e ->
  let u := snd (calculate_utility e) in
  0 <= calculate_ecp_utility e
  /\ calculate_ecp_utility e <= u
  /\ u <= Qmax 0 (price_per_hash e * total_demand e)
  /\ (overlap_savings e <= 0 -> u = calculate_ecp_utility e)
  /\ e_current_utility (fst (calculate_utility e)) = u.
Proof.
  intros Hcost Hdemand. cbv zeta.
  unfold calculate_utility, calculate_ecp_utility, ecp_utility_value.
  cbn [fst snd e_current_utility ECP_OPTIMIZATION_ENABLED andb].
  split; [apply Q.le_max_l|].
  destruct (Qlt_bool 0 (overlap_savings e)) eqn:Es.
  - apply Qlt_bool_iff in Es.
    set (red := if Qlt_bool 0 (total_demand e)
                then overlap_savings e / total_demand e else 0).
    assert (Hred : 0 <= red).
    { unfold red. destruct (Qlt_bool 0 (total_demand e)) eqn:Ed; [|lra].
      apply Qlt_bool_iff in Ed. apply Qle_shift_div_l; lra. }
    pose proof (Q.le_max_l 0 (operating_cost_per_hash e - red)) as Ha0.
    assert (Ha1 : Qmax 0 (operating_cost_per_hash e - red) <= operating_cost_per_hash e).
    { apply Q.max_lub; lra. }
    set (adj := Qmax 0 (operating_cost_per_hash e - red)) in *.
    split; [apply Q.max_le_compat_l; nra|].
    split; [apply Q.max_le_compat_l; nra|].
    split; [intros; lra | reflexivity].
  - apply Qlt_bool_false in Es.
    split; [lra|].
    split; [apply Q.max_le_compat_l; nra|].
    split; reflexivity.
Qed.

Lemma calculate_utility_with_savings_witness :
  calculate_ecp_utility (fst (allocate_compute new_ECP 0%nat 1000))
  <= snd (calculate_utility (fst (allocate_compute new_ECP 0%nat 1000))).
Proof.
  apply (calculate_utility_with_savings (fst (allocate_compute new_ECP 0%nat 1000)));
    vm_compute; discriminate.
Defined.

(** ** Utilities of the members of a coalition *)

Lemma Qmax_scale (s x : Q) : 0 <= s -> Qmax 0 (s * x) == s * Qmax 0 x.
Proof.
  intros Hs.
  destruct (Q.max_spec 0 x) as [[Hx Hm] | [Hx Hm]];
    destruct (Q.max_spec 0 (s * x)) as [[Hsx Hm'] | [Hsx Hm']];
    rewrite Hm, Hm'; nra.
Qed.

Lemma member_shares_sum (w : World) (c : cref) :
  ~ get_total_work w c == 0 ->
  Qsum (map (fun member => get_work_contribution w member c / get_total_work w c)
          (members (coalition_at w c))) == 1.
Proof.
  intros Hwork. unfold Qdiv.
  rewrite (Qsum_map_scale (fun member => get_work_contribution w member c)
             (/ get_total_work w c)).
  rewrite <- get_total_work_sum. field. exact Hwork.
Qed.

Lemma member_utilities_sum_aux (w : World) (c : cref) (rewards ecp_price ecp_compute : Q) :
  0 < get_total_work w c ->
  (forall m, In m (members (coalition_at w c)) -> miner_wf (miner_at w m)) ->
  Qsum (map (fun member => calculate_miner_utility w member c rewards ecp_price ecp_compute)
          (members (coalition_at w c)))
  == Qmax 0 (rewards - ecp_price * ecp_compute).
Proof.
  intros Hwork Hwf.
  set (N := rewards - ecp_price * ecp_compute).
  rewrite (Qsum_map_ext _
             (fun member =>
                get_work_contribution w member c / get_total_work w c * Qmax 0 N)).
  - rewrite (Qsum_map_scale
               (fun member => get_work_contribution w member c / get_total_work w c)).
    rewrite member_shares_sum by lra. ring.
  - intros member Hin. unfold calculate_miner_utility.
    destruct (Qeq_bool (get_total_work w c) 0) eqn:E.
    { apply Qeq_bool_iff in E. lra. }
    fold N. apply Qmax_scale.
    pose proof (get_work_contribution_nonneg w member c (Hwf member Hin)).
    apply Qle_shift_div_l; lra.
Qed.

(** X12.  In a coalition with positive total work whose members have
    hashrates and allocation fractions that are not negative, the utilities
    [calculate_miner_utility] gives the members add up to the coalition
    utility of [calculate_coalition_utility]; [Coalition.calculate_member_utility]
    is the same formula with the coalition's own purchased compute. *)
Theorem member_utilities_sum (w : World) (c : cref) (rewards ecp_price ecp_compute : Q) :
  0 < get_total_work w c ->
  (forall m, In m (members (coalition_at w c)) -> miner_wf (miner_at w m)) ->
  Qsum (map (fun member => calculate_miner_utility w member c rewards ecp_price ecp_compute)
          (members (coalition_at w c)))
  == calculate_coalition_utility rewards ecp_price ecp_compute
  /\ forall m,
       calculate_member_utility w c m rewards ecp_price
       = calculate_miner_utility w m c rewards ecp_price
           (ecp_compute_purchased (coalition_at w c)).
Proof.
  intros Hwork Hwf. split; [|reflexivity].
  unfold calculate_coalition_utility. now apply member_utilities_sum_aux.
Qed.

Lemma member_utilities_sum_witness :
  Qsum (map (fun member => calculate_miner_utility pool_world member 0%nat 1500 200 2)
          [0%nat; 1%nat])
  == 1100.
Proof.
  destruct (member_utilities_sum pool_world 0%nat 1500 200 2) as [Hsum _].
  - vm_compute. reflexivity.
  - intros m _. apply pool_world_wf.
  - exact Hsum.
Defined.

(** ** What a distribution records *)

Lemma same_work_total_work (w w' : World) (c : cref) :
  same_work w w' -> get_total_work w' c = get_total_work w c.
Proof.
  intros Hs. unfold get_total_work. rewrite (proj2 Hs c).
  generalize (members (coalition_at w c)) (0 : Q).
  intros ms. induction ms as [|m ms IH]; intros a; cbn [fold_left]; [reflexivity|].
  now rewrite IH, (same_work_contribution w w' m c Hs).
Qed.

Lemma same_work_miner_utility (w w' : World) (m : mref) (c : cref) (r p l : Q) :
  same_work w w' -> calculate_miner_utility w' m c r p l = calculate_miner_utility w m c r p l.
Proof.
  intros Hs. unfold calculate_miner_utility.
  now rewrite (same_work_total_work w w' c Hs), (same_work_contribution w w' m c Hs).
Qed.

Lemma reward_step_utility (c : cref) (total_work net_reward ecp_price : Q) (w0 : World)
    (st : World * Q * list (mref * Q)) (member r : mref) :
  same_work w0 (fst (fst st)) ->
  let st' := reward_step c total_work net_reward ecp_price st member in
  let u := calculate_miner_utility w0 member c net_reward ecp_price
             (ecp_compute_purchased (coalition_at w0 c)) in
  snd (fst st') = snd (fst st) + u
  /\ m_current_utility (miner_at (fst (fst st')) r)
     = (if Nat.eqb r member then u else m_current_utility (miner_at (fst (fst st)) r))
  /\ m_utility_history (miner_at (fst (fst st')) r)
     = (if Nat.eqb r member then m_utility_history (miner_at (fst (fst st)) r) ++ [u]
        else m_utility_history (miner_at (fst (fst st)) r)).
Proof.
  destruct st as [[w u0] calls]. cbn [fst snd]. intros Hs. cbv zeta.
  unfold reward_step. cbn [fst snd].
  set (amount := (if Qlt_bool 0 total_work
                  then get_work_contribution w member c / total_work else 0) * net_reward).
  assert (Hs1 : same_work w0 (receive_reward w member amount)).
  { eapply same_work_trans; [exact Hs | apply same_work_receive_reward]. }
  rewrite (same_work_miner_utility w0 _ member c _ _ _ Hs1).
  rewrite (proj2 Hs1 c).
  split; [reflexivity|].
  unfold update_utility, receive_reward. cbn [set_miner miner_at].
  rewrite Nat.eqb_refl.
  destruct (Nat.eqb_spec r member) as [->|_]; split; reflexivity.
Qed.

Lemma reward_loop_utility (c : cref) (total_work net_reward ecp_price : Q) (w0 : World)
    (ms : list mref) (st : World * Q * list (mref * Q)) :
  same_work w0 (fst (fst st)) ->
  let st' := fold_left (reward_step c total_work net_reward ecp_price) ms st in
  let u := fun member =>
             calculate_miner_utility w0 member c net_reward ecp_price
               (ecp_compute_purchased (coalition_at w0 c)) in
  snd (fst st') == snd (fst st) + Qsum (map u ms)
  /\ forall r,
       (In r ms -> m_current_utility (miner_at (fst (fst st')) r) = u r)
       /\ (~ In r ms ->
           m_current_utility (miner_at (fst (fst st')) r)
           = m_current_utility (miner_at (fst (fst st)) r)).
Proof.
  cbv zeta. revert st. induction ms as [|member ms IH]; intros st Hs; cbn [fold_left map].
  - split; [unfold Qsum; cbn; ring|]. intros r. split; [intros [] | reflexivity].
  - pose proof (reward_step_spec c total_work net_reward ecp_price
                  (fst (fst st)) (snd (fst st)) (snd st) member) as [Hstep _].
    replace (fst (fst st), snd (fst st), snd st) with st in Hstep
      by (destruct st as [[? ?] ?]; reflexivity).
    cbv zeta in Hstep.
    assert (Hs' : same_work w0
                    (fst (fst (reward_step c total_work net_reward ecp_price st member)))).
    { eapply same_work_trans; [exact Hs | exact Hstep]. }
    destruct (IH _ Hs') as [IHsum IHu].
    split.
    + rewrite IHsum, Qsum_cons.
      destruct (reward_step_utility c total_work net_reward ecp_price w0 st member member Hs)
        as [Hu _].
      cbv zeta in Hu. rewrite Hu. ring.
    + intros r. destruct (IHu r) as [IHin IHout].
      destruct (reward_step_utility c total_work net_reward ecp_price w0 st member r Hs)
        as (_ & Hcur & _).
      cbv zeta in Hcur.
      destruct (in_dec Nat.eq_dec r ms) as [Hin | Hnin].
      * split; [intros _; now apply IHin|]. intros Hno. exfalso. apply Hno. now right.
      * split.
        -- intros [<- | Hin]; [|contradiction].
           rewrite (IHout Hnin), Hcur, Nat.eqb_refl. reflexivity.
        -- intros Hno. rewrite (IHout Hnin), Hcur.
           destruct (Nat.eqb_spec r member) as [->|_]; [|reflexivity].
           exfalso. apply Hno. now left.
Qed.

(** X13.  A distribution that goes through (positive total work and net
    reward) adds the block reward to the coalition's [total_rewards] and
    the ECP cost to [ecp_cost_paid], appends to both histories, and leaves
    members and [blocks_found] alone.  Every member's utility becomes its
    share of the net reward less the ECP cost, which [distribute_rewards]
    has already taken off the net reward once; so, for members of the data
    model, the coalition's recorded utility is [max(0, net - cost)]. *)
Theorem distribute_rewards_records
    (smart_contract : bool) (draw : Q) (w : World) (c : cref) (block_reward ecp_price : Q) :
  let ecp_cost := ecp_price * ecp_compute_purchased (coalition_at w c) in
  let net_reward := net_reward_of smart_contract draw block_reward ecp_cost in
  let w' := distribute_rewards smart_contract draw w c block_reward ecp_price in
  0 < get_total_work w c ->
  0 < net_reward ->
  total_rewards (coalition_at w' c) = total_rewards (coalition_at w c) + block_reward
  /\ rewards_history (coalition_at w' c) = rewards_history (coalition_at w c) ++ [block_reward]
  /\ ecp_cost_paid (coalition_at w' c) = ecp_cost_paid (coalition_at w c) + ecp_cost
  /\ c_utility_history (coalition_at w' c)
     = c_utility_history (coalition_at w c) ++ [c_current_utility (coalition_at w' c)]
  /\ members (coalition_at w' c) = members (coalition_at w c)
  /\ blocks_found (coalition_at w' c) = blocks_found (coalition_at w c)
  /\ (forall m, In m (members (coalition_at w c)) ->
        m_current_utility (miner_at w' m)
        = Qmax 0 (get_work_contribution w m c / get_total_work w c
                  * (net_reward - ecp_cost)))
  /\ ((forall m, In m (members (coalition_at w c)) -> miner_wf (miner_at w m)) ->
      c_current_utility (coalition_at w' c) == Qmax 0 (net_reward - ecp_cost)).
Proof.
  intros ecp_cost net_reward w' Hwork Hnet. subst w'.
  unfold distribute_rewards, distribute_rewards_calls.
  destruct (Qeq_bool (get_total_work w c) 0) eqn:E0.
  { apply Qeq_bool_iff in E0. lra. }
  fold ecp_cost. fold net_reward.
  destruct (Qle_bool net_reward 0) eqn:E1.
  { apply Qle_bool_iff in E1. lra. }
  pose proof (reward_loop_utility c (get_total_work w c) net_reward ecp_price w
                (members (coalition_at w c)) (w, 0, []) (same_work_refl w)) as [Hsum Hu].
  pose proof (reward_loop_calls c (get_total_work w c) net_reward ecp_price w
                (members (coalition_at w c)) (w, 0, []) (same_work_refl w)) as [[_ Hc] _].
  cbv zeta in Hsum, Hu, Hc.
  destruct (fold_left _ _ _) as [[w1 u1] calls1]. cbn [fst snd] in *.
  cbn [set_coalition coalition_at miner_at]. rewrite Nat.eqb_refl.
  cbn [coalition_record_block total_rewards rewards_history ecp_cost_paid
         c_utility_history c_current_utility members blocks_found].
  rewrite (Hc c).
  repeat (split; [reflexivity|]).
  assert (Hcalc : forall m,
             calculate_miner_utility w m c net_reward ecp_price
               (ecp_compute_purchased (coalition_at w c))
             = Qmax 0 (get_work_contribution w m c / get_total_work w c
                       * (net_reward - ecp_cost))).
  { intros m. unfold calculate_miner_utility. now rewrite E0. }
  split.
  - intros m Hin. rewrite (proj1 (Hu m) Hin). apply Hcalc.
  - intros Hwf. rewrite Hsum, Qplus_0_l.
    exact (member_utilities_sum_aux w c net_reward ecp_price
             (ecp_compute_purchased (coalition_at w c)) Hwork Hwf).
Qed.

Lemma paying_world_wf (m : mref) : miner_wf (miner_at paying_world m).
Proof. apply pool_world_wf. Qed.

Lemma distribute_rewards_records_witness :
  let w' := distribute_rewards true 0 paying_world 0%nat 1500 200 in
  total_rewards (coalition_at w' 0%nat) = 0 + 1500
  /\ ecp_cost_paid (coalition_at w' 0%nat) = 0 + 200 * 2
  /\ c_current_utility (coalition_at w' 0%nat) == 700.
Proof.
  destruct (distribute_rewards_records true 0 paying_world 0%nat 1500 200)
    as (Htotal & _ & Hcost & _ & _ & _ & _ & Hutility).
  - vm_compute. reflexivity.
  - vm_compute. reflexivity.
  - cbv zeta. split; [exact Htotal|]. split; [exact Hcost|].
    rewrite Hutility by (intros m _; apply paying_world_wf).
    vm_compute. reflexivity.
Defined.

(** ** Joining utility and the best response of a miner *)

Lemma get_total_work_nonneg (w : World) (c : cref) :
  (forall m, In m (members (coalition_at w c)) -> miner_wf (miner_at w m)) ->
  0 <= get_total_work w c.
Proof.
  intros Hwf. rewrite get_total_work_sum. apply Qsum_nonneg.
  apply List.Forall_forall. intros x Hx. apply in_map_iff in Hx.
  destruct Hx as (m & <- & Hm). apply get_work_contribution_nonneg. now apply Hwf.
Qed.

Lemma get_potential_work_contribution_nonneg (w : World) (m : mref) (c : cref) :
  0 <= total_hashrate (miner_at w m) -> 0 <= get_potential_work_contribution w m c.
Proof.
  intros Hh. unfold get_potential_work_contribution.
  destruct (_ <=? 1)%nat; [|apply Q.le_max_l].
  apply Qmult_le_0_compat; [exact Hh|].
  apply Qle_shift_div_l; [apply inject_nat_pos; lia | lra].
Qed.

(** X14.  [evaluate_coalition_utility] returns 0 when the coalition's work
    plus the candidate's potential work is zero; otherwise it raises
    [AttributeError] for a coalition whose expected rewards are 0 and
    returns the candidate's prospective share of the expected rewards for
    any other.  For miners of the data model and expected rewards that are
    not negative, what it returns lies between 0 and the expected
    rewards. *)
Theorem evaluate_coalition_utility_cases (w : World) (m : mref) (c : cref) :
  let potential := get_potential_work_contribution w m c in
  let total := get_total_work w c + potential in
  (total == 0 -> evaluate_coalition_utility w m c = Ok 0)
  /\ (~ total == 0 -> expected_rewards (coalition_at w c) == 0 ->
      evaluate_coalition_utility w m c = Raise AttributeError)
  /\ (~ total == 0 -> ~ expected_rewards (coalition_at w c) == 0 ->
      evaluate_coalition_utility w m c
      = Ok (potential / total * expected_rewards (coalition_at w c)))
  /\ (0 <= total_hashrate (miner_at w m) ->
      (forall r, In r (members (coalition_at w c)) -> miner_wf (miner_at w r)) ->
      0 <= expected_rewards (coalition_at w c) ->
      forall v, evaluate_coalition_utility w m c = Ok v ->
                0 <= v <= expected_rewards (coalition_at w c)).
Proof.
  cbv zeta. unfold evaluate_coalition_utility, get_expected_rewards.
  set (potential := get_potential_work_contribution w m c).
  set (total := get_total_work w c + potential).
  set (R := expected_rewards (coalition_at w c)).
  destruct (Qeq_bool total 0) eqn:Et.
  { apply Qeq_bool_iff in Et.
    split; [reflexivity|]. split; [intros H; contradiction|]. split; [intros H; contradiction|].
    intros _ _ HR v [= <-]. lra. }
  apply Qeq_bool_false in Et.
  destruct (Qeq_bool R 0) eqn:ER.
  { apply Qeq_bool_iff in ER.
    split; [intros H; contradiction|]. split; [reflexivity|].
    split; [intros _ H; contradiction|].
    intros _ _ _ v H. discriminate. }
  apply Qeq_bool_false in ER.
  split; [intros H; contradiction|]. split; [intros _ H; contradiction|].
  split; [reflexivity|].
  intros Hh Hwf HR v [= <-].
  pose proof (get_total_work_nonneg w c Hwf) as Hw.
  pose proof (get_potential_work_contribution_nonneg w m c Hh) as Hp.
  fold potential in Hp.
  assert (Htot : 0 < total) by (unfold total in *; lra).
  assert (Hshare : 0 <= potential / total <= 1).
  { split; [apply Qle_shift_div_l | apply Qle_shift_div_r]; unfold total in *; lra. }
  split; nra.
Qed.

Lemma evaluate_coalition_utility_cases_witness :
  evaluate_coalition_utility demo_world 1%nat 0%nat = Ok (200000000000 # 500000000)
  /\ 0 <= 200000000000 # 500000000 <= 1000.
Proof.
  destruct (evaluate_coalition_utility_cases demo_world 1%nat 0%nat)
    as (_ & _ & Hvalue & Hrange).
  cbv zeta in Hvalue, Hrange.
  assert (H : evaluate_coalition_utility demo_world 1%nat 0%nat
              = Ok (200000000000 # 500000000)).
  { rewrite Hvalue; [reflexivity | vm_compute; discriminate | vm_compute; discriminate]. }
  split; [exact H|].
  apply Hrange; [vm_compute; discriminate | | vm_compute; discriminate | exact H].
  intros r _. cbn [demo_world miner_at].
  destruct (Nat.eqb r 0).
  - split; [vm_compute; discriminate|]. intros k v Hkv.
    change (({[ 7%Z := 1 ]} : gmap Z Q) !! k = Some v) in Hkv.
    apply lookup_singleton_Some in Hkv. destruct Hkv as [_ <-]. lra.
  - split; [vm_compute; discriminate|]. intros k v Hkv. discriminate.
Defined.

Lemma get_expected_member_utility_nonneg (w : World) (c : cref) (m : mref) :
  0 <= get_expected_member_utility w c m.
Proof.
  unfold get_expected_member_utility. destruct (Qeq_bool _ 0); [lra | apply Q.le_max_l].
Qed.

Lemma evaluate_strategy_split_le (w : World) (m : mref) :
  0 <= get_total_utility w m -> evaluate_strategy_split w m <= get_total_utility w m.
Proof.
  intros Hu. unfold evaluate_strategy_split.
  destruct (3 <=? _)%nat; [exact Hu|].
  destruct (_ =? 0)%nat; lra.
Qed.

Lemma evaluate_strategy_leave_le (w : World) (m : mref) (c : cref) :
  0 <= get_total_utility w m -> evaluate_strategy_leave w m c <= get_total_utility w m.
Proof.
  intros Hu. unfold evaluate_strategy_leave.
  destruct (negb _); [lra|].
  destruct (_ =? 0)%Z; [exact Hu|].
  pose proof (get_expected_member_utility_nonneg w c m).
  unfold get_utility_in_coalition. lra.
Qed.

(** What the MERGE loop leaves in [best_strategy]: its starting value, or a
    coalition of the engine that the miner is not in, that admits it and
    whose projected utility beats the starting value by more than the
    convergence epsilon. *)
Lemma evaluate_merges_spec (w : World) (m : mref) (cs : list cref)
    (best out : strategy * Q) :
  evaluate_merges w m cs best = Ok out ->
  snd best <= snd out
  /\ (out = best
      \/ exists target,
           fst out = MERGE target
           /\ In target cs
           /\ coalition_in w target (coalitions (miner_at w m)) = false
           /\ check_definition_4 w target m = true
           /\ evaluate_coalition_utility w m target = Ok (snd out)
           /\ snd best + OCF_CONVERGENCE_EPSILON < snd out).
Proof.
  revert best. induction cs as [|c cs IH]; intros best H; cbn [evaluate_merges] in H.
  - injection H as <-. split; [lra | now left].
  - destruct (negb (coalition_in w c (coalitions (miner_at w m)))
              && check_definition_4 w c m) eqn:Econd.
    + apply andb_true_iff in Econd. destruct Econd as [Hnin Hcheck].
      apply negb_true_iff in Hnin.
      destruct (evaluate_coalition_utility w m c) as [projected|e] eqn:Hproj; [|discriminate].
      cbn [mbind result_bind] in H.
      destruct (Qlt_bool (snd best + OCF_CONVERGENCE_EPSILON) projected) eqn:Ebeat.
      * apply Qlt_bool_iff in Ebeat.
        destruct (IH _ H) as [Hle Hcase]. cbn [snd] in Hle.
        unfold OCF_CONVERGENCE_EPSILON in *.
        split; [lra|]. right.
        destruct Hcase as [-> | (target & Hs & Hin & Hnin' & Hcheck' & Hval & Hgt)].
        -- exists c. cbn [fst snd]. repeat split; try assumption; now left.
        -- exists target. cbn [snd] in Hgt.
           repeat split; try assumption; [now right | lra].
      * destruct (IH _ H) as [Hle Hcase]. split; [exact Hle|].
        destruct Hcase as [-> | (target & Hs & Hin & Hrest)]; [now left|].
        right. exists target. repeat split; try apply Hrest; try assumption. now right.
    + destruct (IH _ H) as [Hle Hcase]. split; [exact Hle|].
      destruct Hcase as [-> | (target & Hs & Hin & Hrest)]; [now left|].
      right. exists target. repeat split; try apply Hrest; try assumption. now right.
Qed.

Lemma evaluate_merges_total (w : World) (m : mref) (cs : list cref) (best : strategy * Q) :
  (forall c, In c cs -> ~ expected_rewards (coalition_at w c) == 0) ->
  exists out, evaluate_merges w m cs best = Ok out.
Proof.
  revert best. induction cs as [|c cs IH]; intros best Hr; cbn [evaluate_merges].
  - now eexists.
  - assert (Hrest : forall c', In c' cs -> ~ expected_rewards (coalition_at w c') == 0)
      by (intros c' Hc'; apply Hr; now right).
    destruct (_ && _); [|now apply IH].
    assert (Hok : exists v, evaluate_coalition_utility w m c = Ok v).
    { unfold evaluate_coalition_utility, get_expected_rewards.
      destruct (Qeq_bool _ 0); [now eexists|].
      destruct (Qeq_bool (expected_rewards (coalition_at w c)) 0) eqn:E; [|now eexists].
      apply Qeq_bool_iff in E. exfalso. apply (Hr c); [now left | exact E]. }
    destruct Hok as [v ->]. cbn [mbind result_bind]. now apply IH.
Qed.

Lemma leave_loop_keeps (w : World) (m : mref) (cs : list cref) (best : strategy * Q) :
  0 <= get_total_utility w m ->
  get_total_utility w m <= snd best ->
  fold_left
    (fun (best_strategy : strategy * Q) coalition =>
       let leave_utility := evaluate_strategy_leave w m coalition in
       if Qlt_bool (snd best_strategy + OCF_CONVERGENCE_EPSILON) leave_utility
       then (LEAVE coalition, leave_utility) else best_strategy)
    cs best
  = best.
Proof.
  intros Hu Hbest. induction cs as [|c cs IH]; cbn [fold_left]; [reflexivity|].
  cbv zeta.
  destruct (Qlt_bool _ (evaluate_strategy_leave w m c)) eqn:E; [|exact IH].
  apply Qlt_bool_iff in E. pose proof (evaluate_strategy_leave_le w m c Hu).
  unfold OCF_CONVERGENCE_EPSILON in E. lra.
Qed.

(** X15.  A miner whose current utility is not negative never selects SPLIT
    or LEAVE: its best response is STAY with its current utility, or MERGE
    into a coalition of the engine that it is not yet in, that passes the
    admission check and whose projected utility exceeds its current utility
    by more than the convergence epsilon, and only while it is under the
    membership cap.  The evaluation returns whenever no coalition has
    expected rewards 0. *)
Theorem best_response_stay_or_merge (w : World) (cs : list cref) (max_coalitions : Z)
    (m : mref) :
  0 <= get_total_utility w m ->
  (forall s v, best_response w cs max_coalitions m = Ok (s, v) ->
     (s = STAY /\ v = get_total_utility w m)
     \/ exists target,
          s = MERGE target
          /\ In target cs
          /\ coalition_in w target (coalitions (miner_at w m)) = false
          /\ check_definition_4 w target m = true
          /\ (Z.of_nat (length (coalitions (miner_at w m))) < max_coalitions)%Z
          /\ evaluate_coalition_utility w m target = Ok v
          /\ get_total_utility w m + OCF_CONVERGENCE_EPSILON < v)
  /\ ((forall c, In c cs -> ~ expected_rewards (coalition_at w c) == 0) ->
      exists out, best_response w cs max_coalitions m = Ok out).
Proof.
  intros Hu. unfold best_response. split.
  - intros s v H.
    destruct (Z.of_nat (length (coalitions (miner_at w m))) <? max_coalitions)%Z eqn:Ecap.
    + apply Z.ltb_lt in Ecap.
      destruct (evaluate_merges w m cs (STAY, get_total_utility w m)) as [best|e] eqn:Hm;
        [|discriminate].
      cbn [mbind result_bind] in H.
      destruct (evaluate_merges_spec _ _ _ _ _ Hm) as [Hle Hcase]. cbn [snd] in Hle.
      assert (Hsplit : Qlt_bool (snd best + OCF_CONVERGENCE_EPSILON)
                         (evaluate_strategy_split w m) = false).
      { apply Qlt_bool_false. pose proof (evaluate_strategy_split_le w m Hu).
        unfold OCF_CONVERGENCE_EPSILON. lra. }
      rewrite Hsplit in H.
      rewrite (leave_loop_keeps w m _ best Hu Hle) in H. injection H as ->.
      destruct Hcase as [[= -> ->] | (target & Hs & Hrest)]; [now left|].
      right. exists target. cbn [fst snd] in *.
      destruct Hrest as (Hin & Hnin & Hcheck & Hval & Hgt).
      repeat split; assumption.
    + cbn [mbind result_bind] in H.
      rewrite (leave_loop_keeps w m _ (STAY, get_total_utility w m) Hu) in H
        by (cbn; lra).
      injection H as <- <-. now left.
  - intros Hr.
    destruct (_ <? max_coalitions)%Z.
    + destruct (evaluate_merges_total w m cs (STAY, get_total_utility w m) Hr) as [out ->].
      cbn [mbind result_bind]. now eexists.
    + cbn [mbind result_bind]. now eexists.
Qed.

Lemma best_response_stay_or_merge_witness :
  0 <= get_total_utility idle_world 5%nat
  /\ best_response idle_world [0%nat] 3 5%nat = Ok (MERGE 0%nat, 300000000000 # 300000000)
  /\ check_definition_4 idle_world 0%nat 5%nat = true
  /\ evaluate_coalition_utility idle_world 5%nat 0%nat = Ok (300000000000 # 300000000).
Proof.
  assert (Hu : 0 <= get_total_utility idle_world 5%nat) by (vm_compute; discriminate).
  assert (Hout : best_response idle_world [0%nat] 3 5%nat
                 = Ok (MERGE 0%nat, 300000000000 # 300000000)) by (vm_compute; reflexivity).
  split; [exact Hu|]. split; [exact Hout|].
  destruct (best_response_stay_or_merge idle_world [0%nat] 3 5%nat Hu) as [Hcases _].
  destruct (Hcases _ _ Hout) as [[Hs _] | (target & Hs & _ & _ & Hcheck & _ & Hval & _)].
  - discriminate Hs.
  - injection Hs as <-. split; [exact Hcheck | exact Hval].
Defined.

(** ** The books of miners and coalitions *)

Lemma calculate_miner_utility_nonneg (w : World) (m : mref) (c : cref)
    (rewards ecp_price ecp_compute : Q) :
  0 <= calculate_miner_utility w m c rewards ecp_price ecp_compute.
Proof.
  unfold calculate_miner_utility. destruct (Qeq_bool _ 0); [lra | apply Q.le_max_l].
Qed.

Lemma reward_step_books (c : cref) (total_work net_reward ecp_price : Q)
    (st : World * Q * list (mref * Q)) (member : mref) :
  books_ok (fst (fst st)) ->
  books_ok (fst (fst (reward_step c total_work net_reward ecp_price st member))).
Proof.
  destruct st as [[w u] calls]. cbn [fst snd]. intros [Hm Hc].
  unfold reward_step. cbn [fst snd]. split.
  - intros r. unfold update_utility, receive_reward.
    cbn [set_miner miner_at]. rewrite Nat.eqb_refl.
    destruct (Nat.eqb r member); [|apply Hm].
    destruct (Hm member) as [Hsum _]. split.
    + cbn [miner_set_utility miner_set_earnings total_earnings earnings_history].
      rewrite Qsum_app, Qsum_cons. cbn [Qsum fold_left] in *. lra.
    + cbn [miner_set_utility m_current_utility]. apply calculate_miner_utility_nonneg.
  - intros c'. apply Hc.
Qed.

Lemma reward_loop_books (c : cref) (total_work net_reward ecp_price : Q)
    (ms : list mref) (st : World * Q * list (mref * Q)) :
  books_ok (fst (fst st)) ->
  books_ok (fst (fst (fold_left (reward_step c total_work net_reward ecp_price) ms st))).
Proof.
  revert st. induction ms as [|member ms IH]; intros st H; cbn [fold_left]; [exact H|].
  apply IH. now apply reward_step_books.
Qed.

Lemma distribute_rewards_books (smart_contract : bool) (draw : Q) (w : World) (c : cref)
    (block_reward ecp_price : Q) :
  books_ok w -> books_ok (distribute_rewards smart_contract draw w c block_reward ecp_price).
Proof.
  intros H. unfold distribute_rewards, distribute_rewards_calls.
  destruct (Qeq_bool _ 0); [exact H|].
  destruct (Qle_bool _ 0); [exact H|].
  pose proof (reward_loop_books c (get_total_work w c)
                (net_reward_of smart_contract draw block_reward
                   (ecp_price * ecp_compute_purchased (coalition_at w c)))
                ecp_price (members (coalition_at w c)) (w, 0, []) H) as Hloop.
  destruct (fold_left _ _ _) as [[w1 total_utility] calls]. cbn [fst snd] in *.
  destruct Hloop as [Hm Hc]. split; [exact Hm|].
  intros c'. cbn [set_coalition coalition_at].
  destruct (Nat.eqb c' c); [|apply Hc].
  destruct (Hc c) as [Hsum Hlen]. split.
  - cbn [coalition_record_block total_rewards rewards_history].
    rewrite Qsum_app, Qsum_cons. cbn [Qsum fold_left] in *. lra.
  - cbn [coalition_record_block c_utility_history rewards_history].
    rewrite !length_app. cbn [length]. lia.
Qed.

Lemma clear_all_books (txs : list Transaction) (ms : list mref) (w : World) :
  books_ok w ->
  books_ok (fold_left (fun w' miner => clear_transactions w' miner txs) ms w).
Proof.
  revert w. induction ms as [|m ms IH]; intros w H; cbn [fold_left]; [exact H|].
  apply IH. destruct H as [Hm Hc]. split; [|exact Hc].
  intros r. unfold clear_transactions. cbn [set_miner miner_at].
  destruct (Nat.eqb r m); [|apply Hm]. exact (Hm m).
Qed.

(** X16.  Finding a block keeps the books in order: after
    [handle_block_found] every miner's total earnings are still the sum of
    its earnings history and its utility is not negative, every coalition's
    total rewards are the sum of its rewards history with one recorded
    utility per reward; and the average earnings of a miner times the
    number of its payments is its total. *)
Theorem handle_block_found_books (draw : Q) (eng : Engine) (coalition : cref) :
  books_ok (world eng) ->
  let w' := world (handle_block_found draw eng coalition) in
  books_ok w'
  /\ forall m,
       get_average_earnings (miner_at w' m)
       * inject_Z (Z.of_nat (length (earnings_history (miner_at w' m))))
       == total_earnings (miner_at w' m).
Proof.
  intros H. cbv zeta.
  assert (Hbooks : books_ok (world (handle_block_found draw eng coalition))).
  { unfold handle_block_found. cbn [world]. apply clear_all_books.
    set (w1 := distribute_rewards _ _ _ _ _ _).
    assert (H1 : books_ok w1) by now apply distribute_rewards_books.
    destruct H1 as [Hm Hc]. split; [exact Hm|].
    intros c'. cbn [set_coalition coalition_at].
    destruct (Nat.eqb c' coalition); [|apply Hc]. exact (Hc coalition). }
  split; [exact Hbooks|].
  intros m. destruct Hbooks as [Hm _]. destruct (Hm m) as [Hsum _].
  unfold get_average_earnings.
  destruct (earnings_history _) as [|a l] eqn:El.
  - cbn [length Nat.eqb] in *. cbn [Qsum fold_left] in Hsum. rewrite Hsum.
    change (inject_Z (Z.of_nat 0)) with 0. ring.
  - cbn [Nat.eqb length]. rewrite Hsum.
    assert (Hpos : 0 < inject_Z (Z.of_nat (S (length l)))) by (apply inject_nat_pos; lia).
    field. lra.
Qed.

Lemma handle_block_found_books_witness :
  books_ok (world mining_engine)
  /\ books_ok (world (handle_block_found 0 mining_engine 0%nat)).
Proof.
  assert (H : books_ok (world mining_engine)).
  { split.
    - intros m. destruct m as [|m]; split; vm_compute; first [reflexivity | discriminate].
    - intros c. destruct c as [|c]; split; vm_compute; reflexivity. }
  split; [exact H|].
  apply (handle_block_found_books 0 mining_engine 0%nat H).
Defined.

(** ** Counters of a found block *)

Lemma distribute_rewards_blocks_found
    (smart_contract : bool) (draw : Q) (w : World) (c c' : cref) (block_reward ecp_price : Q) :
  blocks_found
    (coalition_at (distribute_rewards smart_contract draw w c block_reward ecp_price) c')
  = blocks_found (coalition_at w c').
Proof.
  unfold distribute_rewards, distribute_rewards_calls.
  destruct (Qeq_bool _ 0); [reflexivity|].
  destruct (Qle_bool _ 0); [reflexivity|].
  match goal with
  | |- context [fold_left (reward_step c ?tw ?nr ecp_price) ?ms ?st] =>
      pose proof (reward_loop_calls c tw nr ecp_price w ms st (same_work_refl w)) as [[_ Hc] _];
      destruct (fold_left (reward_step c tw nr ecp_price) ms st) as [[w1 u1] calls1]
  end.
  cbn [fst snd] in *. cbn [set_coalition coalition_at].
  destruct (Nat.eqb_spec c' c) as [->|_]; [|now rewrite Hc].
  cbn [coalition_record_block blocks_found]. now rewrite Hc.
Qed.

Lemma clear_all_earnings (txs : list Transaction) (ms : list mref) (w : World) (m : mref) :
  let w' := fold_left (fun w' miner => clear_transactions w' miner txs) ms w in
  total_earnings (miner_at w' m) = total_earnings (miner_at w m)
  /\ earnings_history (miner_at w' m) = earnings_history (miner_at w m).
Proof.
  cbv zeta. revert w. induction ms as [|m0 ms IH]; intros w; cbn [fold_left]; [now split|].
  destruct (IH (clear_transactions w m0 txs)) as [-> ->].
  unfold clear_transactions. cbn [set_miner miner_at].
  destruct (Nat.eqb_spec m m0) as [->|_]; now split.
Qed.

(** X17.  [handle_block_found] always counts the block: the engine's and
    the coalition's block counters grow by one and the block reward plus
    the fees of the selected transactions is added to the rewards the
    engine reports as distributed.  When the coalition's total work is
    zero this happens although nothing is paid: no miner's earnings and no
    coalition's total rewards change. *)
Theorem handle_block_found_counts (draw : Q) (eng : Engine) (coalition : cref) :
  let eng' := handle_block_found draw eng coalition in
  let selected :=
    select_transactions_for_block (world eng) coalition TRANSACTIONS_PER_BLOCK_I in
  eng_blocks_found eng' = (eng_blocks_found eng + 1)%Z
  /\ total_rewards_distributed eng'
     == total_rewards_distributed eng + BLOCK_REWARD_B + Qsum (map fee selected)
  /\ (forall c,
        blocks_found (coalition_at (world eng') c)
        = if Nat.eqb c coalition then (blocks_found (coalition_at (world eng) c) + 1)%Z
          else blocks_found (coalition_at (world eng) c))
  /\ (get_total_work (world eng) coalition == 0 ->
      (forall m,
         total_earnings (miner_at (world eng') m) = total_earnings (miner_at (world eng) m)
         /\ earnings_history (miner_at (world eng') m)
            = earnings_history (miner_at (world eng) m))
      /\ (forall c,
            total_rewards (coalition_at (world eng') c)
            = total_rewards (coalition_at (world eng) c))).
Proof.
  cbv zeta. unfold handle_block_found.
  cbn [eng_blocks_found total_rewards_distributed world].
  split; [reflexivity|]. split; [ring|]. split.
  - intros c. rewrite clear_all_coalitions. cbn [set_coalition coalition_at].
    destruct (Nat.eqb_spec c coalition) as [->|_].
    + cbn [coalition_set_blocks_found blocks_found].
      now rewrite distribute_rewards_blocks_found.
    + apply distribute_rewards_blocks_found.
  - intros Hzero.
    assert (Hskip : forall r p,
               distribute_rewards SMART_CONTRACT_ENABLED draw (world eng) coalition r p
               = world eng).
    { intros r p. unfold distribute_rewards, distribute_rewards_calls.
      apply Qeq_bool_iff in Hzero. now rewrite Hzero. }
    rewrite Hskip. split.
    + intros m.
      match goal with
      | |- context [fold_left ?f ?ms ?w0] =>
          destruct (clear_all_earnings
                      (select_transactions_for_block (world eng) coalition
                         TRANSACTIONS_PER_BLOCK_I) ms w0 m) as [E1 E2]
      end.
      cbv zeta in E1, E2. rewrite E1, E2. now split.
    + intros c. rewrite clear_all_coalitions. cbn [set_coalition coalition_at].
      destruct (Nat.eqb_spec c coalition) as [->|_]; reflexivity.
Qed.

Lemma handle_block_found_counts_witness :
  get_total_work (world idle_engine) 0%nat == 0
  /\ total_rewards_distributed (handle_block_found 0 idle_engine 0%nat) == 1000
  /\ total_earnings (miner_at (world (handle_block_found 0 idle_engine 0%nat)) 0%nat)
     = total_earnings (miner_at (world idle_engine) 0%nat).
Proof.
  assert (Hzero : get_total_work (world idle_engine) 0%nat == 0) by (vm_compute; reflexivity).
  split; [exact Hzero|].
  destruct (handle_block_found_counts 0 idle_engine 0%nat) as (_ & Htotal & _ & Hskip).
  cbv zeta in Htotal, Hskip. split.
  - rewrite Htotal. vm_compute. reflexivity.
  - destruct (Hskip Hzero) as [Hm _]. exact (proj1 (Hm 0%nat)).
Defined.

(** ** Purchases of compute in a timestep *)

Lemma same_demand_refl (w : World) : same_demand w w.
Proof. split; [reflexivity | now intros c]. Qed.

Lemma same_demand_trans (w1 w2 w3 : World) :
  same_demand w1 w2 -> same_demand w2 w3 -> same_demand w1 w3.
Proof.
  intros [Hm Hc] [Hm' Hc']. split.
  - intros m. now rewrite Hm', Hm.
  - intros c. destruct (Hc c) as (H1 & H2 & H3). destruct (Hc' c) as (H1' & H2' & H3').
    repeat split; congruence.
Qed.

Lemma same_demand_contribution (w w' : World) (m : mref) (c : cref) :
  same_demand w w' -> get_work_contribution w' m c = get_work_contribution w m c.
Proof.
  intros [Hm Hc].
  assert (E : forall l, coalition_in w' c l = coalition_in w c l).
  { intros l. unfold coalition_in, coalition_eq.
    induction l as [|b l IHl]; simpl; [reflexivity|].
    rewrite IHl. now rewrite (proj1 (Hc c)), (proj1 (Hc b)). }
  unfold get_work_contribution, get_allocation.
  now rewrite Hm, E, (proj1 (Hc c)).
Qed.

Lemma same_demand_total_work (w w' : World) (c : cref) :
  same_demand w w' -> get_total_work w' c = get_total_work w c.
Proof.
  intros Hs. unfold get_total_work. rewrite (proj1 (proj2 (proj2 Hs c))).
  generalize (members (coalition_at w c)) (0 : Q).
  intros ms. induction ms as [|m ms IH]; intros a; cbn [fold_left]; [reflexivity|].
  now rewrite IH, (same_demand_contribution w w' m c Hs).
Qed.

Lemma same_demand_compute_demand (w w' : World) (c : cref) (price cost : Q) :
  same_demand w w' ->
  calculate_optimal_compute_demand w' c price cost
  = calculate_optimal_compute_demand w c price cost.
Proof.
  intros Hs. unfold calculate_optimal_compute_demand, get_size.
  rewrite (same_demand_total_work w w' c Hs).
  destruct (proj2 Hs c) as (_ & -> & ->). reflexivity.
Qed.

Lemma request_ecp_compute_same_demand (w : World) (c : cref) (e : ECP) (nonce : Q) :
  same_demand w (fst (request_ecp_compute w c e nonce)).
Proof.
  unfold request_ecp_compute. destruct (allocate_compute e c nonce) as [e1 granted].
  cbn [fst]. split; [reflexivity|].
  intros c'. cbn [set_coalition coalition_at].
  destruct (Nat.eqb_spec c' c) as [->|_]; now repeat split.
Qed.

(** One iteration: the demand is bought as far as capacity is left, or, when
    there is no demand, nothing is touched. *)
Lemma request_step_spec (w : World) (e : ECP) (a : cref) :
  0 <= current_load e <= total_capacity e ->
  let st := request_step (w, e) a in
  let demand :=
    calculate_optimal_compute_demand w a (price_per_hash e) (operating_cost_per_hash e) in
  same_demand w (fst st)
  /\ 0 <= current_load (snd st) <= total_capacity (snd st)
  /\ total_capacity (snd st) = total_capacity e
  /\ price_per_hash (snd st) = price_per_hash e
  /\ operating_cost_per_hash (snd st) = operating_cost_per_hash e
  /\ (forall c, c <> a ->
        ecp_compute_purchased (coalition_at (fst st) c)
        = ecp_compute_purchased (coalition_at w c))
  /\ (0 < demand -> 0 <= ecp_compute_purchased (coalition_at (fst st) a) <= demand)
  /\ (~ 0 < demand ->
      ecp_compute_purchased (coalition_at (fst st) a)
      = ecp_compute_purchased (coalition_at w a)).
Proof.
  intros Hload. cbv zeta. unfold request_step.
  set (demand := calculate_optimal_compute_demand w a _ _).
  destruct (Qlt_bool 0 demand) eqn:Ed.
  - apply Qlt_bool_iff in Ed.
    pose proof (allocate_compute_step e a demand ltac:(lra) Hload) as Hstep.
    cbv zeta in Hstep. destruct Hstep as (_ & _ & _ & Hgranted & Hload').
    pose proof (allocate_compute_capacity e a demand) as Hcap.
    pose proof (allocate_compute_ledger e a demand) as Hled. cbv zeta in Hled.
    destruct Hled as (_ & _ & _ & _ & _ & _ & Hprice & Hcost).
    pose proof (request_ecp_compute_same_demand w a e demand) as Hsame.
    unfold request_ecp_compute in *.
    destruct (allocate_compute e a demand) as [e1 granted]. cbn [fst snd] in *.
    split; [exact Hsame|]. split; [now rewrite Hcap|].
    split; [exact Hcap|]. split; [exact Hprice|]. split; [exact Hcost|].
    split; [|split].
    + intros c Hc. cbn [set_coalition coalition_at].
      destruct (Nat.eqb_spec c a); [contradiction | reflexivity].
    + intros _. cbn [set_coalition coalition_at]. rewrite Nat.eqb_refl.
      cbn [coalition_set_compute ecp_compute_purchased]. exact Hgranted.
    + intros Hno. contradiction.
  - apply Qlt_bool_false in Ed. cbn [fst snd].
    split; [apply same_demand_refl|]. split; [exact Hload|].
    split; [reflexivity|]. split; [reflexivity|]. split; [reflexivity|].
    split; [reflexivity|]. split; [intros Hpos; lra | reflexivity].
Qed.

Lemma request_loop_spec (cs : list cref) (w : World) (e : ECP) :
  NoDup cs ->
  0 <= current_load e <= total_capacity e ->
  let st := fold_left request_step cs (w, e) in
  let demand c :=
    calculate_optimal_compute_demand w c (price_per_hash e) (operating_cost_per_hash e) in
  same_demand w (fst st)
  /\ 0 <= current_load (snd st) <= total_capacity (snd st)
  /\ total_capacity (snd st) = total_capacity e
  /\ price_per_hash (snd st) = price_per_hash e
  /\ operating_cost_per_hash (snd st) = operating_cost_per_hash e
  /\ forall c,
       (In c cs -> 0 < demand c ->
        0 <= ecp_compute_purchased (coalition_at (fst st) c) <= demand c)
       /\ (~ In c cs \/ ~ 0 < demand c ->
           ecp_compute_purchased (coalition_at (fst st) c)
           = ecp_compute_purchased (coalition_at w c)).
Proof.
  cbv zeta. revert w e. induction cs as [|a cs IH]; intros w e Hnd Hload; cbn [fold_left].
  - cbn [fst snd]. split; [apply same_demand_refl|]. split; [exact Hload|].
    split; [reflexivity|]. split; [reflexivity|]. split; [reflexivity|].
    intros c. split; [intros [] | reflexivity].
  - apply NoDup_cons in Hnd. destruct Hnd as [Hnotin Hnd].
    rewrite list_elem_of_In in Hnotin.
    pose proof (request_step_spec w e a Hload) as Hstep. cbv zeta in Hstep.
    destruct (request_step (w, e) a) as [w1 e1]. cbn [fst snd] in Hstep.
    destruct Hstep as (Hsame & Hload1 & Hcap & Hprice & Hcost & Hother & Hbuy & Hkeep).
    destruct (IH w1 e1 Hnd Hload1) as (Hsame' & Hload' & Hcap' & Hprice' & Hcost' & Hrest).
    split; [eapply same_demand_trans; eassumption|].
    split; [exact Hload'|]. split; [congruence|]. split; [congruence|]. split; [congruence|].
    intros c.
    assert (Hd : calculate_optimal_compute_demand w1 c (price_per_hash e1)
                   (operating_cost_per_hash e1)
                 = calculate_optimal_compute_demand w c (price_per_hash e)
                     (operating_cost_per_hash e)).
    { rewrite Hprice, Hcost. now apply same_demand_compute_demand. }
    destruct (Hrest c) as [Hin Hout]. rewrite Hd in Hin, Hout.
    destruct (Nat.eq_dec c a) as [->|Hne].
    + rewrite (Hout (or_introl Hnotin)). split.
      * intros _ Hpos. now apply Hbuy.
      * intros [Hno | Hno]; [exfalso; apply Hno; now left | now apply Hkeep].
    + split.
      * intros [Heq | Hc] Hpos; [congruence | now apply Hin].
      * intros Hno. rewrite Hout; [now apply Hother|].
        destruct Hno as [Hno | Hno]; [left; intros Hc; apply Hno; now right | now right].
Qed.

(** X18.  In [coalitions_request_compute] every coalition of the engine
    with a positive demand at the provider's price ends up holding between
    0 and that demand, and the provider's load stays within its capacity.
    A coalition with no demand makes no request, so it keeps whatever it
    bought before; miners, prices and the coalitions' members are left
    alone. *)
Theorem coalitions_request_compute_spec (eng : Engine) (e : ECP) :
  eng_ecp eng = Some e ->
  NoDup (eng_coalitions eng) ->
  0 <= current_load e <= total_capacity e ->
  let eng' := coalitions_request_compute eng in
  let demand c :=
    calculate_optimal_compute_demand (world eng) c (price_per_hash e)
      (operating_cost_per_hash e) in
  exists e',
    eng_ecp eng' = Some e'
    /\ 0 <= current_load e' <= total_capacity e'
    /\ price_per_hash e' = price_per_hash e
    /\ same_demand (world eng) (world eng')
    /\ forall c,
         (In c (eng_coalitions eng) -> 0 < demand c ->
          0 <= ecp_compute_purchased (coalition_at (world eng') c) <= demand c)
         /\ (~ In c (eng_coalitions eng) \/ demand c == 0 ->
             ecp_compute_purchased (coalition_at (world eng') c)
             = ecp_compute_purchased (coalition_at (world eng) c)).
Proof.
  intros Hecp Hnd Hload. cbv zeta. unfold coalitions_request_compute. rewrite Hecp.
  pose proof (request_loop_spec (eng_coalitions eng) (world eng) e Hnd Hload) as Hloop.
  cbv zeta in Hloop.
  destruct (fold_left request_step (eng_coalitions eng) (world eng, e)) as [w1 e1].
  cbn [fst snd] in Hloop.
  destruct Hloop as (Hsame & Hload1 & Hcap & Hprice & _ & Hall).
  cbn [eng_ecp world]. eexists. split; [reflexivity|].
  assert (Hopt : forall rs,
             current_load (fst (optimize_overlapping_work e1 w1 rs)) = current_load e1
             /\ total_capacity (fst (optimize_overlapping_work e1 w1 rs)) = total_capacity e1
             /\ price_per_hash (fst (optimize_overlapping_work e1 w1 rs)) = price_per_hash e1).
  { intros rs. unfold optimize_overlapping_work.
    destruct (negb ECP_OPTIMIZATION_ENABLED); [now repeat split|].
    destruct (length rs <? 2)%nat; now repeat split. }
  destruct (Hopt (compute_requests e1)) as (Hl & Hc & Hp).
  change ECP_OPTIMIZATION_ENABLED with true. cbv iota.
  rewrite Hl, Hc, Hp.
  split; [exact Hload1|]. split; [exact Hprice|]. split; [exact Hsame|].
  intros c. destruct (Hall c) as [Hin Hout]. split; [exact Hin|].
  intros [Hno | Hzero]; apply Hout; [now left | right; lra].
Qed.

Lemma coalitions_request_compute_spec_witness :
  (0 <= ecp_compute_purchased
          (coalition_at (world (coalitions_request_compute mining_engine)) 0%nat)
   <= 2000 # 2000)
  /\ ecp_compute_purchased
       (coalition_at (world (coalitions_request_compute stale_engine)) 0%nat) = 2.
Proof.
  split.
  - destruct (coalitions_request_compute_spec mining_engine new_ECP) as (e' & _ & _ & _ & _ & H).
    + reflexivity.
    + apply NoDup_singleton.
    + split; vm_compute; discriminate.
    + cbv zeta in H. destruct (H 0%nat) as [Hbuy _].
      apply Hbuy; [now left | vm_compute; reflexivity].
  - destruct (coalitions_request_compute_spec stale_engine overpriced_ECP)
      as (e' & _ & _ & _ & _ & H).
    + reflexivity.
    + apply NoDup_singleton.
    + split; vm_compute; discriminate.
    + cbv zeta in H. destruct (H 0%nat) as [_ Hkeep].
      rewrite Hkeep; [reflexivity | right; vm_compute; reflexivity].
Defined.

(** ** Block discovery in a timestep *)

(** X19.  A timestep finds at most one block.  When
    [attempt_block_discovery] changes the engine, the new engine is what
    [handle_block_found] yields for a coalition of the engine whose
    effective hashrate is positive; and when no effective hashrate is
    negative the attempt always returns. *)
Theorem attempt_block_discovery_spec (exp : Q -> Q)
    (draw_block draw_winner draw_theft : Q) (eng : Engine) :
  0 <= draw_winner < 1 ->
  (forall eng',
     attempt_block_discovery exp draw_block draw_winner draw_theft eng = Ok eng' ->
     eng' = eng
     \/ exists winner,
          In winner (eng_coalitions eng)
          /\ 0 < get_effective_hashrate (world eng) winner
          /\ eng' = handle_block_found draw_theft eng winner
          /\ eng_blocks_found eng' = (eng_blocks_found eng + 1)%Z)
  /\ (Forall (fun c => 0 <= get_effective_hashrate (world eng) c) (eng_coalitions eng) ->
      exists eng',
        attempt_block_discovery exp draw_block draw_winner draw_theft eng = Ok eng').
Proof.
  intros Hdraw. unfold attempt_block_discovery.
  destruct (length (eng_coalitions eng) =? 0)%nat.
  { split; [intros eng' [= <-]; now left | intros _; now eexists]. }
  destruct (Qeq_bool _ 0).
  { split; [intros eng' [= <-]; now left | intros _; now eexists]. }
  set (total := fold_left _ (eng_coalitions eng) 0).
  split.
  - intros eng' H.
    destruct (get_block_finder exp (world eng) (eng_coalitions eng) total TIMESTEP DIFFICULTY
                draw_block draw_winner) as [[winner|]|e] eqn:Hf;
      cbn [mbind result_bind] in H; [| injection H as <-; now left | discriminate].
    injection H as <-. right. exists winner.
    unfold get_block_finder in Hf.
    destruct (Qle_bool total 0 || (DIFFICULTY <=? 0)%Z); [discriminate|].
    destruct (Qle_bool _ draw_block); [discriminate|].
    destruct (_ || _); [discriminate|].
    destruct (random_choices _ _ draw_winner) as [x|e] eqn:Hc; [|destruct e; discriminate].
    injection Hf as ->.
    destruct (random_choices_spec _ _ _ _ Hdraw Hc) as (i & w_i & Hpop & Hw & _ & Hpos).
    rewrite list_lookup_fmap, Hpop in Hw. injection Hw as <-.
    split; [apply list_elem_of_In; eapply list_elem_of_lookup_2; exact Hpop|].
    split; [exact Hpos|]. split; reflexivity.
  - intros Hnonneg.
    assert (Hfinder : exists r,
               get_block_finder exp (world eng) (eng_coalitions eng) total TIMESTEP DIFFICULTY
                 draw_block draw_winner = Ok r).
    { unfold get_block_finder.
      destruct (Qle_bool total 0 || (DIFFICULTY <=? 0)%Z); [now eexists|].
      destruct (Qle_bool _ draw_block); [now eexists|].
      destruct (length (eng_coalitions eng) =? 0)%nat; [now eexists|]. cbn [orb].
      destruct (Qeq_bool _ 0) eqn:Es; [now eexists|].
      apply Qeq_bool_false in Es.
      destruct (random_choices_total (eng_coalitions eng)
                  (map (get_effective_hashrate (world eng)) (eng_coalitions eng))
                  draw_winner) as [x Hx].
      - now rewrite length_map.
      - rewrite List.Forall_forall in *. intros x Hx. apply in_map_iff in Hx.
        destruct Hx as (c & <- & Hc). now apply Hnonneg.
      - exact Es.
      - rewrite Hx. now eexists. }
    destruct Hfinder as [[winner|] ->]; cbn [mbind result_bind]; now eexists.
Qed.

Lemma attempt_block_discovery_spec_witness :
  exists eng',
    attempt_block_discovery exp_approx 0 (1 # 2) 0 mining_engine = Ok eng'
    /\ (eng' = mining_engine
        \/ exists winner,
             In winner (eng_coalitions mining_engine)
             /\ 0 < get_effective_hashrate (world mining_engine) winner
             /\ eng' = handle_block_found 0 mining_engine winner
             /\ eng_blocks_found eng' = (eng_blocks_found mining_engine + 1)%Z).
Proof.
  destruct (attempt_block_discovery_spec exp_approx 0 (1 # 2) 0 mining_engine)
    as [Hcases Hreturns].
  - split; [discriminate | reflexivity].
  - destruct Hreturns as [eng' Heng'].
    + repeat constructor. vm_compute. discriminate.
    + exists eng'. split; [exact Heng' | exact (Hcases eng' Heng')].
Defined.

(** ** Transactions held by the miners *)

Lemma set_update_lookup (txs : list Transaction) (s : gmap Z Q) (k : Z) (x : Q) :
  set_update s txs !! k = Some x ->
  s !! k = Some x \/ In {| tx_id := k; fee := x |} txs.
Proof.
  unfold set_update. revert s. induction txs as [|tx txs IH]; intros s H; cbn [fold_left] in H.
  - now left.
  - apply IH in H. destruct H as [H | H]; [|right; now right].
    destruct (s !! tx_id tx) eqn:E; [now left|].
    destruct (decide (tx_id tx = k)) as [<-|Hne].
    + rewrite lookup_insert_eq in H. injection H as <-. right. left. now destruct tx.
    + rewrite lookup_insert_ne in H by exact Hne. now left.
Qed.

Lemma set_update_keeps (txs : list Transaction) (s : gmap Z Q) : s ⊆ set_update s txs.
Proof.
  unfold set_update. revert s. induction txs as [|tx txs IH]; intros s; cbn [fold_left].
  - reflexivity.
  - etrans; [|apply IH].
    destruct (s !! tx_id tx) eqn:E; [reflexivity | now apply insert_subseteq].
Qed.

Lemma random_sample_from {A : Type} (population : list A) (k : Z) (picks : list nat)
    (xs : list A) (x : A) :
  random_sample population k picks = Ok xs -> In x xs -> In x population.
Proof.
  unfold random_sample. destruct (_ || _); [discriminate|]. intros [= <-] Hx.
  apply list_elem_of_In, list_elem_of_omap in Hx. destruct Hx as (i & _ & Hi).
  apply list_elem_of_In. eapply list_elem_of_lookup_2. exact Hi.
Qed.

(** One call: what was held is still held, what is new comes from the
    pool handed in, and nobody else is touched. *)
Lemma collect_transactions_spec (w w' : World) (m : mref) (pool : list Transaction)
    (time_delta : Q) (picks : list nat) :
  collect_transactions w m pool time_delta picks = Ok w' ->
  (forall r, transactions (miner_at w r) ⊆ transactions (miner_at w' r))
  /\ (forall r k x,
        transactions (miner_at w' r) !! k = Some x ->
        transactions (miner_at w r) !! k = Some x
        \/ (r = m /\ In {| tx_id := k; fee := x |} pool)).
Proof.
  unfold collect_transactions.
  destruct (0 <? length _)%nat; [|intros [= <-]; split; [reflexivity | now left]].
  destruct (random_sample _ _ picks) as [new|e] eqn:Hs; [|discriminate].
  cbn [mbind result_bind]. intros [= <-]. split.
  - intros r. cbn [set_miner miner_at].
    destruct (Nat.eqb_spec r m) as [->|_]; [|reflexivity].
    cbn [miner_set_transactions transactions]. apply set_update_keeps.
  - intros r k x. cbn [set_miner miner_at].
    destruct (Nat.eqb_spec r m) as [->|_]; [|now left].
    cbn [miner_set_transactions transactions]. intros H.
    apply set_update_lookup in H. destruct H as [H | H]; [now left|].
    right. split; [reflexivity|].
    apply (random_sample_from _ _ _ _ _ Hs) in H.
    apply filter_In in H. apply H.
Qed.

Lemma collect_loop_spec (draws : nat -> list nat) (pool : list Transaction)
    (ms : list mref) (i : nat) (w w' : World) :
  collect_loop draws pool i ms w = Ok w' ->
  (forall r, transactions (miner_at w r) ⊆ transactions (miner_at w' r))
  /\ (forall r k x,
        transactions (miner_at w' r) !! k = Some x ->
        transactions (miner_at w r) !! k = Some x
        \/ (In r ms /\ In {| tx_id := k; fee := x |} pool)).
Proof.
  revert i w. induction ms as [|m ms IH]; intros i w H; cbn [collect_loop] in H.
  - injection H as <-. split; [reflexivity | now left].
  - destruct (collect_transactions w m pool TIMESTEP (draws i)) as [w1|e] eqn:H1; [|discriminate].
    cbn [mbind result_bind] in H.
    destruct (collect_transactions_spec _ _ _ _ _ _ H1) as [Hkeep1 Hnew1].
    destruct (IH _ _ H) as [Hkeep Hnew]. split.
    + intros r. etrans; [apply Hkeep1 | apply Hkeep].
    + intros r k x Hx. destruct (Hnew r k x Hx) as [Hold | [Hr Hp]].
      * destruct (Hnew1 r k x Hold) as [Hold' | [-> Hp]]; [now left|].
        right. split; [now left | exact Hp].
      * right. split; [now right | exact Hp].
Qed.

Lemma reward_step_transactions (c : cref) (total_work net_reward ecp_price : Q)
    (st : World * Q * list (mref * Q)) (member r : mref) :
  transactions (miner_at (fst (fst (reward_step c total_work net_reward ecp_price st member))) r)
  = transactions (miner_at (fst (fst st)) r).
Proof.
  destruct st as [[w u] calls]. unfold reward_step, update_utility, receive_reward.
  cbn [fst snd set_miner miner_at]. rewrite Nat.eqb_refl.
  destruct (Nat.eqb_spec r member) as [->|_]; reflexivity.
Qed.

Lemma reward_loop_transactions (c : cref) (total_work net_reward ecp_price : Q)
    (ms : list mref) (st : World * Q * list (mref * Q)) (r : mref) :
  transactions
    (miner_at (fst (fst (fold_left (reward_step c total_work net_reward ecp_price) ms st))) r)
  = transactions (miner_at (fst (fst st)) r).
Proof.
  revert st. induction ms as [|member ms IH]; intros st; cbn [fold_left]; [reflexivity|].
  rewrite IH. apply reward_step_transactions.
Qed.

Lemma distribute_rewards_transactions
    (smart_contract : bool) (draw : Q) (w : World) (c : cref) (block_reward ecp_price : Q)
    (r : mref) :
  transactions (miner_at (distribute_rewards smart_contract draw w c block_reward ecp_price) r)
  = transactions (miner_at w r).
Proof.
  unfold distribute_rewards, distribute_rewards_calls.
  destruct (Qeq_bool _ 0); [reflexivity|].
  destruct (Qle_bool _ 0); [reflexivity|].
  match goal with
  | |- context [fold_left (reward_step c ?tw ?nr ecp_price) ?ms ?st] =>
      pose proof (reward_loop_transactions c tw nr ecp_price ms st r) as H;
      destruct (fold_left (reward_step c tw nr ecp_price) ms st) as [[w1 u1] calls1]
  end.
  cbn [fst snd] in *. exact H.
Qed.

Lemma difference_update_subset (txs : list Transaction) (s : gmap Z Q) :
  difference_update s txs ⊆ s.
Proof.
  unfold difference_update. revert s.
  induction txs as [|tx txs IH]; intros s; cbn [fold_left]; [reflexivity|].
  etrans; [apply IH | apply delete_subseteq].
Qed.

Lemma clear_all_subset (txs : list Transaction) (ms : list mref) (w : World) (m : mref) :
  transactions (miner_at (fold_left (fun w' miner => clear_transactions w' miner txs) ms w) m)
  ⊆ transactions (miner_at w m).
Proof.
  revert w. induction ms as [|m0 ms IH]; intros w; cbn [fold_left]; [reflexivity|].
  etrans; [apply IH|].
  unfold clear_transactions. cbn [set_miner miner_at].
  destruct (Nat.eqb_spec m m0) as [->|_]; [|reflexivity].
  cbn [miner_set_transactions transactions]. apply difference_update_subset.
Qed.

Lemma difference_update_other (txs : list Transaction) (s : gmap Z Q) (k : Z) :
  ~ In k (map tx_id txs) -> difference_update s txs !! k = s !! k.
Proof.
  unfold difference_update. revert s.
  induction txs as [|tx txs IH]; intros s Hk; cbn [fold_left]; [reflexivity|].
  rewrite IH by (intros H; apply Hk; now right).
  apply lookup_delete_ne. intros E. apply Hk. now left.
Qed.

(** X20.  If every miner of the engine holds only transactions of the
    global pool, this is still so after the miners collect transactions,
    whatever is drawn, and after a block is found.  Collecting never drops
    a held transaction and never touches the global pool. *)
Theorem held_in_pool_invariant (eng : Engine) :
  held_in_pool eng ->
  (forall draws eng',
     miners_collect_transactions draws eng = Ok eng' ->
     held_in_pool eng'
     /\ global_transaction_pool eng' = global_transaction_pool eng
     /\ forall m, transactions (miner_at (world eng) m)
                  ⊆ transactions (miner_at (world eng') m))
  /\ (forall draw coalition, held_in_pool (handle_block_found draw eng coalition)).
Proof.
  intros Hheld. split.
  - intros draws eng'. unfold miners_collect_transactions.
    destruct (collect_loop _ _ _ _ _) as [w1|e] eqn:Hloop; [|discriminate].
    cbn [mbind result_bind]. intros [= <-].
    destruct (collect_loop_spec _ _ _ _ _ _ Hloop) as [Hkeep Hnew].
    split; [|split; [reflexivity | exact Hkeep]].
    intros m Hm. cbn [eng_miners world global_transaction_pool] in *.
    apply map_subseteq_spec. intros k x Hx.
    destruct (Hnew m k x Hx) as [Hold | [_ Hp]].
    + pose proof (Hheld m Hm) as Hsub. rewrite map_subseteq_spec in Hsub. now apply Hsub.
    + apply in_map_iff in Hp. destruct Hp as ([k' x'] & [= -> ->] & Hp).
      apply list_elem_of_In in Hp. now apply elem_of_map_to_list in Hp.
  - intros draw coalition m Hm. unfold handle_block_found.
    cbn [eng_miners world global_transaction_pool] in *.
    set (selected := select_transactions_for_block (world eng) coalition
                       TRANSACTIONS_PER_BLOCK_I).
    apply map_subseteq_spec. intros k x Hx.
    destruct (in_dec Z.eq_dec k (map tx_id selected)) as [Hin | Hout].
    + rewrite (clear_all_transactions selected _ _ m k Hin (or_introl Hm)) in Hx.
      discriminate.
    + rewrite (difference_update_other _ _ _ Hout).
      match type of Hx with
      | context [fold_left _ ?ms ?w0] =>
          pose proof (clear_all_subset selected ms w0 m) as Hsub
      end.
      rewrite map_subseteq_spec in Hsub. apply Hsub in Hx.
      cbn [set_coalition miner_at] in Hx.
      rewrite distribute_rewards_transactions in Hx.
      pose proof (Hheld m Hm) as Hg. rewrite map_subseteq_spec in Hg. now apply Hg.
Qed.

Lemma held_in_pool_invariant_witness :
  held_in_pool mining_engine /\ held_in_pool (handle_block_found 0 mining_engine 0%nat).
Proof.
  assert (H : held_in_pool mining_engine).
  { intros m Hm. cbn [mining_engine eng_miners] in Hm.
    destruct Hm as [<- | [<- | []]].
    - change (<[5%Z := 40]> (<[6%Z := 10]> (∅ : gmap Z Q))
              ⊆ global_transaction_pool mining_engine).
      apply insert_subseteq_l; [reflexivity|].
      apply insert_subseteq_l; [reflexivity|]. apply map_empty_subseteq.
    - change (<[6%Z := 10]> (<[8%Z := 25]> (∅ : gmap Z Q))
              ⊆ global_transaction_pool mining_engine).
      apply insert_subseteq_l; [reflexivity|].
      apply insert_subseteq_l; [reflexivity|]. apply map_empty_subseteq. }
  split; [exact H|].
  destruct (held_in_pool_invariant mining_engine H) as [_ Hblock]. apply Hblock.
Defined.

Lemma set_update_size (txs : list Transaction) (s : gmap Z Q) :
  NoDup (map tx_id txs) ->
  (forall tx, In tx txs -> s !! tx_id tx = None) ->
  size (set_update s txs) = (size s + length txs)%nat.
Proof.
  unfold set_update. revert s.
  induction txs as [|tx txs IH]; intros s Hnd Hnew; cbn [fold_left length].
  - lia.
  - cbn [map] in Hnd. apply NoDup_cons in Hnd. destruct Hnd as [Hnotin Hnd].
    rewrite (Hnew tx) by now left.
    rewrite IH.
    + rewrite map_size_insert_None by (apply Hnew; now left). lia.
    + exact Hnd.
    + intros t Ht. rewrite lookup_insert_ne; [apply Hnew; now right|].
      intros E. apply Hnotin. rewrite E. apply list_elem_of_In. now apply in_map.
Qed.

Lemma sample_at_picks (population : list Transaction) (picks : list nat) :
  NoDup (map tx_id population) ->
  NoDup picks ->
  (forall i, In i picks -> (i < length population)%nat) ->
  let xs := omap (fun i => population !! i) picks in
  length xs = length picks
  /\ NoDup (map tx_id xs)
  /\ forall x, In x xs -> exists i, In i picks /\ population !! i = Some x.
Proof.
  intros Hpop. cbv zeta. induction picks as [|i picks IH]; intros Hnd Hrange.
  - cbn. split; [reflexivity|]. split; [constructor | intros x []].
  - apply NoDup_cons in Hnd. destruct Hnd as [Hi Hnd].
    destruct (IH Hnd (fun j Hj => Hrange j (or_intror Hj))) as (Hlen & Hids & Hfrom).
    destruct (lookup_lt_is_Some_2 population i (Hrange i (or_introl eq_refl))) as [x Hx].
    cbn [omap list_omap]. rewrite Hx. cbn [length map].
    split; [now rewrite Hlen|]. split.
    + apply NoDup_cons. split; [|exact Hids].
      intros Hin. apply list_elem_of_In, in_map_iff in Hin.
      destruct Hin as (y & Hy & Hiny). destruct (Hfrom y Hiny) as (j & Hj & Hpj).
      assert (Hij : i = j).
      { apply (NoDup_lookup (map tx_id population) i j (tx_id x) Hpop).
        - now rewrite list_lookup_fmap, Hx.
        - rewrite list_lookup_fmap, Hpj. cbn. now rewrite Hy. }
      subst j. apply Hi. now apply list_elem_of_In.
    + intros y [<- | Hy].
      * exists i. split; [now left | exact Hx].
      * destruct (Hfrom y Hy) as (j & Hj & Hpj). exists j. split; [now right | exact Hpj].
Qed.

Lemma filter_ids_NoDup (f : Transaction -> bool) (l : list Transaction) :
  NoDup (map tx_id l) -> NoDup (map tx_id (List.filter f l)).
Proof.
  induction l as [|t l IH]; intros H; cbn [List.filter map] in *; [exact H|].
  apply NoDup_cons in H. destruct H as [Ht H].
  destruct (f t); [|now apply IH].
  cbn [map]. apply NoDup_cons. split; [|now apply IH].
  intros Hin. apply Ht. apply list_elem_of_In in Hin. apply list_elem_of_In.
  apply in_map_iff in Hin. destruct Hin as (y & <- & Hy).
  apply filter_In in Hy. apply in_map. apply Hy.
Qed.

(** X21.  [collect_transactions] leaves the miner alone when the pool
    offers nothing it does not hold; otherwise it raises [ValueError] when
    the collection rate times the interval truncates to a negative number,
    and else the miner ends up holding exactly min(that number, number of
    transactions on offer) more transactions than before. *)
Theorem collect_transactions_count (w : World) (m : mref) (pool : list Transaction)
    (time_delta : Q) (picks : list nat) :
  let self := miner_at w m in
  let num_to_collect := int_of_Q (inject_Z (transaction_collection_rate self) * time_delta) in
  let available :=
    List.filter
      (fun tx => match transactions self !! tx_id tx with Some _ => false | None => true end)
      pool in
  let k := Z.min num_to_collect (Z.of_nat (length available)) in
  (available = [] -> collect_transactions w m pool time_delta picks = Ok w)
  /\ (available <> [] -> (num_to_collect < 0)%Z ->
      collect_transactions w m pool time_delta picks = Raise ValueError)
  /\ (available <> [] -> (0 <= num_to_collect)%Z ->
      NoDup (map tx_id pool) ->
      valid_picks (length available) k picks ->
      exists w',
        collect_transactions w m pool time_delta picks = Ok w'
        /\ size (transactions (miner_at w' m))
           = (size (transactions self) + Z.to_nat k)%nat).
Proof.
  cbv zeta. unfold collect_transactions.
  set (available := List.filter _ pool).
  set (n := int_of_Q _).
  split; [|split].
  - intros ->. reflexivity.
  - intros Hne Hneg.
    destruct available as [|t rest]; [contradiction|].
    cbn [length Nat.ltb Nat.leb]. unfold random_sample.
    replace (Z.min n (Z.of_nat (S (length rest))) <? 0)%Z with true
      by (symmetry; apply Z.ltb_lt; lia).
    reflexivity.
  - intros Hne Hpos Hpool (Hlen & Hnd & Hrange).
    assert (Hsome : (0 <? length available)%nat = true).
    { destruct available; [contradiction | reflexivity]. }
    rewrite Hsome. unfold random_sample.
    replace (Z.min n (Z.of_nat (length available)) <? 0)%Z with false
      by (symmetry; apply Z.ltb_ge; lia).
    replace (Z.of_nat (length available) <? Z.min n (Z.of_nat (length available)))%Z
      with false by (symmetry; apply Z.ltb_ge; lia).
    cbn [orb mbind result_bind]. eexists. split; [reflexivity|].
    cbn [set_miner miner_at]. rewrite Nat.eqb_refl.
    cbn [miner_set_transactions transactions].
    pose proof (sample_at_picks available picks
                  (filter_ids_NoDup _ pool Hpool) Hnd Hrange) as Hs.
    cbv zeta in Hs. destruct Hs as (Hl & Hids & Hfrom).
    rewrite set_update_size.
    + rewrite Hl. lia.
    + exact Hids.
    + intros tx Htx. destruct (Hfrom tx Htx) as (i & _ & Hi).
      apply list_elem_of_lookup_2, list_elem_of_In in Hi.
      apply filter_In in Hi. destruct Hi as [_ Hi].
      destruct (transactions (miner_at w m) !! tx_id tx); [discriminate | reflexivity].
Qed.

Lemma collect_transactions_count_witness :
  exists w',
    collect_transactions mining_world 0%nat mining_pool 1 [1%nat; 0%nat] = Ok w'
    /\ size (transactions (miner_at w' 0%nat)) = 4%nat.
Proof.
  destruct (collect_transactions_count mining_world 0%nat mining_pool 1 [1%nat; 0%nat])
    as (_ & _ & Hcount).
  cbv zeta in Hcount.
  destruct Hcount as (w' & Hw' & Hsize).
  - vm_compute. discriminate.
  - vm_compute. discriminate.
  - apply (bool_decide_unpack _). vm_compute. reflexivity.
  - split; [vm_compute; reflexivity|]. split.
    + apply (bool_decide_unpack _). vm_compute. reflexivity.
    + intros i [<- | [<- | []]]; vm_compute; lia.
  - exists w'. split; [exact Hw'|]. rewrite Hsize. vm_compute. reflexivity.
Defined.

(** ** Statistics of the provider *)

Lemma average_between (lo hi : Q) (l : list Q) :
  Forall (fun x => lo <= x <= hi) l ->
  l <> [] ->
  lo <= Qsum l / inject_Z (Z.of_nat (length l)) <= hi.
Proof.
  intros Hall Hne.
  assert (Hsum : lo * inject_Z (Z.of_nat (length l)) <= Qsum l
                 /\ Qsum l <= hi * inject_Z (Z.of_nat (length l))).
  { clear Hne. induction Hall as [|x l Hx _ IH].
    - change (inject_Z (Z.of_nat (length (@nil Q)))) with 0. unfold Qsum. cbn. lra.
    - rewrite Qsum_cons. cbn [length]. rewrite Nat2Z.inj_succ, <- Z.add_1_r, inject_Z_plus.
      change (inject_Z 1) with 1. lra. }
  assert (Hpos : 0 < inject_Z (Z.of_nat (length l))).
  { apply inject_nat_pos. destruct l; [contradiction | simpl; lia]. }
  split; [apply Qle_shift_div_l | apply Qle_shift_div_r]; lra.
Qed.

Lemma apply_ecp_op_load (e : ECP) (op : ecp_op) :
  sane_op op -> load_ok e -> load_ok (apply_ecp_op e op).
Proof.
  intros Hop (Hcap & Hload & Hhist & Hdem).
  destruct op as [w cs | c n | | w cs | w reqs | ]; cbn [apply_ecp_op sane_op] in *.
  - unfold set_optimal_price. destruct (length cs =? 0)%nat; now repeat split.
  - pose proof (allocate_compute_step e c n Hop Hload) as Hstep. cbv zeta in Hstep.
    destruct Hstep as (_ & _ & _ & Hgranted & Hload').
    pose proof (allocate_compute_capacity e c n) as Hc.
    unfold load_ok. rewrite Hc. split; [exact Hcap|]. split; [exact Hload'|].
    revert Hgranted Hload'. unfold allocate_compute.
    destruct (Qle_bool _ 0) eqn:E; cbn [fst snd ecp_append_request demand_history
                                         total_demand current_load total_capacity].
    + intros _ _. now split.
    + intros Hgranted Hload'. split.
      * apply Forall_app. split; [exact Hhist|]. constructor; [|constructor].
        rewrite <- Hcap. lra.
      * lra.
  - unfold load_ok. cbn [reset_load total_capacity current_load demand_history total_demand].
    repeat split; try assumption; lra.
  - now repeat split.
  - unfold optimize_overlapping_work.
    destruct (negb _); [now repeat split|]. destruct (_ <? 2)%nat; now repeat split.
  - now repeat split.
Qed.

Lemma run_ecp_ops_load (ops : list ecp_op) (e : ECP) :
  Forall sane_op ops -> load_ok e -> load_ok (run_ecp_ops e ops).
Proof.
  unfold run_ecp_ops. revert e.
  induction ops as [|op ops IH]; intros e Hops He; cbn [fold_left]; [exact He|].
  apply Forall_cons in Hops. destruct Hops as [Hop Hops].
  apply IH; [exact Hops | now apply apply_ecp_op_load].
Qed.

Lemma run_ecp_ops_prices (ops : list ecp_op) (e : ECP) :
  in_price_band (price_per_hash e) /\ Forall in_price_band (price_history e) ->
  in_price_band (price_per_hash (run_ecp_ops e ops))
  /\ Forall in_price_band (price_history (run_ecp_ops e ops)).
Proof.
  unfold run_ecp_ops. revert e.
  induction ops as [|op ops IH]; intros e He; cbn [fold_left]; [exact He|].
  apply IH. now apply apply_ecp_op_price.
Qed.

(** X22.  For a newly created provider and any sequence of calls that ask
    for no negative amount of compute, the capacity utilisation stays
    between 0 and 100 percent, the average price lies in the price band,
    and the average demand lies between 0 and the capacity. *)
Theorem provider_statistics_bounds (ops : list ecp_op) :
  Forall sane_op ops ->
  let e := run_ecp_ops new_ECP ops in
  0 <= get_capacity_utilization e <= 100
  /\ in_price_band (get_average_price e)
  /\ 0 <= get_average_demand e <= ECP_MAX_CAPACITY_L
  /\ 0 <= get_total_demand e.
Proof.
  intros Hops. cbv zeta.
  assert (Hload : load_ok (run_ecp_ops new_ECP ops)).
  { apply run_ecp_ops_load; [exact Hops|].
    unfold load_ok. cbn. repeat split; try constructor; vm_compute; discriminate. }
  assert (Hprice : in_price_band (price_per_hash (run_ecp_ops new_ECP ops))
                   /\ Forall in_price_band (price_history (run_ecp_ops new_ECP ops))).
  { apply run_ecp_ops_prices. split; [|constructor].
    unfold in_price_band. cbn. split; vm_compute; discriminate. }
  set (e := run_ecp_ops new_ECP ops) in *.
  destruct Hload as (Hcap & Hl & Hhist & Hdem). destruct Hprice as [Hp Hph].
  split; [|split; [|split]].
  - unfold get_capacity_utilization. rewrite Hcap in *.
    change (Qeq_bool ECP_MAX_CAPACITY_L 0) with false. cbv iota.
    unfold ECP_MAX_CAPACITY_L in *.
    assert (H : 0 <= current_load e / 10000000000 <= 1).
    { split; [apply Qle_shift_div_l | apply Qle_shift_div_r]; lra. }
    lra.
  - unfold get_average_price.
    destruct (price_history e) as [|p l] eqn:E; [exact Hp|].
    cbn [length Nat.eqb]. apply (average_between _ _ (p :: l) Hph). discriminate.
  - unfold get_average_demand.
    destruct (demand_history e) as [|d l] eqn:E.
    + cbn [length Nat.eqb]. split; [lra | vm_compute; discriminate].
    + cbn [length Nat.eqb]. apply (average_between _ _ (d :: l) Hhist). discriminate.
  - exact Hdem.
Qed.

Lemma provider_statistics_bounds_witness :
  0 <= get_capacity_utilization
         (run_ecp_ops new_ECP [AllocateCompute 0%nat 2500000000; CalculateUtility])
    <= 100.
Proof.
  apply (provider_statistics_bounds [AllocateCompute 0%nat 2500000000; CalculateUtility]).
  repeat constructor. vm_compute. discriminate.
Defined.

(** ** Probability of a block *)

Lemma Qsum_member_le {A : Type} (f : A -> Q) (l : list A) (x : A) :
  Forall (fun y => 0 <= f y) l -> In x l -> f x <= Qsum (map f l).
Proof.
  induction 1 as [|y l Hy Hl IH]; intros Hin; [contradiction|].
  cbn [map]. rewrite Qsum_cons.
  assert (Hrest : 0 <= Qsum (map f l)).
  { apply Qsum_nonneg. apply List.Forall_forall. intros z Hz.
    apply in_map_iff in Hz. destruct Hz as (u & <- & Hu).
    rewrite List.Forall_forall in Hl. now apply Hl. }
  destruct Hin as [<- | Hin]; [lra|]. specialize (IH Hin). lra.
Qed.

(** X23.  With a total that is the sum of the coalitions' effective
    hashrates, none of them negative, a positive difficulty and an interval
    that is not negative, the probability
    [calculate_block_discovery_probability] gives a coalition is its
    hashrate share of the network's probability [1 - exp(-lambda t)], the
    cap at 1 never applies, and the probabilities of the coalitions add up
    to the network's probability.  Only [0 < exp x <= 1] for [x <= 0] is
    used of the exponential. *)
Theorem block_discovery_probabilities_sum (exp : Q -> Q) (w : World) (cs : list cref)
    (time_delta : Q) (difficulty : Z) :
  (forall x, x <= 0 -> 0 < exp x <= 1) ->
  Forall (fun c => 0 <= get_effective_hashrate w c) cs ->
  let total := Qsum (map (get_effective_hashrate w) cs) in
  let base_prob := 1 - exp (- (total / inject_Z difficulty) * time_delta) in
  let p c := calculate_block_discovery_probability exp w c total time_delta difficulty in
  0 < total ->
  (0 < difficulty)%Z ->
  0 <= time_delta ->
  (forall c, In c cs ->
     p c == get_effective_hashrate w c / total * base_prob /\ 0 <= p c <= base_prob)
  /\ 0 <= base_prob < 1
  /\ Qsum (map p cs) == base_prob.
Proof.
  intros Hexp Hnonneg. cbv zeta.
  set (total := Qsum (map (get_effective_hashrate w) cs)).
  set (base_prob := 1 - exp (- (total / inject_Z difficulty) * time_delta)).
  intros Htotal Hdiff Htime.
  assert (Hd : 0 < inject_Z difficulty).
  { change 0 with (inject_Z 0). rewrite <- Zlt_Qlt. exact Hdiff. }
  assert (Hlambda : 0 < total / inject_Z difficulty).
  { apply Qlt_shift_div_l; lra. }
  assert (Harg : - (total / inject_Z difficulty) * time_delta <= 0) by nra.
  pose proof (Hexp _ Harg) as Hrange. fold base_prob in Hrange.
  assert (Hbase : 0 <= base_prob < 1) by (unfold base_prob; lra).
  assert (Heach : forall c, In c cs ->
             calculate_block_discovery_probability exp w c total time_delta difficulty
             == get_effective_hashrate w c / total * base_prob
             /\ 0 <= get_effective_hashrate w c / total <= 1).
  { intros c Hc. unfold calculate_block_discovery_probability.
    destruct (Qeq_bool total 0) eqn:E; [apply Qeq_bool_iff in E; lra|].
    destruct (Z.eqb_spec difficulty 0) as [|_]; [lia|].
    fold base_prob.
    assert (Hh : 0 <= get_effective_hashrate w c).
    { rewrite List.Forall_forall in Hnonneg. now apply Hnonneg. }
    pose proof (Qsum_member_le (get_effective_hashrate w) cs c Hnonneg Hc) as Hle.
    fold total in Hle.
    assert (Hshare : 0 <= get_effective_hashrate w c / total <= 1).
    { split; [apply Qle_shift_div_l | apply Qle_shift_div_r]; lra. }
    split; [|exact Hshare].
    apply Q.min_r. nra. }
  split; [|split; [exact Hbase|]].
  - intros c Hc. destruct (Heach c Hc) as [Heq Hshare].
    split; [exact Heq|]. rewrite Heq. split; nra.
  - rewrite (Qsum_map_ext _ (fun c => get_effective_hashrate w c * (base_prob / total))).
    + rewrite Qsum_map_scale. fold total. field. lra.
    + intros c Hc. destruct (Heach c Hc) as [Heq _]. rewrite Heq. field. lra.
Qed.

Lemma block_discovery_probabilities_sum_witness :
  Qsum (map (fun c => calculate_block_discovery_probability exp_approx pool_world c
                        (Qsum (map (get_effective_hashrate pool_world) [0%nat]))
                        1 DIFFICULTY) [0%nat])
  == 1 - exp_approx (- (Qsum (map (get_effective_hashrate pool_world) [0%nat])
                        / inject_Z DIFFICULTY) * 1).
Proof.
  apply (block_discovery_probabilities_sum exp_approx pool_world [0%nat] 1 DIFFICULTY).
  - intros x Hx. unfold exp_approx.
    split; [apply Qlt_shift_div_l | apply Qle_shift_div_r]; lra.
  - repeat constructor. vm_compute. discriminate.
  - vm_compute. reflexivity.
  - reflexivity.
  - discriminate.
Defined.

(** ** Purchase of compute by bisection *)

Lemma get_expected_utility_with_compute_returns (w : World) (c : cref)
    (compute price total : Q) :
  0 <= total -> 0 <= compute ->
  exists u, get_expected_utility_with_compute w c compute price total = Some u /\ 0 <= u.
Proof.
  intros Ht Hc. unfold get_expected_utility_with_compute.
  destruct (Qeq_bool total 0) eqn:E; [exists 0; split; [reflexivity | lra]|].
  apply Qeq_bool_false in E.
  destruct (Qeq_bool (total + compute) 0) eqn:E2.
  - apply Qeq_bool_iff in E2. lra.
  - eexists. split; [reflexivity | apply Q.le_max_l].
Qed.

Lemma purchase_search_spec (n : nat) (w : World) (c : cref) (price total : Q) :
  0 <= total ->
  forall lower upper bu,
    0 <= lower < upper ->
    get_expected_utility_with_compute w c lower price total = Some bu ->
    exists best ub,
      purchase_search n w c price total lower upper lower bu = Some best
      /\ lower <= best < upper
      /\ get_expected_utility_with_compute w c best price total = Some ub
      /\ bu <= ub
      /\ (lower < best -> bu < ub).
Proof.
  intros Ht. induction n as [|n IH]; intros lower upper bu Hb Hu; cbn [purchase_search].
  - exists lower, bu. split; [reflexivity|]. split; [lra|]. split; [exact Hu|].
    split; lra.
  - set (mid := (lower + upper) / 2).
    assert (Hmid : lower < mid < upper).
    { unfold mid. split; [apply Qlt_shift_div_l | apply Qlt_shift_div_r]; lra. }
    destruct (get_expected_utility_with_compute_returns w c mid price total Ht ltac:(lra))
      as (u & Hum & _).
    rewrite Hum. cbn [mbind option_bind].
    destruct (Qlt_bool bu u) eqn:E.
    + apply Qlt_bool_iff in E.
      destruct (IH mid upper u ltac:(lra) Hum) as (best & ub & Hs & Hr & Hub & Hle & _).
      exists best, ub. split; [exact Hs|]. split; [lra|]. split; [exact Hub|].
      split; lra.
    + apply Qlt_bool_false in E.
      destruct (IH lower mid bu ltac:(lra) Hu) as (best & ub & Hs & Hr & Hub & Hle & Hgt).
      exists best, ub. split; [exact Hs|]. split; [lra|]. split; [exact Hub|].
      split; [exact Hle | exact Hgt].
Qed.

(** X24.  With a total network hashrate that is not negative,
    [calculate_optimal_compute_purchase] returns (no division by zero
    occurs) an amount from 0 up to, but not including, the upper bound of
    the search, and the expected utility with that amount is at least the
    utility of buying nothing: it is strictly higher whenever the amount
    returned is not 0. *)
Theorem calculate_optimal_compute_purchase_spec (w : World) (c : cref)
    (price cost total : Q) :
  0 <= total ->
  exists best u0 ub,
    calculate_optimal_compute_purchase w c price cost total = Some best
    /\ 0 <= best < 10000000000
    /\ get_expected_utility_with_compute w c 0 price total = Some u0
    /\ get_expected_utility_with_compute w c best price total = Some ub
    /\ u0 <= ub
    /\ (0 < best -> u0 < ub).
Proof.
  intros Ht. unfold calculate_optimal_compute_purchase. cbv zeta.
  destruct (get_expected_utility_with_compute_returns w c 0 price total Ht ltac:(lra))
    as (u0 & Hu0 & _).
  rewrite Hu0. cbn [mbind option_bind].
  destruct (purchase_search_spec 20 w c price total Ht 0 10000000000 u0 ltac:(lra) Hu0)
    as (best & ub & Hs & Hr & Hub & Hle & Hgt).
  exists best, u0, ub. repeat split; try assumption; lra.
Qed.

Lemma calculate_optimal_compute_purchase_spec_witness :
  exists best u0 ub,
    calculate_optimal_compute_purchase pool_world 0%nat 200 100 400000000 = Some best
    /\ 0 <= best < 10000000000
    /\ get_expected_utility_with_compute pool_world 0%nat 0 200 400000000 = Some u0
    /\ get_expected_utility_with_compute pool_world 0%nat best 200 400000000 = Some ub
    /\ u0 <= ub
    /\ (0 < best -> u0 < ub).
Proof.
  apply (calculate_optimal_compute_purchase_spec pool_world 0%nat 200 100 400000000).
  discriminate.
Defined.

(** ** The two price searches *)

Lemma calculate_optimal_compute_demand_le_work (w : World) (c : cref) (price cost : Q) :
  0 <= get_total_work w c ->
  calculate_optimal_compute_demand w c price cost <= get_total_work w c * (5 # 10).
Proof.
  intros Hw. unfold calculate_optimal_compute_demand.
  destruct (Qlt_bool _ price); [lra|].
  destruct (Qeq_bool (get_total_work w c) 0) eqn:Ework; [lra|].
  apply Qeq_bool_false in Ework.
  set (mh := get_total_work w c) in *.
  set (R := expected_rewards (coalition_at w c)) in *.
  assert (Hn : 1 <= inject_Z (Z.of_nat (get_size w c))).
  { unfold get_size. destruct (members (coalition_at w c)) eqn:Hms.
    - exfalso. apply Ework. unfold mh. now rewrite get_total_work_no_members.
    - change 1 with (inject_Z 1). rewrite <- Zle_Qle. simpl length. lia. }
  set (n := inject_Z (Z.of_nat (get_size w c))) in *.
  set (factor := (5 # 10) / (1 + (n - 1) * (1 # 10))).
  assert (Hfactor : 0 < factor /\ factor <= 5 # 10).
  { unfold factor. split; [apply Qlt_shift_div_l | apply Qle_shift_div_r]; lra. }
  destruct (Qlt_bool (R * (2 # 10)) (mh * factor * price)) eqn:Ecost.
  - apply Qlt_bool_iff in Ecost.
    destruct (Qlt_bool 0 price) eqn:Eprice.
    + apply Qlt_bool_iff in Eprice.
      assert (Hlt : R * (2 # 10) / price < mh * factor).
      { apply Qlt_shift_div_r; [exact Eprice | lra]. }
      apply Q.max_lub; nra.
    + apply Q.max_lub; nra.
  - apply Q.max_lub; nra.
Qed.

Lemma total_demand_le_work (e : ECP) (w : World) (cs : list cref) (price : Q) :
  Forall (fun c => 0 <= get_total_work w c) cs ->
  fold_left
    (fun total_demand coalition =>
       total_demand
       + calculate_optimal_compute_demand w coalition price (operating_cost_per_hash e))
    cs 0
  <= Qsum (map (get_total_work w) cs) * (5 # 10).
Proof.
  intros Hw.
  rewrite (fold_left_add_map
             (fun coalition =>
                calculate_optimal_compute_demand w coalition price (operating_cost_per_hash e))).
  rewrite Qplus_0_l, <- Qsum_map_scale. apply Qsum_le.
  intros c Hc. apply calculate_optimal_compute_demand_le_work.
  rewrite List.Forall_forall in Hw. now apply Hw.
Qed.

Lemma Qmin_left (x y : Q) : x <= y -> Qmin x y = x.
Proof.
  intros H. unfold Qmin, GenericMinMax.gmin.
  destruct (x ?= y) eqn:E; try reflexivity.
  apply Qgt_alt in E. lra.
Qed.

Lemma calculate_ecp_utility_at_price_same (e : ECP) (w : World) (cs : list cref) (price : Q) :
  Forall (fun c => 0 <= get_total_work w c) cs ->
  Qsum (map (get_total_work w) cs) * (5 # 10) <= total_capacity e ->
  calculate_utility_at_price e w cs price = calculate_ecp_utility_at_price e w cs price.
Proof.
  intros Hw Hcap. unfold calculate_utility_at_price, calculate_ecp_utility_at_price.
  cbv zeta. rewrite Qmin_left; [reflexivity|].
  pose proof (total_demand_le_work e w cs price Hw). lra.
Qed.

Lemma ecp_price_search_same (n : nat) (e : ECP) (w : World) (cs : list cref) (p lr : Q) :
  Forall (fun c => 0 <= get_total_work w c) cs ->
  Qsum (map (get_total_work w) cs) * (5 # 10) <= total_capacity e ->
  ecp_price_search n e w cs p lr STACKELBERG_CONVERGENCE_THRESHOLD
  = price_ascent n e w cs p lr.
Proof.
  intros Hw Hcap. revert p lr.
  induction n as [|n IH]; intros p lr; cbn [ecp_price_search price_ascent]; [reflexivity|].
  cbv zeta. rewrite !(calculate_ecp_utility_at_price_same e w cs _ Hw Hcap).
  destruct (Qlt_bool _ STACKELBERG_CONVERGENCE_THRESHOLD); [reflexivity|].
  apply IH.
Qed.

Lemma ecp_price_search_band (n : nat) (e : ECP) (w : World) (cs : list cref)
    (p lr threshold : Q) :
  ecp_price_search n e w cs p lr threshold = p
  \/ 0 <= ecp_price_search n e w cs p lr threshold <= 450.
Proof.
  revert p lr. induction n as [|n IH]; intros p lr; cbn [ecp_price_search].
  - now left.
  - cbv zeta. destruct (Qlt_bool _ threshold); [now left|]. right.
    match goal with
    | |- 0 <= ecp_price_search n e w cs ?q ?l threshold <= 450 =>
        destruct (IH q l) as [-> | Hband]; [|exact Hband]
    end.
    split; [apply Q.le_max_l | apply Q.max_lub; [lra | apply Q.le_min_l]].
Qed.

Lemma price_ascent_no_coalitions (n : nat) (e : ECP) (w : World) (p lr : Q) :
  0 <= total_capacity e -> price_ascent n e w [] p lr = p.
Proof.
  intros Hcap. destruct n as [|n]; cbn [price_ascent]; [reflexivity|]. cbv zeta.
  assert (Hzero : forall q, calculate_utility_at_price e w [] q == 0).
  { intros q. unfold calculate_utility_at_price. cbn [fold_left].
    rewrite (Qmin_left 0 (total_capacity e) Hcap).
    rewrite Q.max_l; [reflexivity | lra]. }
  assert (Hconv : Qlt_bool
                    (Qabs ((calculate_utility_at_price e w [] (p + (1 # 100))
                            - calculate_utility_at_price e w [] p) / (1 # 100)))
                    STACKELBERG_CONVERGENCE_THRESHOLD = true).
  { apply Qlt_bool_iff. rewrite !Hzero.
    unfold STACKELBERG_CONVERGENCE_THRESHOLD. vm_compute. reflexivity. }
  now rewrite Hconv.
Qed.

(** X25.  [calculate_optimal_ecp_price] returns the provider's price
    unchanged or a price between 0 and 450.  When the provider's capacity
    covers half of the coalitions' total work (no work negative), the
    capacity cap in [ECP._calculate_utility_at_price] never applies: the two
    utility functions agree at every price, and with its default parameters
    the search of [simulation/utils.py] returns exactly the price that
    [ECP.set_optimal_price] sets. *)
Theorem calculate_optimal_ecp_price_spec (e : ECP) (w : World) (cs : list cref) :
  (forall lr n threshold,
     calculate_optimal_ecp_price e w cs lr n threshold = price_per_hash e
     \/ 0 <= calculate_optimal_ecp_price e w cs lr n threshold <= 450)
  /\ (Forall (fun c => 0 <= get_total_work w c) cs ->
      Qsum (map (get_total_work w) cs) * (5 # 10) <= total_capacity e ->
      (forall price,
         calculate_ecp_utility_at_price e w cs price
         = calculate_utility_at_price e w cs price)
      /\ calculate_optimal_ecp_price e w cs (1 # 100) 100 (1 # 100)
         = price_per_hash (set_optimal_price e w cs)).
Proof.
  split.
  - intros lr n threshold. apply ecp_price_search_band.
  - intros Hw Hcap. split.
    + intros price. symmetry. now apply calculate_ecp_utility_at_price_same.
    + unfold calculate_optimal_ecp_price.
      change (Z.to_nat 100) with STACKELBERG_MAX_ITERATIONS.
      change (1 # 100) with STACKELBERG_CONVERGENCE_THRESHOLD at 2.
      rewrite (ecp_price_search_same _ e w cs _ _ Hw Hcap).
      unfold set_optimal_price.
      destruct cs as [|c cs]; cbn [length Nat.eqb price_per_hash]; [|reflexivity].
      apply price_ascent_no_coalitions.
      unfold Qsum in Hcap. cbn [map fold_left] in Hcap. lra.
Qed.

Lemma calculate_optimal_ecp_price_spec_witness :
  calculate_optimal_ecp_price new_ECP pool_world [0%nat] (1 # 100) 100 (1 # 100)
  = price_per_hash (set_optimal_price new_ECP pool_world [0%nat]).
Proof.
  destruct (calculate_optimal_ecp_price_spec new_ECP pool_world [0%nat]) as [_ Hsame].
  apply Hsame.
  - repeat constructor. vm_compute. discriminate.
  - vm_compute. discriminate.
Defined.

(** ** Work helpers and statistics *)

(** X26.  The work helpers of [simulation/utils.py] compute what the
    methods of [Miner] compute: [allocate_work_time] stores exactly the
    dictionary [calculate_optimal_work_allocation] returns for the miner's
    own coalitions, and for a coalition the miner is in,
    [calculate_effective_hashrate] with the configured overhead is
    [get_work_contribution].  For a coalition the miner is not in the
    method returns 0 whatever the helper returns. *)
Theorem work_helpers_agree (w : World) (m : mref) :
  allocate_work_time w m
  = set_miner w m
      (miner_set_allocation (miner_at w m)
         (calculate_optimal_work_allocation w m (coalitions (miner_at w m))))
  /\ forall c,
       (coalition_in w c (coalitions (miner_at w m)) = true ->
        calculate_effective_hashrate w m c CONTEXT_SWITCH_OVERHEAD
        = get_work_contribution w m c)
       /\ (coalition_in w c (coalitions (miner_at w m)) = false ->
           get_work_contribution w m c = 0).
Proof.
  split.
  - unfold allocate_work_time, calculate_optimal_work_allocation.
    destruct (coalitions (miner_at w m)) as [|c0 [|c1 rest]]; try reflexivity.
    destruct (fold_left _ _ _) as [utilities total_utility].
    destruct (Qeq_bool total_utility 0); reflexivity.
  - intros c. unfold calculate_effective_hashrate, get_work_contribution.
    split; intros ->; reflexivity.
Qed.

Lemma work_helpers_agree_witness :
  calculate_effective_hashrate pool_world 0%nat 0%nat CONTEXT_SWITCH_OVERHEAD
  = get_work_contribution pool_world 0%nat 0%nat
  /\ get_work_contribution idle_world 0%nat 0%nat = 0.
Proof.
  split.
  - destruct (work_helpers_agree pool_world 0%nat) as [_ H].
    apply (H 0%nat). reflexivity.
  - destruct (work_helpers_agree idle_world 0%nat) as [_ H].
    apply (H 0%nat). reflexivity.
Defined.

(** X27.  [calculate_improvement_percentage] is 0 for a zero baseline;
    otherwise adding the percentage to the baseline gives back the improved
    value, and over a positive baseline the percentage is positive exactly
    when the value improved. *)
Theorem calculate_improvement_percentage_round_trip (baseline improved : Q) :
  let pct := calculate_improvement_percentage baseline improved in
  (baseline == 0 -> pct = 0)
  /\ (~ baseline == 0 -> baseline + baseline * pct / 100 == improved)
  /\ (0 < baseline -> (0 < pct <-> baseline < improved)).
Proof.
  cbv zeta. unfold calculate_improvement_percentage.
  destruct (Qeq_bool baseline 0) eqn:E.
  - apply Qeq_bool_iff in E. split; [reflexivity|]. split; intros H; [contradiction | lra].
  - apply Qeq_bool_false in E. split; [intros H; contradiction|]. split.
    + intros _. field. exact E.
    + intros Hpos.
      assert (Hq : (improved - baseline) / baseline * baseline == improved - baseline)
        by (field; lra).
      split; intros H; nra.
Qed.

Lemma calculate_improvement_percentage_round_trip_witness :
  80 + 80 * calculate_improvement_percentage 80 100 / 100 == 100.
Proof.
  destruct (calculate_improvement_percentage_round_trip 80 100) as (_ & H & _).
  apply H. discriminate.
Defined.

Lemma Qsum_concat (ls : list (list Q)) : Qsum (concat ls) == Qsum (map Qsum ls).
Proof.
  induction ls as [|l ls IH]; cbn [concat map]; [reflexivity|].
  rewrite Qsum_app, Qsum_cons, IH. reflexivity.
Qed.

(** X28.  With the books in order, the system utility reported for an
    engine with a provider is at least the provider's utility, which is not
    negative; without a provider it is the sum of all payments recorded in
    the miners' earnings histories. *)
Theorem calculate_system_utility_books (w : World) (miners : list mref) :
  books_ok w ->
  (forall e,
     0 <= calculate_ecp_utility e
     /\ calculate_ecp_utility e <= calculate_system_utility w miners (Some e))
  /\ calculate_system_utility w miners None
     == Qsum (concat (map (fun m => earnings_history (miner_at w m)) miners)).
Proof.
  intros [Hm _]. split.
  - intros e. unfold calculate_system_utility.
    assert (He : 0 <= calculate_ecp_utility e) by apply Q.le_max_l.
    assert (Hsum : 0 <= Qsum (map (get_total_utility w) miners)).
    { apply Qsum_nonneg. apply List.Forall_forall. intros x Hx.
      apply in_map_iff in Hx. destruct Hx as (m & <- & _). apply (Hm m). }
    split; lra.
  - unfold calculate_system_utility. rewrite Qsum_concat, map_map, Qplus_0_l.
    apply Qsum_map_ext. intros m _. apply (Hm m).
Qed.

Lemma calculate_system_utility_books_witness :
  calculate_ecp_utility new_ECP
  <= calculate_system_utility (world mining_engine) (eng_miners mining_engine) (Some new_ECP).
Proof.
  destruct (calculate_system_utility_books (world mining_engine) (eng_miners mining_engine))
    as [H _].
  - split.
    + intros m. destruct m as [|m]; split; vm_compute; first [reflexivity | discriminate].
    + intros c. destruct c as [|c]; split; vm_compute; reflexivity.
  - apply (H new_ECP).
Defined.

(** ** Work of a miner across its coalitions *)

Lemma lookups_le_total (ks : list Z) (a : gmap Z Q) :
  NoDup ks ->
  (forall k v, a !! k = Some v -> 0 <= v) ->
  Qsum (map (fun k => default 0 (a !! k)) ks) <= allocation_total a.
Proof.
  revert a. induction ks as [|k ks IH]; intros a Hnd Hpos.
  - cbn [map]. unfold allocation_total. apply Qsum_nonneg.
    apply List.Forall_forall. intros v Hv. apply in_map_iff in Hv.
    destruct Hv as ([k v'] & <- & Hkv). apply list_elem_of_In, elem_of_map_to_list in Hkv.
    exact (Hpos _ _ Hkv).
  - apply NoDup_cons in Hnd. destruct Hnd as [Hk Hnd]. rewrite list_elem_of_In in Hk.
    cbn [map]. rewrite Qsum_cons.
    set (rest := Qsum (map (fun k0 => default 0 (a !! k0)) ks)).
    destruct (a !! k) as [v|] eqn:E; simpl; subst rest.
    + assert (Hrest : Qsum (map (fun k0 => default 0 (a !! k0)) ks)
                      == Qsum (map (fun k0 => default 0 (delete k a !! k0)) ks)).
      { apply Qsum_map_ext. intros k0 Hk0.
        rewrite lookup_delete_ne; [reflexivity|]. intros ->. contradiction. }
      assert (Htotal : allocation_total a == allocation_total (delete k a) + v).
      { rewrite <- (insert_delete_id a k v E) at 1.
        apply allocation_total_insert. apply lookup_delete_eq. }
      assert (Hle : Qsum (map (fun k0 => default 0 (delete k a !! k0)) ks)
                    <= allocation_total (delete k a)).
      { apply IH; [exact Hnd|]. intros k0 v0 H0.
        apply lookup_delete_Some in H0. destruct H0 as [_ H0]. exact (Hpos _ _ H0). }
      lra.
    + specialize (IH a Hnd Hpos). lra.
Qed.

Lemma get_work_contribution_le (w : World) (m : mref) (c : cref) :
  miner_wf (miner_at w m) ->
  get_work_contribution w m c <= total_hashrate (miner_at w m) * get_allocation w m c.
Proof.
  intros [Hh Ha].
  assert (Halloc : 0 <= get_allocation w m c).
  { unfold get_allocation.
    destruct (allocation (miner_at w m) !! coalition_id (coalition_at w c)) as [v|] eqn:E;
      simpl; [exact (Ha _ _ E) | lra]. }
  unfold get_work_contribution.
  destruct (negb _); [nra|].
  destruct (length (coalitions (miner_at w m)) <=? 1)%nat; [lra|].
  pose proof (inject_nat_nonneg (length (coalitions (miner_at w m)))) as Hn.
  assert (Hp : 0 <= total_hashrate (miner_at w m) * get_allocation w m c)
    by (apply Qmult_le_0_compat; assumption).
  set (allocated := total_hashrate (miner_at w m) * get_allocation w m c) in *.
  set (n := inject_Z (Z.of_nat (length (coalitions (miner_at w m))))) in *.
  unfold CONTEXT_SWITCH_OVERHEAD. apply Q.max_lub; nra.
Qed.

(** X29.  In a store that satisfies the membership and allocation
    invariants, a miner with a hashrate that is not negative contributes to
    each coalition between 0 and its hashrate times the fraction allocated
    to that coalition, and its contributions to all its coalitions together
    do not exceed its hashrate. *)
Theorem miner_work_within_hashrate (w : World) (m : mref) :
  world_ok w ->
  0 <= total_hashrate (miner_at w m) ->
  (forall c,
     0 <= get_work_contribution w m c
     <= total_hashrate (miner_at w m) * get_allocation w m c)
  /\ Qsum (map (get_work_contribution w m) (coalitions (miner_at w m)))
     <= total_hashrate (miner_at w m).
Proof.
  intros Hok Hh. destruct (Hok m) as [[_ Hnd] Hfits]. unfold allocation_ok in Hfits.
  assert (Hvalues : forall k v, allocation (miner_at w m) !! k = Some v -> 0 <= v).
  { destruct (coalitions (miner_at w m)); cbn [allocation_fits] in Hfits.
    - rewrite Hfits. intros k v H. now rewrite lookup_empty in H.
    - apply Hfits. }
  assert (Htotal : allocation_total (allocation (miner_at w m)) <= 1).
  { destruct (coalitions (miner_at w m)); cbn [allocation_fits] in Hfits.
    - rewrite Hfits, allocation_total_empty. lra.
    - destruct Hfits as [_ ->]. lra. }
  assert (Hwf : miner_wf (miner_at w m)) by (split; assumption).
  split.
  - intros c. split; [now apply get_work_contribution_nonneg
                     | now apply get_work_contribution_le].
  - pose proof (Qsum_le (get_work_contribution w m)
                  (fun c => total_hashrate (miner_at w m) * get_allocation w m c)
                  (coalitions (miner_at w m))
                  (fun c _ => get_work_contribution_le w m c Hwf)) as Hle.
    assert (Hscale : Qsum (map (fun c => total_hashrate (miner_at w m) * get_allocation w m c)
                             (coalitions (miner_at w m)))
                     == Qsum (map (fun c => get_allocation w m c) (coalitions (miner_at w m)))
                        * total_hashrate (miner_at w m)).
    { rewrite <- Qsum_map_scale. apply Qsum_map_ext. intros c _. ring. }
    pose proof (lookups_le_total _ (allocation (miner_at w m)) Hnd Hvalues) as Hlook.
    rewrite map_map in Hlook. unfold get_allocation in *. nra.
Qed.

Lemma miner_work_within_hashrate_witness :
  Qsum (map (get_work_contribution pool_world 1%nat) (coalitions (miner_at pool_world 1%nat)))
  <= total_hashrate (miner_at pool_world 1%nat).
Proof.
  apply (miner_work_within_hashrate pool_world 1%nat).
  - intros r. cbn [pool_world miner_at].
    destruct (Nat.eqb r 0); (split; [split; [reflexivity | apply NoDup_singleton]|]);
      (split; [intros k v Hkv;
               change (({[ 7%Z := 1 ]} : gmap Z Q) !! k = Some v) in Hkv;
               apply lookup_singleton_Some in Hkv; destruct Hkv as [_ <-]; lra
              | unfold allocation_total;
                change (allocation (pool_miner 0 300000000)) with ({[ 7%Z := 1 ]} : gmap Z Q);
                change (allocation (pool_miner 1 100000000)) with ({[ 7%Z := 1 ]} : gmap Z Q);
                rewrite map_to_list_singleton; vm_compute; reflexivity]).
  - vm_compute. discriminate.
Defined.

(** ** Size of the global pool *)

Lemma difference_update_size (txs : list Transaction) (s : gmap Z Q) :
  NoDup (map tx_id txs) ->
  (forall tx, In tx txs -> is_Some (s !! tx_id tx)) ->
  (size (difference_update s txs) + length txs = size s)%nat.
Proof.
  unfold difference_update. revert s.
  induction txs as [|tx txs IH]; intros s Hnd Hin; cbn [fold_left length]; [lia|].
  cbn [map] in Hnd. apply NoDup_cons in Hnd. destruct Hnd as [Hk Hnd].
  rewrite list_elem_of_In in Hk.
  destruct (Hin tx (or_introl eq_refl)) as [v Hv].
  assert (Hsize : size s = S (size (delete (tx_id tx) s))).
  { rewrite <- (insert_delete_id s (tx_id tx) v Hv) at 1.
    apply map_size_insert_None, lookup_delete_eq. }
  specialize (IH (delete (tx_id tx) s) Hnd).
  rewrite Hsize, <- IH; [lia|].
  intros t Ht. rewrite lookup_delete_ne; [apply Hin; now right|].
  intros E. apply Hk. rewrite E. now apply in_map.
Qed.

Lemma take_ids_NoDup (n : nat) (l : list Transaction) :
  NoDup (map tx_id l) -> NoDup (map tx_id (take n l)).
Proof.
  intros H. rewrite <- (take_drop n l), map_app in H.
  apply NoDup_app in H. apply H.
Qed.

(** X30.  In an engine whose miners hold only transactions of the global
    pool, a block found by a coalition that has just rebuilt its pool from
    members that are miners of the engine takes exactly its transactions
    out of the global pool: the pool shrinks by the number of selected
    transactions, which is the smaller of [TRANSACTIONS_PER_BLOCK_I] and the
    size of the coalition's pool. *)
Theorem block_shrinks_global_pool (draw : Q) (eng : Engine) (coalition : cref) :
  held_in_pool eng ->
  (forall member, In member (members (coalition_at (world eng) coalition)) ->
                  In member (eng_miners eng)) ->
  let eng1 := engine_aggregate eng coalition in
  let selected :=
    select_transactions_for_block (world eng1) coalition TRANSACTIONS_PER_BLOCK_I in
  (size (global_transaction_pool (handle_block_found draw eng1 coalition)) + length selected
   = size (global_transaction_pool eng))%nat
  /\ length selected
     = Nat.min TRANSACTIONS_PER_BLOCK_I
         (length (transaction_pool (coalition_at (world eng1) coalition))).
Proof.
  intros Hheld Hmembers. cbv zeta.
  unfold handle_block_found. cbn [global_transaction_pool engine_aggregate world].
  unfold select_transactions_for_block.
  set (pool := transaction_pool (coalition_at (aggregate_transactions (world eng) coalition)
                                   coalition)).
  assert (Hnd : NoDup (map tx_id pool)).
  { unfold pool. rewrite aggregate_transactions_pool.
    apply (aggregate_loop_ok (world eng) (members (coalition_at (world eng) coalition))
             ([], ∅)).
    split; [constructor | intros k; simpl; set_solver]. }
  assert (Hfrom : forall tx, In tx pool -> is_Some (global_transaction_pool eng !! tx_id tx)).
  { intros tx Htx.
    destruct (aggregate_transactions_from_members (world eng) coalition tx Htx)
      as (member & Hmember & Hheld_tx).
    pose proof (Hheld member (Hmembers member Hmember)) as Hsub.
    rewrite map_subseteq_spec in Hsub. exists (fee tx). now apply Hsub. }
  pose proof (sorted_by_fee_desc_perm pool) as Hperm.
  split.
  - apply difference_update_size.
    + apply take_ids_NoDup. now rewrite Hperm.
    + intros tx Htx. apply Hfrom.
      apply list_elem_of_In. rewrite <- Hperm. apply list_elem_of_In.
      rewrite <- (take_drop TRANSACTIONS_PER_BLOCK_I (sorted_by_fee_desc pool)).
      apply in_or_app. now left.
  - rewrite length_take. now rewrite (Permutation_length Hperm).
Qed.

Lemma block_shrinks_global_pool_witness :
  (size (global_transaction_pool
           (handle_block_found 0 (engine_aggregate mining_engine 0%nat) 0%nat))
   + length (select_transactions_for_block (world (engine_aggregate mining_engine 0%nat))
               0%nat TRANSACTIONS_PER_BLOCK_I)
   = size (global_transaction_pool mining_engine))%nat.
Proof.
  apply (block_shrinks_global_pool 0 mining_engine 0%nat).
  - intros m Hm. cbn [mining_engine eng_miners] in Hm.
    destruct Hm as [<- | [<- | []]].
    + change (<[5%Z := 40]> (<[6%Z := 10]> (∅ : gmap Z Q))
              ⊆ global_transaction_pool mining_engine).
      apply insert_subseteq_l; [reflexivity|].
      apply insert_subseteq_l; [reflexivity|]. apply map_empty_subseteq.
    + change (<[6%Z := 10]> (<[8%Z := 25]> (∅ : gmap Z Q))
              ⊆ global_transaction_pool mining_engine).
      apply insert_subseteq_l; [reflexivity|].
      apply insert_subseteq_l; [reflexivity|]. apply map_empty_subseteq.
  - intros member Hmember. exact Hmember.
Defined.
